(** * StateSync: a shallow embedding of [src/index.js]

    The module keeps three private registries ([stores], [listeners],
    [derivedStates]) and exports [createStore] and [derive].  The embedding
    threads the three registries through every operation as an explicit
    state [sys]; calls that can throw return an [outcome]; the recursion
    [set -> update -> set] of derived stores is bounded by a call-depth
    fuel.

    Modelling boundary.
    - JavaScript values are the data universe [value] below (numbers are
      integers, strings are ASCII).  An object is the list of its own
      properties in insertion order; the module never enumerates the keys
      of a snapshot other than to copy them, so the place that JavaScript
      gives to integer keys is modelled for [Object.keys(derivedStates)]
      only.
    - Functions supplied by the caller (updaters, compute functions,
      listeners, function-valued properties) are identifiers interpreted by
      [call]: they are functions of their arguments that either return a
      value or throw, and they do not call back into the store API.
    - A listener is a function; its invocation is recorded in the event
      trace with the arguments it receives, and when it throws the
      exception leaves [set] as it does in the code.
    - Own properties are data properties.  Properties that are not own
      (prototype members, string and function intrinsics) are answered by
      the host: [proto] gives their value, and [throws] tells the inherited
      accessors that throw when they are read, as [caller] and [arguments]
      of Function.prototype do.
    - Snapshots are values in [sys]; object identity (which object a caller
      holds, and what mutating it reaches) is modelled by the heap
      refinement [hsys] of the [stores] registry.
    - [bind] (lines 53-72) only talks to the DOM and adds a render listener;
      it is outside the propagation core and is not embedded. *)

From Stdlib Require Import String List ZArith NArith Bool Lia Ascii.
From Stdlib Require Import DecimalString.
Import ListNotations.
Open Scope string_scope.
Open Scope list_scope.
Set Warnings "-register-all".

(** ** JavaScript values *)

Definition fn_id := string.

Inductive value : Type :=
| VUndefined
| VNull
| VBool (b : bool)
| VNum (n : Z)
| VStr (s : string)
| VObj (props : list (string * value))
| VArr (items : list value)
| VFun (f : fn_id).

Definition props := list (string * value).

(** [if (v)]: the falsy values are undefined, null, false, 0 and the empty
    string. *)
Definition truthy (v : value) : bool :=
  match v with
  | VUndefined | VNull => false
  | VBool b => b
  | VNum n => negb (n =? 0)%Z
  | VStr s => negb (s =? "")
  | VObj _ | VArr _ | VFun _ => true
  end.

(** [typeof v === 'function'] *)
Definition is_function (v : value) : bool :=
  match v with VFun _ => true | _ => false end.

Definition nullish (v : value) : bool :=
  match v with VUndefined | VNull => true | _ => false end.

(** ** Property keys *)

(** The decimal spelling of an index, as [String(i)]. *)
Definition index_key (i : N) : string :=
  NilZero.string_of_uint (N.to_uint i).

(** An array index is a canonical decimal string below 2^32 - 1. *)
Definition array_index (k : string) : option N :=
  match NilZero.uint_of_string k with
  | Some u =>
      let i := N.of_uint u in
      if (index_key i =? k) && (i <? 4294967295)%N then Some i else None
  | None => None
  end.

Fixpoint lookup {A : Type} (k : string) (o : list (string * A)) : option A :=
  match o with
  | [] => None
  | (k', v) :: o' => if k' =? k then Some v else lookup k o'
  end.

(** [o[k] = v] as a data-property definition: an existing key keeps its
    place, a new key goes last. *)
Fixpoint assign {A : Type} (o : list (string * A)) (k : string) (v : A)
  : list (string * A) :=
  match o with
  | [] => [(k, v)]
  | (k', v') :: o' =>
      if k' =? k then (k, v) :: o' else (k', v') :: assign o' k v
  end.

(** A plain assignment [registry[k] = v] on an object literal: the key
    [__proto__] reaches the accessor of Object.prototype and never becomes
    an own property. *)
Definition reg_assign {A : Type} (o : list (string * A)) (k : string) (v : A)
  : list (string * A) :=
  if k =? "__proto__" then o else assign o k v.

Fixpoint indexed_from (i : N) (l : list value) : props :=
  match l with
  | [] => []
  | v :: l' => (index_key i, v) :: indexed_from (N.succ i) l'
  end.

Definition chars (s : string) : list value :=
  map (fun c => VStr (String c EmptyString)) (list_ascii_of_string s).

(** The own enumerable properties that a spread [{...v}] copies. *)
Definition own_props (v : value) : props :=
  match v with
  | VObj ps => ps
  | VArr l => indexed_from 0 l
  | VStr s => indexed_from 0 (chars s)
  | VUndefined | VNull | VBool _ | VNum _ | VFun _ => []
  end.

(** [{...target, ...src}] where [target] is the object under construction. *)
Definition spread (target : props) (src : value) : props :=
  fold_left (fun o kv => assign o (fst kv) (snd kv)) (own_props src) target.

(** [{ ...v }] *)
Definition copy (v : value) : value := VObj (spread [] v).

(** [{ ...a, ...b }] *)
Definition merge (a b : value) : value := VObj (spread (spread [] a) b).

(** [Object.keys(o)]: array indices in ascending order, then the other keys
    in insertion order. *)
Fixpoint insert_index (k : N * string) (l : list (N * string))
  : list (N * string) :=
  match l with
  | [] => [k]
  | k' :: l' =>
      if (fst k <=? fst k')%N then k :: k' :: l' else k' :: insert_index k l'
  end.

Fixpoint index_keys {A : Type} (o : list (string * A)) : list (N * string) :=
  match o with
  | [] => []
  | (k, _) :: o' =>
      match array_index k with
      | Some i => insert_index (i, k) (index_keys o')
      | None => index_keys o'
      end
  end.

Fixpoint named_keys {A : Type} (o : list (string * A)) : list string :=
  match o with
  | [] => []
  | (k, _) :: o' =>
      match array_index k with
      | Some _ => named_keys o'
      | None => k :: named_keys o'
      end
  end.

Definition object_keys {A : Type} (o : list (string * A)) : list string :=
  map snd (index_keys o) ++ named_keys o.

(** [path.split('.')] *)
Fixpoint split_dots_aux (acc : string) (s : string) : list string :=
  match s with
  | EmptyString => [acc]
  | String c s' =>
      if Ascii.eqb c "."%char then acc :: split_dots_aux "" s'
      else split_dots_aux (acc ++ String c EmptyString) s'
  end.

Definition split_dots (s : string) : list string := split_dots_aux "" s.

(** [keys.join('.')], the way a caller builds a path from its keys. *)
Fixpoint join_dots (keys : list string) : string :=
  match keys with
  | [] => ""
  | [k] => k
  | k :: keys' => k ++ "." ++ join_dots keys'
  end.

(** The key holds no dot. *)
Definition dot_free (k : string) : bool :=
  forallb (fun c => negb (Ascii.eqb c "."%char)) (list_ascii_of_string k).

(** A parameter with the default [= {}]: the default replaces undefined. *)
Definition or_empty (v : value) : value :=
  match v with VUndefined => VObj [] | _ => v end.

(** ** Outcomes *)

Inductive exn := TypeError | UserError.

(** [Exhausted]: the call depth exceeded the fuel (unbounded recursion). *)
Inductive outcome (A : Type) : Type :=
| Returned (a : A)
| Thrown (e : exn)
| Exhausted.
Arguments Returned {A} a.
Arguments Thrown {A} e.
Arguments Exhausted {A}.

(** ** The module state *)

(** What [createStore] hands back: the object literal of lines 18-73, whose
    methods are closed over [name], or (line 13) the value found in
    [stores[name]]. *)
Inductive store_ref :=
| Handle (name : string)
| Raw (o : value).

(** An entry of [derivedStates]: [{ deps, update }], where the closure
    [update] captures [deps], [computeFn] and [store]. *)
Record dspec := mk_dspec {
  deps : list string;
  computeFn : fn_id;
  store : store_ref
}.

(** The three registries of lines 7-9.  A listener [Set] is a list without
    duplicates in insertion order. *)
Record sys := mk_sys {
  stores : list (string * value);
  listeners : list (string * list fn_id);
  derivedStates : list (string * dspec)
}.

Definition empty_sys : sys := mk_sys [] [] [].

Definition set_add (x : fn_id) (l : list fn_id) : list fn_id :=
  if existsb (String.eqb x) l then l else l ++ [x].

Definition set_delete (x : fn_id) (l : list fn_id) : list fn_id :=
  filter (fun y => negb (y =? x)) l.

(** The observable effects of a call, in the order they happen. *)
Inductive event :=
| EWrite (name : string) (nextState : value)
| ENotify (name : string) (listener : fn_id) (nextState prevState : value)
| EUpdate (key : string) (inputs : list value)
| EReturn (name : string) (nextState : value).

Definition result (A : Type) : Type := sys * list event * outcome A.

Fixpoint nth_N {A : Type} (l : list A) (i : N) : option A :=
  match l with
  | [] => None
  | x :: l' => if (i =? 0)%N then Some x else nth_N l' (N.pred i)
  end.

Definition own_prop (o : value) (k : string) : option value :=
  match o with
  | VObj ps => lookup k ps
  | VArr l =>
      if k =? "length" then Some (VNum (Z.of_nat (length l)))
      else match array_index k with
           | Some i => nth_N l i
           | None => None
           end
  | VStr s =>
      if k =? "length" then Some (VNum (Z.of_nat (String.length s)))
      else match array_index k with
           | Some i => nth_N (chars s) i
           | None => None
           end
  | VUndefined | VNull | VBool _ | VNum _ | VFun _ => None
  end.

(** The prototype a value inherits from. *)
Inductive jsclass :=
| ObjectProto | ArrayProto | StringProto | NumberProto | BooleanProto
| FunctionProto.

Definition class_of (v : value) : jsclass :=
  match v with
  | VArr _ => ArrayProto
  | VStr _ => StringProto
  | VNum _ => NumberProto
  | VBool _ => BooleanProto
  | VFun _ => FunctionProto
  | VObj _ | VUndefined | VNull => ObjectProto
  end.

(** The environment the module runs in.
    - [call f args]: the caller's function [f] applied to [args]; [None]
      when it throws.
    - [proto c k]: the member named [k] that a value of class [c] inherits
      from the host's prototype objects, [VUndefined] when there is none.
    - [throws c k]: the member named [k] that a value of class [c] inherits
      is an accessor that throws a TypeError when it is read.
    - [object_reads]: Object.prototype holds no such accessor, so that
      reading a key of a plain object (a registry, a snapshot copy) does not
      throw. *)
Class Host := {
  call : fn_id -> list value -> option value;
  proto : jsclass -> string -> value;
  throws : jsclass -> string -> bool;
  object_reads : forall k, throws ObjectProto k = false
}.

Section StateSync.

Context {host : Host}.

(** [o[k]] on a value that is neither undefined nor null: the own property,
    or else the inherited member, whose accessor may throw. *)
Definition get_prop (o : value) (k : string) : outcome value :=
  match own_prop o k with
  | Some v => Returned v
  | None =>
      if throws (class_of o) k then Thrown TypeError
      else Returned (proto (class_of o) k)
  end.

(** [o[k]]: reading a property of undefined or null is a TypeError. *)
Definition member (o : value) (k : string) : outcome value :=
  if nullish o then Thrown TypeError else get_prop o k.

(** [o?.[k]] *)
Definition opt_member (o : value) (k : string) : outcome value :=
  if nullish o then Returned VUndefined else member o k.

(** [f(...args)] for an arbitrary value [f]. *)
Definition invoke (f : value) (args : list value) : outcome value :=
  match f with
  | VFun g =>
      match call g args with
      | Some v => Returned v
      | None => Thrown UserError
      end
  | _ => Thrown TypeError
  end.

(** [stores[name]]: a read of the plain object [stores], which does not
    throw ([object_reads]). *)
Definition stores_get (s : sys) (name : string) : value :=
  match lookup name (stores s) with
  | Some v => v
  | None => proto ObjectProto name
  end.

Definition with_store (s : sys) (name : string) (v : value) : sys :=
  mk_sys (reg_assign (stores s) name v) (listeners s) (derivedStates s).

Definition with_listeners (s : sys) (name : string) (l : list fn_id) : sys :=
  mk_sys (stores s) (reg_assign (listeners s) name l) (derivedStates s).

Definition with_derived (s : sys) (name : string) (d : dspec) : sys :=
  mk_sys (stores s) (listeners s) (reg_assign (derivedStates s) name d).

(** *** getNestedValue (lines 93-95) *)

Fixpoint reduce_path (o : value) (keys : list string) : outcome value :=
  match keys with
  | [] => Returned o
  | key :: keys' =>
      match opt_member o key with
      | Returned o' => reduce_path o' keys'
      | Thrown e => Thrown e
      | Exhausted => Exhausted
      end
  end.

Definition getNestedValue (obj : value) (path : string) : outcome value :=
  reduce_path obj (split_dots path).

(** *** createStore (lines 12-74) *)

Definition createStore (name : string) (initialState : value) (s : sys)
  : sys * store_ref :=
  let initialState := or_empty initialState in
  if truthy (stores_get s name) then (s, Raw (stores_get s name))
  else
    let s1 := with_store s name (copy initialState) in
    let s2 := with_listeners s1 name [] in
    (s2, Handle name).

(** *** get (line 20); [path] is [None] when the argument is omitted. *)

Definition get (name : string) (path : option string) (s : sys)
  : outcome value :=
  match path with
  | None => Returned (copy (stores_get s name))
  | Some p =>
      if p =? "" then Returned (copy (stores_get s name))
      else getNestedValue (stores_get s name) p
  end.

(** *** subscribe (lines 47-50) and the closure it returns *)

(** [listeners[name].add] and [.delete] change the Set that the registry
    already holds. *)
Definition with_listener_set (s : sys) (name : string) (l : list fn_id) : sys :=
  mk_sys (stores s) (assign (listeners s) name l) (derivedStates s).

(** The handle that [subscribe] returns is the closure
    [() => listeners[name].delete(callback)], represented by the pair it
    captures. *)
Definition subscribe (name : string) (callback : fn_id) (s : sys)
  : sys * outcome (string * fn_id) :=
  match lookup name (listeners s) with
  | Some l =>
      (with_listener_set s name (set_add callback l),
       Returned (name, callback))
  | None => (s, Thrown TypeError)
  end.

Definition unsubscribe (h : string * fn_id) (s : sys) : sys * outcome bool :=
  let '(name, callback) := h in
  match lookup name (listeners s) with
  | Some l =>
      (with_listener_set s name (set_delete callback l),
       Returned (existsb (String.eqb callback) l))
  | None => (s, Thrown TypeError)
  end.

(** *** set (lines 23-44) and update (lines 80-84) *)

(** Line 25-27: the next snapshot; [None] when the updater throws. *)
Definition next_state (prevState updater : value) : option value :=
  match updater with
  | VFun f => call f [prevState]
  | _ => Some (merge prevState updater)
  end.

(** The outcome of a call that returns [b] once [o] has completed. *)
Definition answer {A B : Type} (b : B) (o : outcome A) : outcome B :=
  match o with
  | Returned _ => Returned b
  | Thrown e => Thrown e
  | Exhausted => Exhausted
  end.

Definition discard {A : Type} (o : outcome A) : outcome unit := answer tt o.

(** The return event of [set], reached when the scan [o] has completed. *)
Definition returning (name : string) (nextState : value) (o : outcome unit)
  : list event :=
  match o with
  | Returned _ => [EReturn name nextState]
  | _ => []
  end.

(** [keys.forEach(body)]: an exception leaves the loop. *)
Fixpoint for_each (body : string -> sys -> result unit) (keys : list string)
  (s : sys) : result unit :=
  match keys with
  | [] => (s, [], Returned tt)
  | key :: keys' =>
      match body key s with
      | (s1, tr1, Returned _) =>
          let '(s2, tr2, o) := for_each body keys' s1 in
          (s2, tr1 ++ tr2, o)
      | (s1, tr1, o) => (s1, tr1, o)
      end
  end.

(** [store.set(newState, { silent: false })] of line 83. *)
Definition store_set (set : string -> value -> bool -> sys -> result value)
  (store : store_ref) (newState : value) (s : sys) : result unit :=
  match store with
  | Handle n =>
      let '(s', tr, o) := set n newState false s in (s', tr, discard o)
  | Raw o =>
      match member o "set" with
      | Returned m =>
          (s, [], discard (invoke m [newState; VObj [("silent", VBool false)]]))
      | Thrown e => (s, [], Thrown e)
      | Exhausted => (s, [], Exhausted)
      end
  end.

Definition update (set : string -> value -> bool -> sys -> result value)
  (key : string) (d : dspec) (s : sys) : result unit :=
  let inputs := map (stores_get s) (deps d) in
  match call (computeFn d) inputs with
  | None => (s, [EUpdate key inputs], Thrown UserError)
  | Some newState =>
      let '(s', tr, o) := store_set set (store d) newState s in
      (s', EUpdate key inputs :: tr, o)
  end.

(** Lines 37-41, the body of the scan for one key. *)
Definition recompute (set : string -> value -> bool -> sys -> result value)
  (name : string) (key : string) (s : sys) : result unit :=
  match lookup key (derivedStates s) with
  | Some d =>
      if existsb (String.eqb name) (deps d) then update set key d s
      else (s, [], Returned tt)
  | None => (s, [], Thrown TypeError)
  end.

(** Line 33, [forEach(listener => listener(nextState, prevState))]: the
    listeners are called in the order of the Set; one that throws ends the
    loop with its exception, and the listeners after it are not called. *)
Fixpoint notifications (name : string) (l : list fn_id)
  (nextState prevState : value) : list event * outcome unit :=
  match l with
  | [] => ([], Returned tt)
  | listener :: l' =>
      match call listener [nextState; prevState] with
      | Some _ =>
          let '(tr, o) := notifications name l' nextState prevState in
          (ENotify name listener nextState prevState :: tr, o)
      | None => ([ENotify name listener nextState prevState], Thrown UserError)
      end
  end.

(** Lines 32-34; a TypeError when [listeners[name]] has no [forEach]. *)
Definition notify (name : string) (silent : bool) (nextState prevState : value)
  (s : sys) : list event * outcome unit :=
  if silent then ([], Returned tt)
  else match lookup name (listeners s) with
       | Some l => notifications name l nextState prevState
       | None => ([], Thrown TypeError)
       end.

Fixpoint set (fuel : nat) (name : string) (updater : value) (silent : bool)
  (s : sys) {struct fuel} : result value :=
  match fuel with
  | O => (s, [], Exhausted)
  | S fuel' =>
      let prevState := copy (stores_get s name) in
      match next_state prevState updater with
      | None => (s, [], Thrown UserError)
      | Some nextState =>
          let s1 := with_store s name nextState in
          match notify name silent nextState prevState s1 with
          | (ns, Returned _) =>
              let '(s2, tr, o) :=
                for_each (recompute (set fuel') name)
                  (object_keys (derivedStates s1)) s1 in
              (s2,
               EWrite name nextState :: ns ++ tr ++ returning name nextState o,
               answer nextState o)
          | (ns, Thrown e) => (s1, EWrite name nextState :: ns, Thrown e)
          | (ns, Exhausted) => (s1, EWrite name nextState :: ns, Exhausted)
          end
      end
  end.

(** *** derive (lines 77-90) *)

Definition derive (fuel : nat) (name : string) (deps : list string)
  (computeFn : fn_id) (s : sys) : result store_ref :=
  let '(s1, store) := createStore name VUndefined s in
  let d := mk_dspec deps computeFn store in
  let s2 := with_derived s1 name d in
  let '(s3, tr, o) := update (set fuel) name d s2 in
  (s3, tr, answer store o).

End StateSync.

(** ** Object identity

    In [sys] a snapshot is a value.  The refinement below keeps the
    top-level objects that the module creates on a heap, so that two
    references to one object can be told from two objects with equal
    contents: [stores[name]] holds a reference, a spread allocates, and the
    caller can change the own properties of any object it holds a reference
    to.  Only the [stores] registry is involved. *)

Inductive ref_value :=
| RObj (l : nat)
| RVal (v : value).

Record hsys := mk_hsys {
  heap : list props;
  hstores : list (string * ref_value)
}.

Definition deref (h : list props) (r : ref_value) : value :=
  match r with
  | RObj l => VObj (nth l h [])
  | RVal v => v
  end.

Definition alloc (o : props) (s : hsys) : hsys * nat :=
  (mk_hsys (heap s ++ [o]) (hstores s), length (heap s)).

Fixpoint update_nth {A : Type} (i : nat) (f : A -> A) (l : list A) : list A :=
  match l, i with
  | [], _ => []
  | x :: l', O => f x :: l'
  | x :: l', S i' => x :: update_nth i' f l'
  end.

(** What a caller can do to the top level of an object it holds:
    [obj[k] = v] and [delete obj[k]]. *)
Inductive mutation :=
| MAssign (k : string) (v : value)
| MDelete (k : string).

Definition apply_mutation (m : mutation) (o : props) : props :=
  match m with
  | MAssign k v => reg_assign o k v
  | MDelete k => filter (fun kv => negb (fst kv =? k)) o
  end.

Definition mutate (r : ref_value) (m : mutation) (s : hsys) : hsys :=
  match r with
  | RObj l => mk_hsys (update_nth l (apply_mutation m) (heap s)) (hstores s)
  | RVal _ => s
  end.

Inductive hstore_ref :=
| HHandle (name : string)
| HRaw (r : ref_value).

Section Identity.

Context {host : Host}.

(** [stores[name]] *)
Definition hstores_get (s : hsys) (name : string) : ref_value :=
  match lookup name (hstores s) with
  | Some r => r
  | None => RVal (proto ObjectProto name)
  end.

(** Line 20 without a path: [{ ...stores[name] }]. *)
Definition hget (name : string) (s : hsys) : hsys * ref_value :=
  let '(s', l) := alloc (spread [] (deref (heap s) (hstores_get s name))) s in
  (s', RObj l).

(** Lines 13 and 15 of createStore. *)
Definition hcreateStore (name : string) (initialState : value) (s : hsys)
  : hsys * hstore_ref :=
  let initialState := or_empty initialState in
  if truthy (deref (heap s) (hstores_get s name))
  then (s, HRaw (hstores_get s name))
  else
    let '(s1, l) := alloc (spread [] initialState) s in
    (mk_hsys (heap s1) (reg_assign (hstores s1) name (RObj l)), HHandle name).

(** The value-level view of a heap state. *)
Definition abs_stores (s : hsys) : list (string * value) :=
  map (fun kr => (fst kr, deref (heap s) (snd kr))) (hstores s).

(** Every reference held in [stores] is allocated. *)
Definition allocated (h : list props) (r : ref_value) : Prop :=
  match r with
  | RObj l => l < length h
  | RVal _ => True
  end.

Definition heap_wf (s : hsys) : Prop :=
  Forall (fun kr => allocated (heap s) (snd kr)) (hstores s).

End Identity.

(** ** The vocabulary of the properties *)

Section Vocabulary.

Context {host : Host}.

(** [s'] has the listener sets and the derived specs of [s]. *)
Definition same_registries (s s' : sys) : Prop :=
  listeners s' = listeners s /\ derivedStates s' = derivedStates s.

(** [f] assigns to nothing but [stores]. *)
Definition keeps_registries {A : Type} (f : sys -> result A) : Prop :=
  forall s s' tr o, f s = (s', tr, o) -> same_registries s s'.

(** The events of calling every listener of [l], in the order of [l]. *)
Definition invocations (name : string) (l : list fn_id)
  (nextState prevState : value) : list event :=
  map (fun listener => ENotify name listener nextState prevState) l.

(** Every listener of [l] returns when it is called with the two states. *)
Definition listeners_return (l : list fn_id) (nextState prevState : value)
  : Prop :=
  Forall (fun listener => call listener [nextState; prevState] <> None) l.

(** No listener of any store throws. *)
Definition quiet (s : sys) : Prop :=
  forall n l x args,
    lookup n (listeners s) = Some l -> In x l -> call x args <> None.

(** The derived specs that a [set] on [name] has to recompute: the keys of
    [derivedStates], in the order of [Object.keys], whose [deps] include
    [name]. *)
Definition depends_on (ds : list (string * dspec)) (name key : string)
  : bool :=
  match lookup key ds with
  | Some d => existsb (String.eqb name) (deps d)
  | None => false
  end.

Definition dependents (ds : list (string * dspec)) (name : string)
  : list string :=
  filter (depends_on ds name) (object_keys ds).



(** The dependency graph has no cycle: a derived store sits strictly below
    everything it depends on. *)
Definition acyclic (s : sys) (height : string -> nat) : Prop :=
  forall key d dep,
    lookup key (derivedStates s) = Some d -> In dep (deps d) ->
    height key < height dep.

(** Every derived spec was registered on a store of its own, and its compute
    function returns a snapshot (a value that is not a function). *)
Definition recomputable (s : sys) : Prop :=
  forall key d,
    lookup key (derivedStates s) = Some d ->
    store d = Handle key /\
    (exists l, lookup key (listeners s) = Some l) /\
    forall inputs, exists v,
      call (computeFn d) inputs = Some v /\ is_function v = false.

(** [f] returns on every store below [bound]. *)
Definition returns_below (height : string -> nat) (bound : nat)
    (f : string -> value -> bool -> sys -> result value) : Prop :=
  forall name updater silent s nextState,
    acyclic s height -> recomputable s -> quiet s ->
    next_state (copy (stores_get s name)) updater = Some nextState ->
    (exists l, lookup name (listeners s) = Some l) ->
    height name < bound ->
    exists s' tr, f name updater silent s = (s', tr, Returned nextState).

(** The stores written by a trace, in order. *)
Definition written (tr : list event) : list string :=
  flat_map (fun e => match e with EWrite n _ => [n] | _ => [] end) tr.

(** The stores that a returning [set] on [name] writes depend on the
    dependency graph alone: [walk fuel d name] follows the scan of lines
    37-41 through the registry [d] of derived specs. *)
Fixpoint walk_keys (visit : string -> option (list string))
  (d : list (string * dspec)) (name : string) (keys : list string)
  : option (list string) :=
  match keys with
  | [] => Some []
  | key :: keys' =>
      match lookup key d with
      | None => None
      | Some spec =>
          let here :=
            if existsb (String.eqb name) (deps spec) then
              match store spec with
              | Handle n => visit n
              | Raw _ => Some []
              end
            else Some [] in
          match here, walk_keys visit d name keys' with
          | Some a, Some b => Some (a ++ b)
          | _, _ => None
          end
      end
  end.

Fixpoint walk (fuel : nat) (d : list (string * dspec)) (name : string)
  : option (list string) :=
  match fuel with
  | O => None
  | S fuel' =>
      match walk_keys (walk fuel' d) d name (object_keys d) with
      | Some w => Some (name :: w)
      | None => None
      end
  end.

(** The stores that a returning call of [f] writes are those of [visit]. *)
Definition walks (d : list (string * dspec)) (visit : string -> option (list string))
    (f : string -> value -> bool -> sys -> result value) : Prop :=
  forall n u sl s s' tr v,
    derivedStates s = d ->
    f n u sl s = (s', tr, Returned v) -> visit n = Some (written tr).

(** A listener of a store is only ever invoked inside a [set] call on that
    store. *)
Definition notifies_within_set (tr : list event) : Prop :=
  forall n x a b, In (ENotify n x a b) tr -> In n (written tr).

(** The states the module can be in: what the exported functions and the
    methods of the handles they return make of the empty registries.  A
    caller holds a handle for [name] only once [createStore] has created
    that store, which is when [listeners[name]] exists. *)
Inductive reachable : sys -> Prop :=
| reach_empty : reachable empty_sys
| reach_createStore s name initialState :
    reachable s -> reachable (fst (createStore name initialState s))
| reach_derive s fuel name dl f s' tr o :
    reachable s -> derive fuel name dl f s = (s', tr, o) -> reachable s'
| reach_set s fuel name updater silent l s' tr o :
    reachable s -> lookup name (listeners s) = Some l ->
    set fuel name updater silent s = (s', tr, o) -> reachable s'
| reach_subscribe s name callback :
    reachable s -> reachable (fst (subscribe name callback s))
| reach_unsubscribe s h :
    reachable s -> reachable (fst (unsubscribe h s)).

(** The [store] that the [update] closure of the spec [key] captured is the
    handle of the store [key], if it is a handle at all. *)
Definition proper (s : sys) : Prop :=
  forall key d n,
    lookup key (derivedStates s) = Some d -> store d = Handle n -> n = key.

(** Every write of the store [d] in the trace comes right after an [update]
    of the derived spec [d]. *)
Definition by_update (d : string) (tr : list event) : Prop :=
  forall pre v post,
    tr = pre ++ EWrite d v :: post ->
    exists pre' inputs, pre = pre' ++ [EUpdate d inputs].

(** The trace of a [set] call starts with its own write, and every other
    write of [d] in it is made by an update of [d]. *)
Definition writes_first (d : string)
    (f : string -> value -> bool -> sys -> result value) : Prop :=
  forall n u sl s s' tr o,
    proper s -> f n u sl s = (s', tr, o) ->
    tr = [] \/ exists v rest, tr = EWrite n v :: rest /\ by_update d rest.

(** [f] leaves the snapshot of every store that its trace does not write. *)
Definition keeps_unwritten (f : sys -> result value) : Prop :=
  forall s s' tr o m,
    f s = (s', tr, o) -> ~ In m (written tr) -> stores_get s' m = stores_get s m.

(** The state that the writes of a trace make of [s]. *)
Definition replay (tr : list event) (s : sys) : sys :=
  fold_left (fun s e =>
               match e with
               | EWrite n v => with_store s n v
               | _ => s
               end) tr s.

(** Every write in the trace is the write of an update (lines 80-84) that
    ran in the state the trace had made of [s0] by then: the inputs are the
    snapshots of the dependencies at that moment, and what is written is the
    compute function's result taken as an updater over a copy of the
    snapshot that the derived store held at that moment. *)
Definition written_by_updates (ds : list (string * dspec)) (s0 : sys)
    (tr : list event) : Prop :=
  forall pre key w post,
    tr = pre ++ EWrite key w :: post ->
    exists pre' d newState,
      pre = pre' ++ [EUpdate key (map (stores_get (replay pre' s0)) (deps d))] /\
      lookup key ds = Some d /\
      call (computeFn d) (map (stores_get (replay pre' s0)) (deps d))
        = Some newState /\
      next_state (copy (stores_get (replay pre' s0) key)) newState = Some w.

(** Every write of a store in the trace is followed by a write of each
    derived store that lists it in its [deps]. *)
Definition reaches_dependents (ds : list (string * dspec)) (tr : list event)
  : Prop :=
  forall pre m w post,
    tr = pre ++ EWrite m w :: post ->
    forall key d,
      lookup key ds = Some d -> store d = Handle key -> In m (deps d) ->
      In key (written post).

(** The state that [f] returns is its start state with the writes of its
    trace. *)
Definition replays (f : string -> value -> bool -> sys -> result value) : Prop :=
  forall n u sl s s' tr o, f n u sl s = (s', tr, o) -> s' = replay tr s.

(** The trace of [f] starts with the write of the updater's result, and
    every later write in it is that of an update. *)
Definition updates_valid (f : string -> value -> bool -> sys -> result value)
  : Prop :=
  forall n u sl s s' tr o,
    proper s -> f n u sl s = (s', tr, o) ->
    tr = [] \/
    exists v rest,
      tr = EWrite n v :: rest /\
      next_state (copy (stores_get s n)) u = Some v /\
      written_by_updates (derivedStates s) (with_store s n v) rest.

(** In the trace of a call of [f] that returns, every write reaches the
    dependents of the store it writes. *)
Definition reaching (f : string -> value -> bool -> sys -> result value)
  : Prop :=
  forall n u sl s s' tr v,
    proper s -> f n u sl s = (s', tr, Returned v) ->
    reaches_dependents (derivedStates s) tr.

(** After the call with trace [tr] that took [s] to [s'], the snapshot of
    the derived store [key] is what its last recomputation in the call
    wrote: the compute function's result for the states that the
    dependencies have in [s'], handed to [set] as an updater (line 83) over a
    copy of the snapshot that [key] held just before that write. *)
Definition computed_state (s : sys) (tr : list event) (s' : sys)
    (key : string) (d : dspec) : Prop :=
  exists newState pre post,
    tr = pre ++ EWrite key (stores_get s' key) :: post /\
    ~ In key (written post) /\
    call (computeFn d) (map (stores_get s') (deps d)) = Some newState /\
    next_state (copy (stores_get (replay pre s) key)) newState
      = Some (stores_get s' key).

(** The listener sets have no duplicates. *)
Definition listeners_wf (s : sys) : Prop :=
  forall name l, lookup name (listeners s) = Some l -> NoDup l.

(** The stores downstream of [name]: [name] itself, and every derived store,
    registered on a store of its own, that lists a downstream store in its
    [deps]. *)
Inductive downstream (s : sys) (name : string) : string -> Prop :=
| downstream_self : downstream s name name
| downstream_step m key d :
    downstream s name m ->
    lookup key (derivedStates s) = Some d ->
    store d = Handle key ->
    In m (deps d) ->
    downstream s name key.

(** Every trace that [f] produces satisfies [P]. *)
Definition traces (P : list event -> Prop) {A : Type} (f : sys -> result A)
  : Prop :=
  forall s s' tr o, f s = (s', tr, o) -> P tr.

End Vocabulary.

(** ** Hosts and scenarios used in the examples *)

(** The prototype objects reduced to what every class inherits from
    Object.prototype: its members are functions, and [__proto__] is a
    prototype object. *)
Definition object_prototype_keys : list string :=
  ["constructor"; "hasOwnProperty"; "isPrototypeOf"; "propertyIsEnumerable";
   "toLocaleString"; "toString"; "valueOf"; "__defineGetter__";
   "__defineSetter__"; "__lookupGetter__"; "__lookupSetter__"].

Definition std_proto (c : jsclass) (k : string) : value :=
  if k =? "__proto__" then VObj []
  else if existsb (String.eqb k) object_prototype_keys then VFun k
  else VUndefined.

(** The accessors [caller] and [arguments] that functions inherit from
    Function.prototype throw a TypeError. *)
Definition std_throws (c : jsclass) (k : string) : bool :=
  match c with
  | FunctionProto => (k =? "caller") || (k =? "arguments")
  | _ => false
  end.

(** A few caller functions:
    - [first]: [(a) => a];
    - [wrap]: [(a) => ({ value: a })];
    - [null]: [() => null];
    - [onlyY]: [() => ({ y: 2 })];
    - [fail]: [() => { throw ... }];
    - [noZ]: returns its argument, and throws when the argument has an own
      property [z];
    - anything else returns undefined. *)
Definition demo_call (f : fn_id) (args : list value) : option value :=
  if f =? "first" then Some (nth 0 args VUndefined)
  else if f =? "wrap" then Some (VObj [("value", nth 0 args VUndefined)])
  else if f =? "null" then Some VNull
  else if f =? "onlyY" then Some (VObj [("y", VNum 2)])
  else if f =? "fail" then None
  else if f =? "noZ" then
    match own_prop (nth 0 args VUndefined) "z" with
    | Some _ => None
    | None => Some (nth 0 args VUndefined)
    end
  else Some VUndefined.

Definition demo : Host :=
  {| call := demo_call;
     proto := std_proto;
     throws := std_throws;
     object_reads := fun _ => eq_refl |}.

(** The scenario of the examples: a store [a] holding [{x: 1}] with one
    listener [L], and a store [d] derived from [a] by [(a) => a]. *)
Definition state_x1 : value := VObj [("x", VNum 1)].

Definition sys_a : sys := fst (createStore (host := demo) "a" state_x1 empty_sys).

Definition sys_a_listened : sys := fst (subscribe "a" "L" sys_a).

Definition sys_ad : sys :=
  fst (fst (derive (host := demo) 5 "d" ["a"] "first" sys_a_listened)).

(** The same with [d] derived by [(a) => ({ value: a })]. *)
Definition sys_aw : sys :=
  fst (fst (derive (host := demo) 5 "d" ["a"] "wrap" sys_a_listened)).

(** A listener [M] on the derived store [d]. *)
Definition sys_ad_listened : sys := fst (subscribe "d" "M" sys_ad).

(** A chain: [e] derived from [d], itself derived from [a], both by
    [(x) => ({ value: x })]. *)
Definition sys_chain : sys :=
  fst (fst (derive (host := demo) 5 "e" ["d"] "wrap" sys_aw)).

(** Two stores derived from [a]: [d1] by a compute function that throws as
    soon as [a] has a property [z], and after it [d2] by [(a) => a]. *)
Definition sys_guarded : sys :=
  fst (fst (derive (host := demo) 5 "d2" ["a"] "first"
              (fst (fst (derive (host := demo) 5 "d1" ["a"] "noZ" sys_a))))).

(** The store [a] with a listener that throws subscribed before [L], and
    [d] derived from [a] by [(a) => a]. *)
Definition sys_failing : sys :=
  fst (fst (derive (host := demo) 5 "d" ["a"] "first"
              (fst (subscribe "a" "L" (fst (subscribe "a" "fail" sys_a)))))).

(** A store [u] with a nested snapshot. *)
Definition sys_u : sys :=
  fst (createStore (host := demo) "u"
         (VObj [("preferences", VObj [("theme", VStr "light")])]) empty_sys).

(** ** Properties *)

Section Properties.

Context {host : Host}.

(** *** Registries *)

Lemma lookup_assign_same {A : Type} (o : list (string * A)) k v :
  lookup k (assign o k v) = Some v.
Proof.
  induction o as [|[k' v'] o IH]; simpl.
  - now rewrite String.eqb_refl.
  - destruct (k' =? k) eqn:E; simpl.
    + now rewrite String.eqb_refl.
    + now rewrite E.
Qed.

Lemma lookup_assign_other {A : Type} (o : list (string * A)) k k' v :
  k <> k' -> lookup k' (assign o k v) = lookup k' o.
Proof.
  intros Hne. induction o as [|[k0 v0] o IH]; simpl.
  - destruct (k =? k') eqn:E; [apply String.eqb_eq in E; contradiction|reflexivity].
  - destruct (k0 =? k) eqn:E; simpl.
    + apply String.eqb_eq in E. subst k0.
      destruct (k =? k') eqn:E'; [apply String.eqb_eq in E'; contradiction|reflexivity].
    + destruct (k0 =? k'); [reflexivity|exact IH].
Qed.

Lemma assign_unchanged {A : Type} (o : list (string * A)) k v :
  lookup k o = Some v -> assign o k v = o.
Proof.
  induction o as [|[k' v'] o IH]; simpl; [discriminate|].
  destruct (k' =? k) eqn:E.
  - intros [= ->]. apply String.eqb_eq in E. now subst.
  - intros H. now rewrite IH.
Qed.

Lemma assign_assign {A : Type} (o : list (string * A)) k v w :
  assign (assign o k v) k w = assign o k w.
Proof.
  induction o as [|[k' v'] o IH]; simpl.
  - now rewrite String.eqb_refl.
  - destruct (k' =? k) eqn:E; simpl.
    + now rewrite String.eqb_refl.
    + now rewrite E, IH.
Qed.

Lemma lookup_reg_assign_same {A : Type} (o : list (string * A)) k v :
  k <> "__proto__" -> lookup k (reg_assign o k v) = Some v.
Proof.
  intros Hk. unfold reg_assign.
  destruct (k =? "__proto__") eqn:E; [apply String.eqb_eq in E; contradiction|].
  apply lookup_assign_same.
Qed.

Lemma lookup_reg_assign_other {A : Type} (o : list (string * A)) k k' v :
  k <> k' -> lookup k' (reg_assign o k v) = lookup k' o.
Proof.
  intros Hk. unfold reg_assign.
  destruct (k =? "__proto__"); [reflexivity|].
  now apply lookup_assign_other.
Qed.

Lemma stores_get_with_store_same s name v :
  name <> "__proto__" -> stores_get (with_store s name v) name = v.
Proof.
  intros Hk. unfold stores_get, with_store; simpl.
  now rewrite lookup_reg_assign_same.
Qed.

Lemma stores_get_with_store_other s name name' v :
  name <> name' -> stores_get (with_store s name v) name' = stores_get s name'.
Proof.
  intros Hk. unfold stores_get, with_store; simpl.
  now rewrite lookup_reg_assign_other.
Qed.

(** [stores[name]] is the property read of the registry object. *)
Lemma stores_get_read s name :
  get_prop (VObj (stores s)) name = Returned (stores_get s name).
Proof.
  unfold get_prop, stores_get. simpl.
  destruct (lookup name (stores s)); [reflexivity|].
  now rewrite object_reads.
Qed.

Lemma sys_eta s : mk_sys (stores s) (listeners s) (derivedStates s) = s.
Proof. now destruct s. Qed.

(** *** Path lookup *)

Lemma get_prop_thrown o k e :
  get_prop o k = Thrown e ->
  e = TypeError /\ own_prop o k = None /\ throws (class_of o) k = true.
Proof.
  unfold get_prop. destruct (own_prop o k); [discriminate|].
  destruct (throws (class_of o) k); [|discriminate].
  now intros [= <-].
Qed.

Lemma get_prop_returns o k :
  throws (class_of o) k = false -> exists v, get_prop o k = Returned v.
Proof.
  intros H. unfold get_prop. rewrite H. destruct (own_prop o k); eauto.
Qed.

Lemma get_prop_not_exhausted o k : get_prop o k <> Exhausted.
Proof.
  unfold get_prop. destruct (own_prop o k); [discriminate|].
  destruct (throws (class_of o) k); discriminate.
Qed.

Lemma opt_member_nullish o k :
  nullish o = true -> opt_member o k = Returned VUndefined.
Proof. intros H. unfold opt_member. now rewrite H. Qed.

Lemma opt_member_read o k :
  nullish o = false -> opt_member o k = get_prop o k.
Proof. intros H. unfold opt_member, member. now rewrite H. Qed.

Lemma reduce_path_app keys1 keys2 : forall o v,
  reduce_path o keys1 = Returned v ->
  reduce_path o (keys1 ++ keys2) = reduce_path v keys2.
Proof.
  induction keys1 as [|k keys1 IH]; intros o v; simpl.
  - now intros [= ->].
  - destruct (opt_member o k) as [o'| |]; try discriminate. apply IH.
Qed.

Lemma reduce_path_nullish keys : forall o,
  nullish o = true -> keys <> [] -> reduce_path o keys = Returned VUndefined.
Proof.
  induction keys as [|k keys IH]; intros o Ho Hk; [contradiction|].
  simpl. unfold opt_member. rewrite Ho.
  destruct keys as [|k' keys]; [reflexivity|].
  apply IH; [reflexivity|discriminate].
Qed.

(** The lookup returns when no key of the path names a throwing accessor. *)
Lemma reduce_path_returns keys : forall o,
  (forall c key, In key keys -> throws c key = false) ->
  exists v, reduce_path o keys = Returned v.
Proof.
  induction keys as [|k keys IH]; intros o Hk; simpl; [eauto|].
  destruct (nullish o) eqn:Ho.
  - rewrite opt_member_nullish by exact Ho. apply IH.
    intros c key Hin. apply Hk. now right.
  - rewrite opt_member_read by exact Ho.
    destruct (get_prop_returns o k) as [v ->]; [apply Hk; now left|].
    apply IH. intros c key Hin. apply Hk. now right.
Qed.

(** The lookup ends otherwise at the first read of an inherited accessor
    that throws. *)
Lemma reduce_path_outcome keys : forall o,
  (exists v, reduce_path o keys = Returned v) \/
  exists keys1 key keys2 obj,
    keys = keys1 ++ key :: keys2 /\
    reduce_path o keys1 = Returned obj /\
    nullish obj = false /\
    own_prop obj key = None /\
    throws (class_of obj) key = true /\
    reduce_path o keys = Thrown TypeError.
Proof.
  induction keys as [|k keys IH]; intros o; simpl; [eauto|].
  destruct (nullish o) eqn:Ho.
  - rewrite opt_member_nullish by exact Ho.
    destruct (IH VUndefined)
      as [Hv|(keys1 & key & keys2 & obj & -> & Hpre & Hn & Hown & Hthrows & Hr)];
      [now left|right].
    exists (k :: keys1), key, keys2, obj. simpl.
    rewrite opt_member_nullish by exact Ho. auto 7.
  - rewrite opt_member_read by exact Ho.
    destruct (get_prop o k) as [o'|e|] eqn:Hget.
    + destruct (IH o')
        as [Hv|(keys1 & key & keys2 & obj & -> & Hpre & Hn & Hown & Hthrows & Hr)];
        [now left|right].
      exists (k :: keys1), key, keys2, obj. simpl.
      rewrite opt_member_read, Hget by exact Ho. auto 7.
    + right. apply get_prop_thrown in Hget as (-> & Hown & Hthrows).
      exists [], k, keys, o. auto 7.
    + now apply get_prop_not_exhausted in Hget.
Qed.

(** C7 (as amended). [get(path)] guards every step of the lookup against
    undefined and null: as soon as the lookup of a proper prefix of the path
    (an intermediate key) finds nothing (undefined, or null), the whole
    lookup yields undefined.  It raises no error of its own: it returns
    unless a property read on the way throws, which only the read of an
    inherited accessor does, and then the error is that TypeError; on a path
    none of whose keys names such an accessor, it returns. *)
Theorem get_path_safe (s : sys) (name path : string) :
  (forall keys1 key keys2 v,
      split_dots path = keys1 ++ key :: keys2 ->
      keys2 <> [] ->
      reduce_path (stores_get s name) (keys1 ++ [key]) = Returned v ->
      nullish v = true ->
      get name (Some path) s = Returned VUndefined) /\
  ((exists v, get name (Some path) s = Returned v) \/
   exists keys1 key keys2 obj,
     split_dots path = keys1 ++ key :: keys2 /\
     reduce_path (stores_get s name) keys1 = Returned obj /\
     nullish obj = false /\
     own_prop obj key = None /\
     throws (class_of obj) key = true /\
     get name (Some path) s = Thrown TypeError) /\
  ((forall c key, In key (split_dots path) -> throws c key = false) ->
   exists v, get name (Some path) s = Returned v).
Proof.
  split; [|split].
  - intros keys1 key keys2 v Hsplit Hne Hpre Hv.
    unfold get. destruct (path =? "") eqn:E.
    + apply String.eqb_eq in E. subst path. cbn in Hsplit.
      destruct keys1 as [|? [|? ?]]; cbn in Hsplit; try discriminate.
      injection Hsplit as _ <-. contradiction.
    + unfold getNestedValue. rewrite Hsplit.
      replace (keys1 ++ key :: keys2) with ((keys1 ++ [key]) ++ keys2)
        by now rewrite <- app_assoc.
      rewrite (reduce_path_app _ _ _ _ Hpre).
      now apply reduce_path_nullish.
  - unfold get. destruct (path =? ""); [left; eauto|].
    unfold getNestedValue. apply reduce_path_outcome.
  - intros Hk. unfold get. destruct (path =? ""); [eauto|].
    unfold getNestedValue. now apply reduce_path_returns.
Qed.

(** *** Listener sets *)

Lemma existsb_eqb_In x l : existsb (String.eqb x) l = true <-> In x l.
Proof.
  rewrite existsb_exists. split.
  - intros (y & Hy & E). apply String.eqb_eq in E. now subst.
  - intros H. exists x. split; [assumption|apply String.eqb_refl].
Qed.

Lemma existsb_eqb_not_In x l : existsb (String.eqb x) l = false <-> ~ In x l.
Proof.
  rewrite <- existsb_eqb_In. destruct (existsb (String.eqb x) l); intuition congruence.
Qed.

Lemma set_delete_not_In x l : ~ In x (set_delete x l).
Proof.
  unfold set_delete. rewrite filter_In. intros [_ H].
  now rewrite String.eqb_refl in H.
Qed.

Lemma set_delete_absent x l : ~ In x l -> set_delete x l = l.
Proof.
  unfold set_delete. induction l as [|y l IH]; simpl; [reflexivity|].
  intros H. destruct (y =? x) eqn:E; simpl.
  - apply String.eqb_eq in E. subst. exfalso. apply H. now left.
  - f_equal. apply IH. intros H'. apply H. now right.
Qed.

Lemma set_delete_app x l1 l2 :
  set_delete x (l1 ++ l2) = set_delete x l1 ++ set_delete x l2.
Proof. apply filter_app. Qed.

Lemma set_delete_add x l : set_delete x (set_add x l) = set_delete x l.
Proof.
  unfold set_add. destruct (existsb (String.eqb x) l); [reflexivity|].
  rewrite set_delete_app. simpl. rewrite String.eqb_refl. simpl.
  apply app_nil_r.
Qed.

Lemma set_delete_idem x l : set_delete x (set_delete x l) = set_delete x l.
Proof. apply set_delete_absent, set_delete_not_In. Qed.

Lemma set_add_NoDup x l : NoDup l -> NoDup (set_add x l).
Proof.
  intros H. unfold set_add. destruct (existsb (String.eqb x) l) eqn:E; [assumption|].
  apply existsb_eqb_not_In in E.
  apply NoDup_app; [assumption|repeat constructor; intros []|].
  intros y Hy [<-|[]]. contradiction.
Qed.

Lemma set_delete_NoDup x l : NoDup l -> NoDup (set_delete x l).
Proof. apply NoDup_filter. Qed.

(** *** The notification loop *)

Lemma In_invocations name l nextState prevState n x a b :
  In (ENotify n x a b) (invocations name l nextState prevState) <->
  n = name /\ In x l /\ a = nextState /\ b = prevState.
Proof.
  unfold invocations. rewrite in_map_iff. split.
  - intros (y & [= <- <- <- <-] & Hy). auto.
  - intros (-> & Hx & -> & ->). eauto.
Qed.

Lemma invocations_app name l1 l2 a b :
  invocations name (l1 ++ l2) a b
  = invocations name l1 a b ++ invocations name l2 a b.
Proof. apply map_app. Qed.

(** When every listener returns, the loop calls them all and returns. *)
Lemma notifications_return name l a b :
  listeners_return l a b ->
  notifications name l a b = (invocations name l a b, Returned tt).
Proof.
  induction 1 as [|x l Hx _ IH]; simpl; [reflexivity|].
  destruct (call x [a; b]); [|contradiction]. now rewrite IH.
Qed.

(** The first listener that throws is the last one called. *)
Lemma notifications_throw name l1 x l2 a b :
  listeners_return l1 a b ->
  call x [a; b] = None ->
  notifications name (l1 ++ x :: l2) a b
  = (invocations name (l1 ++ [x]) a b, Thrown UserError).
Proof.
  intros Hl1 Hx. induction Hl1 as [|y l1 Hy _ IH]; simpl.
  - now rewrite Hx.
  - destruct (call y [a; b]); [|contradiction]. now rewrite IH.
Qed.

(** The loop calls the listeners of a prefix of the list, and it returns or
    throws the error of a listener. *)
Lemma notifications_outcome name l a b :
  (listeners_return l a b /\
   notifications name l a b = (invocations name l a b, Returned tt)) \/
  exists l1 x l2,
    l = l1 ++ x :: l2 /\ listeners_return l1 a b /\ call x [a; b] = None /\
    notifications name l a b = (invocations name (l1 ++ [x]) a b, Thrown UserError).
Proof.
  induction l as [|y l IH].
  - left. split; [constructor|reflexivity].
  - destruct (call y [a; b]) as [r|] eqn:Hy.
    + assert (call y [a; b] <> None) as Hy' by congruence.
      destruct IH as [[Hl _]|(l1 & x & l2 & -> & Hl1 & Hx & _)].
      * left. assert (listeners_return (y :: l) a b) as H by now constructor.
        split; [exact H|now apply notifications_return].
      * right. exists (y :: l1), x, l2.
        assert (listeners_return (y :: l1) a b) as H by now constructor.
        repeat split; auto.
        now apply (notifications_throw name (y :: l1) x l2).
    + right. exists [], y, l. repeat split; auto; [constructor|].
      now apply (notifications_throw name [] y l); [constructor|].
Qed.

Lemma notifications_returned name l a b tr u :
  notifications name l a b = (tr, Returned u) ->
  listeners_return l a b /\ tr = invocations name l a b.
Proof.
  destruct (notifications_outcome name l a b)
    as [[Hl ->]|(l1 & x & l2 & _ & _ & _ & ->)]; [|discriminate].
  now intros [= <-].
Qed.

Lemma In_notifications name l nextState prevState n x a b :
  In (ENotify n x a b) (fst (notifications name l nextState prevState)) ->
  n = name /\ In x l /\ a = nextState /\ b = prevState.
Proof.
  destruct (notifications_outcome name l nextState prevState)
    as [[_ ->]|(l1 & y & l2 & -> & _ & _ & ->)]; cbn [fst];
    rewrite In_invocations; [tauto|].
  intros (-> & Hx & -> & ->). repeat split; auto.
  apply in_app_or in Hx as [Hx|[<-|[]]]; apply in_or_app; [now left|].
  right. now left.
Qed.

Lemma notifications_all name l nextState prevState :
  Forall (fun e => exists x p, e = ENotify name x nextState p)
    (fst (notifications name l nextState prevState)).
Proof.
  destruct (notifications_outcome name l nextState prevState)
    as [[_ ->]|(l1 & y & l2 & _ & _ & _ & ->)]; cbn [fst];
    apply Forall_forall; intros e He;
    apply in_map_iff in He as (x & <- & _); eauto.
Qed.

(** C8 (as amended). For a store that exists ([listeners[name]] is a Set):
    [subscribe] returns a handle, and calling the handle raises no error and
    leaves exactly the earlier listeners other than [callback], so that
    [callback] is in none of the notifications of a later [set]; when
    [callback] was not subscribed before, this is the registry as it was
    before [subscribe]; a second call of the handle changes nothing and
    raises no error. *)
Theorem unsubscribe_after_subscribe (s : sys) (name : string) (callback : fn_id)
    (l : list fn_id) :
  lookup name (listeners s) = Some l ->
  exists h s1 s2 removed,
    subscribe name callback s = (s1, Returned h) /\
    unsubscribe h s1 = (s2, Returned removed) /\
    lookup name (listeners s2) = Some (set_delete callback l) /\
    (forall nextState prevState,
        ~ In (ENotify name callback nextState prevState)
             (fst (notifications name (set_delete callback l)
                     nextState prevState))) /\
    (~ In callback l -> s2 = s) /\
    unsubscribe h s2 = (s2, Returned false).
Proof.
  intros Hl.
  exists (name, callback), (with_listener_set s name (set_add callback l)),
    (with_listener_set s name (set_delete callback l)),
    (existsb (String.eqb callback) (set_add callback l)).
  unfold subscribe, unsubscribe, with_listener_set; simpl.
  rewrite Hl, !lookup_assign_same, !assign_assign, set_delete_add, set_delete_idem.
  repeat split.
  - intros nextState prevState H.
    apply In_notifications in H as (_ & Hx & _).
    now apply set_delete_not_In in Hx.
  - intros Hnot. rewrite set_delete_absent by assumption.
    rewrite assign_unchanged by assumption. apply sys_eta.
  - f_equal. f_equal. apply existsb_eqb_not_In, set_delete_not_In.
Qed.

(** *** createStore and derive on a name that is taken *)

Lemma stores_get_with_listeners s name name' l :
  stores_get (with_listeners s name l) name' = stores_get s name'.
Proof. reflexivity. Qed.

Lemma stores_get_with_derived s name name' d :
  stores_get (with_derived s name d) name' = stores_get s name'.
Proof. reflexivity. Qed.

Lemma createStore_fresh s name A :
  name <> "__proto__" ->
  truthy (stores_get s name) = false ->
  createStore name A s =
    (with_listeners (with_store s name (copy (or_empty A))) name [], Handle name)
  /\ stores_get (fst (createStore name A s)) name = copy (or_empty A).
Proof.
  intros Hname Hfresh. unfold createStore. rewrite Hfresh. split; [reflexivity|].
  simpl. rewrite stores_get_with_listeners.
  now apply stores_get_with_store_same.
Qed.

Lemma createStore_taken s name B :
  truthy (stores_get s name) = true ->
  createStore name B s = (s, Raw (stores_get s name)).
Proof. intros H. unfold createStore. now rewrite H. Qed.

Lemma createStore_twice_aux s name A :
  name <> "__proto__" ->
  truthy (stores_get s name) = false ->
  exists s1,
    createStore name A s = (s1, Handle name) /\
    stores_get s1 name = copy (or_empty A) /\
    (forall B, createStore name B s1 = (s1, Raw (copy (or_empty A)))).
Proof.
  intros Hname Hfresh.
  destruct (createStore_fresh s name A Hname Hfresh) as [Hc Hg].
  rewrite Hc in Hg. simpl in Hg.
  eexists. split; [exact Hc|]. split; [exact Hg|].
  intros B. rewrite createStore_taken; rewrite Hg; reflexivity.
Qed.

(** C1 (what the code does). On a name that is free, [createStore(name, A)]
    creates the store and returns its handle; [createStore(name, B)] then
    ignores [B], changes nothing and raises nothing, but what it returns is
    the stored snapshot [{...A}] itself and not the handle. *)
Theorem createStore_twice (s : sys) (name : string) (A B : value) :
  name <> "__proto__" ->
  truthy (stores_get s name) = false ->
  exists s1,
    createStore name A s = (s1, Handle name) /\
    stores_get s1 name = copy (or_empty A) /\
    createStore name B s1 = (s1, Raw (copy (or_empty A))).
Proof.
  intros Hname Hfresh.
  destruct (createStore_twice_aux s name A Hname Hfresh) as (s1 & Hc & Hg & Ht).
  exists s1. auto.
Qed.

Lemma truthy_not_nullish v : truthy v = true -> nullish v = false.
Proof. destruct v; simpl; auto; discriminate. Qed.

(** C5 (as amended). [createStore(name, A)] on a free name leaves
    [stores[name]] truthy.  In every state in which [stores[name]] is truthy,
    [derive(name, deps, f)] gets the raw snapshot from [createStore],
    registers the derived spec with it, and never returns a store handle:
    the initial recomputation throws [f]'s own error when [f] throws, a
    TypeError at [store.set] when the snapshot has no callable [set]
    property, and otherwise calls that property, after which [derive]
    returns the raw snapshot, or throws what that call throws. *)
Theorem derive_on_created_name (s : sys) (name : string) (dl : list string)
    (f : fn_id) (fuel : nat) :
  (forall A,
      name <> "__proto__" -> truthy (stores_get s name) = false ->
      truthy (stores_get (fst (createStore name A s)) name) = true) /\
  (truthy (stores_get s name) = true ->
   let raw := stores_get s name in
   let inputs := map (stores_get s) dl in
   exists o,
     derive fuel name dl f s
       = (with_derived s name (mk_dspec dl f (Raw raw)),
          [EUpdate name inputs], o) /\
     (forall n, o <> Returned (Handle n)) /\
     (call f inputs = None -> o = Thrown UserError) /\
     (call f inputs <> None ->
      (forall g, get_prop raw "set" <> Returned (VFun g)) ->
      o = Thrown TypeError) /\
     (forall newState g,
         call f inputs = Some newState ->
         get_prop raw "set" = Returned (VFun g) ->
         o = match call g [newState; VObj [("silent", VBool false)]] with
             | Some _ => Returned (Raw raw)
             | None => Thrown UserError
             end)).
Proof.
  split.
  - intros A Hname Hfree.
    destruct (createStore_fresh s name A Hname Hfree) as [_ ->]. reflexivity.
  - intros Htaken. cbv zeta.
    unfold derive. rewrite (createStore_taken _ _ _ Htaken).
    unfold update. cbn [deps computeFn store].
    replace (map (stores_get (with_derived s name _)) dl)
      with (map (stores_get s) dl) by reflexivity.
    destruct (call f (map (stores_get s) dl)) as [newState|] eqn:Hcall.
    + unfold store_set, member.
      rewrite (truthy_not_nullish _ Htaken).
      destruct (get_prop (stores_get s name) "set") as [m|e|] eqn:Hset.
      * destruct m as [| | | | | | |g]; simpl invoke; simpl discard;
          try (eexists; repeat split; try reflexivity; try discriminate;
               try congruence; intros ? ? ? [=]).
        destruct (call g [newState; VObj [("silent", VBool false)]])
          as [r|] eqn:Hg; simpl; eexists;
          (split; [reflexivity|]); repeat split; try discriminate;
          try congruence.
        all: intros ns g' [= E1] [= E2]; subst; now rewrite Hg.
      * apply get_prop_thrown in Hset as (-> & _).
        eexists. repeat split; try reflexivity; try discriminate; congruence.
      * now apply get_prop_not_exhausted in Hset.
    + eexists. repeat split; try reflexivity; try discriminate; congruence.
Qed.

(** *** What a set call leaves alone *)

Lemma same_registries_refl s : same_registries s s.
Proof. now split. Qed.

Lemma same_registries_trans s1 s2 s3 :
  same_registries s1 s2 -> same_registries s2 s3 -> same_registries s1 s3.
Proof. unfold same_registries. intros [-> ->] [-> ->]. now split. Qed.

Lemma for_each_keeps body keys :
  (forall key, keeps_registries (body key)) ->
  keeps_registries (for_each body keys).
Proof.
  intros Hbody. induction keys as [|key keys IH]; intros s s' tr o; simpl.
  - intros [= <- _ _]. apply same_registries_refl.
  - destruct (body key s) as [[s1 tr1] o1] eqn:E1.
    pose proof (Hbody key _ _ _ _ E1) as H1.
    destruct o1 as [[]| |].
    + destruct (for_each body keys s1) as [[s2 tr2] o2] eqn:E2.
      intros [= <- _ _]. eapply same_registries_trans; [exact H1|].
      eapply IH. exact E2.
    + now intros [= <- _ _].
    + now intros [= <- _ _].
Qed.

Lemma store_set_keeps f st newState :
  (forall n u sl, keeps_registries (f n u sl)) ->
  keeps_registries (store_set f st newState).
Proof.
  intros Hf s s' tr o. unfold store_set. destruct st as [n|raw].
  - destruct (f n newState false s) as [[s1 tr1] o1] eqn:E.
    intros [= <- _ _]. eapply Hf. exact E.
  - destruct (member raw "set") as [m| |]; intros [= <- _ _];
      apply same_registries_refl.
Qed.

Lemma update_keeps f key d :
  (forall n u sl, keeps_registries (f n u sl)) ->
  keeps_registries (update f key d).
Proof.
  intros Hf s s' tr o. unfold update.
  destruct (call (computeFn d) _) as [newState|].
  - destruct (store_set f (store d) newState s) as [[s1 tr1] o1] eqn:E.
    intros [= <- _ _]. eapply store_set_keeps; eassumption.
  - intros [= <- _ _]. apply same_registries_refl.
Qed.

Lemma recompute_keeps f name key :
  (forall n u sl, keeps_registries (f n u sl)) ->
  keeps_registries (recompute f name key).
Proof.
  intros Hf s s' tr o. unfold recompute.
  destruct (lookup key (derivedStates s)) as [d|].
  - destruct (existsb _ _).
    + now apply update_keeps.
    + intros [= <- _ _]. apply same_registries_refl.
  - intros [= <- _ _]. apply same_registries_refl.
Qed.

Lemma with_store_keeps s name v : same_registries s (with_store s name v).
Proof. now split. Qed.

(** *** The notification step *)

Lemma notify_all name silent nextState prevState s :
  Forall (fun e => exists x p, e = ENotify name x nextState p)
    (fst (notify name silent nextState prevState s)).
Proof.
  unfold notify. destruct silent; [constructor|].
  destruct (lookup name (listeners s)); [apply notifications_all|constructor].
Qed.


Lemma notify_not_exhausted name silent a b s ns :
  notify name silent a b s <> (ns, Exhausted).
Proof.
  unfold notify. destruct silent; [discriminate|].
  destruct (lookup name (listeners s)) as [l|]; [|discriminate].
  destruct (notifications_outcome name l a b)
    as [[_ ->]|(? & ? & ? & _ & _ & _ & ->)]; discriminate.
Qed.

Lemma notify_loud name a b s l :
  lookup name (listeners s) = Some l ->
  notify name false a b s = notifications name l a b.
Proof. intros H. unfold notify. now rewrite H. Qed.

(** *** The ways a set call ends *)

Lemma set_S fuel name updater silent s :
  set (S fuel) name updater silent s =
  let prevState := copy (stores_get s name) in
  match next_state prevState updater with
  | None => (s, [], Thrown UserError)
  | Some nextState =>
      let s1 := with_store s name nextState in
      match notify name silent nextState prevState s1 with
      | (ns, Returned _) =>
          let '(s2, tr, o) :=
            for_each (recompute (set fuel) name)
              (object_keys (derivedStates s1)) s1 in
          (s2, EWrite name nextState :: ns ++ tr ++ returning name nextState o,
           answer nextState o)
      | (ns, Thrown e) => (s1, EWrite name nextState :: ns, Thrown e)
      | (ns, Exhausted) => (s1, EWrite name nextState :: ns, Exhausted)
      end
  end.
Proof. reflexivity. Qed.

(** A [set] call ends before it has written anything (no call depth left,
    or the updater throws), or after the write with the error of the
    notification step, or with the scan of the derived specs. *)
Lemma set_cases fuel name updater silent s s' tr o :
  set fuel name updater silent s = (s', tr, o) ->
  (s' = s /\ tr = [] /\
   (fuel = 0 /\ o = Exhausted \/
    next_state (copy (stores_get s name)) updater = None /\
    o = Thrown UserError)) \/
  exists fuel' v ns,
    fuel = S fuel' /\
    next_state (copy (stores_get s name)) updater = Some v /\
    ((exists e,
        notify name silent v (copy (stores_get s name)) (with_store s name v)
          = (ns, Thrown e) /\
        s' = with_store s name v /\ tr = EWrite name v :: ns /\ o = Thrown e) \/
     (exists recs o',
        notify name silent v (copy (stores_get s name)) (with_store s name v)
          = (ns, Returned tt) /\
        for_each (recompute (set fuel') name) (object_keys (derivedStates s))
          (with_store s name v) = (s', recs, o') /\
        tr = EWrite name v :: ns ++ recs ++ returning name v o' /\
        o = answer v o')).
Proof.
  destruct fuel as [|fuel]; [intros [= <- <- <-]; left; auto|].
  rewrite set_S. cbv zeta.
  destruct (next_state _ updater) as [v|] eqn:Hnext;
    [|intros [= <- <- <-]; left; auto].
  intros H. right. exists fuel, v.
  destruct (notify _ _ _ _ _) as [ns [[]|e|]] eqn:Hn.
  - destruct (for_each _ _ _) as [[s2 tr2] o2] eqn:E.
    injection H as <- <- <-. exists ns. repeat split; auto.
    right. exists tr2, o2. auto.
  - injection H as <- <- <-. exists ns. repeat split; auto.
    left. exists e. auto.
  - now apply notify_not_exhausted in Hn.
Qed.

Lemma set_keeps fuel : forall name updater silent,
  keeps_registries (set fuel name updater silent).
Proof.
  induction fuel as [|fuel IH]; intros name updater silent s s' tr o E;
    destruct (set_cases _ _ _ _ _ _ _ _ E)
      as [(-> & _)|(fuel' & v & ns & Hf & Hnext &
                    [(e & Hn & -> & _)|(recs & o' & Hn & Hscan & _)])];
    try apply same_registries_refl; try discriminate;
    injection Hf as <-.
  - apply with_store_keeps.
  - eapply same_registries_trans; [apply with_store_keeps|].
    eapply for_each_keeps; [|exact Hscan].
    intros key. now apply recompute_keeps.
Qed.

(** *** Reachable states *)

Lemma proper_same s s' : same_registries s s' -> proper s -> proper s'.
Proof. intros [_ Hd] H. unfold proper. now rewrite Hd. Qed.

Lemma createStore_ref name initialState s :
  snd (createStore name initialState s) = Handle name \/
  exists o, snd (createStore name initialState s) = Raw o.
Proof. unfold createStore. destruct (truthy _); simpl; eauto. Qed.

Lemma createStore_derived name initialState s :
  derivedStates (fst (createStore name initialState s)) = derivedStates s.
Proof. unfold createStore. now destruct (truthy _). Qed.

Lemma reachable_proper s : reachable s -> proper s.
Proof.
  induction 1 as [|s name init _ IH|s fuel name dl f s' tr o _ IH E
                  |s fuel name updater silent l s' tr o _ IH _ E
                  |s name callback _ IH|s [name callback] _ IH].
  - intros key d n [=].
  - unfold proper. now rewrite createStore_derived.
  - unfold derive in E.
    destruct (createStore name VUndefined s) as [s1 st] eqn:Ec.
    destruct (update _ _ _ _) as [[s3 tr3] o3] eqn:Eu.
    injection E as <- _ _.
    eapply proper_same; [eapply update_keeps; [apply set_keeps|exact Eu]|].
    intros key d n. unfold with_derived; simpl.
    pose proof (createStore_derived name VUndefined s) as Hd.
    pose proof (createStore_ref name VUndefined s) as Hr.
    rewrite Ec in Hd, Hr. simpl in Hd, Hr. rewrite Hd.
    unfold reg_assign. destruct (name =? "__proto__"); [apply IH|].
    destruct (String.eqb_spec name key) as [->|Hne].
    + rewrite lookup_assign_same. intros [= <-]. simpl.
      destruct Hr as [->|[o' ->]]; [now intros [= <-]|discriminate].
    + rewrite lookup_assign_other by assumption. apply IH.
  - eapply proper_same; [eapply set_keeps; exact E|exact IH].
  - unfold subscribe. destruct (lookup name (listeners s)); exact IH.
  - unfold unsubscribe. destruct (lookup name (listeners s)); exact IH.
Qed.

Lemma listeners_wf_same s s' : same_registries s s' -> listeners_wf s -> listeners_wf s'.
Proof. intros [Hl _] H. unfold listeners_wf. now rewrite Hl. Qed.

Lemma listeners_wf_assign s name l :
  listeners_wf s -> NoDup l -> listeners_wf (with_listener_set s name l).
Proof.
  intros Hs Hl n l'. unfold with_listener_set; simpl.
  destruct (String.eqb_spec name n) as [->|Hne].
  - rewrite lookup_assign_same. now intros [= <-].
  - rewrite lookup_assign_other by assumption. apply Hs.
Qed.

Lemma createStore_listeners_wf name initialState s :
  listeners_wf s -> listeners_wf (fst (createStore name initialState s)).
Proof.
  intros Hs. unfold createStore. destruct (truthy _); [exact Hs|].
  intros n l. simpl. unfold reg_assign. destruct (name =? "__proto__"); [apply Hs|].
  destruct (String.eqb_spec name n) as [->|Hne].
  - rewrite lookup_assign_same. intros [= <-]. constructor.
  - rewrite lookup_assign_other by assumption. apply Hs.
Qed.

Lemma reachable_listeners_wf s : reachable s -> listeners_wf s.
Proof.
  induction 1 as [|s name init _ IH|s fuel name dl f s' tr o _ IH E
                  |s fuel name updater silent l s' tr o _ IH _ E
                  |s name callback _ IH|s [name callback] _ IH].
  - intros n l [=].
  - now apply createStore_listeners_wf.
  - unfold derive in E.
    destruct (createStore name VUndefined s) as [s1 st] eqn:Ec.
    destruct (update _ _ _ _) as [[s3 tr3] o3] eqn:Eu.
    injection E as <- _ _.
    eapply listeners_wf_same; [eapply update_keeps; [apply set_keeps|exact Eu]|].
    pose proof (createStore_listeners_wf name VUndefined s IH) as H.
    rewrite Ec in H. exact H.
  - eapply listeners_wf_same; [eapply set_keeps; exact E|exact IH].
  - unfold subscribe. destruct (lookup name (listeners s)) as [l|] eqn:El;
      [|exact IH].
    apply listeners_wf_assign; [exact IH|]. apply set_add_NoDup. eapply IH, El.
  - unfold unsubscribe. destruct (lookup name (listeners s)) as [l|] eqn:El;
      [|exact IH].
    apply listeners_wf_assign; [exact IH|]. apply set_delete_NoDup. eapply IH, El.
Qed.

(** *** The shape of a completed set call *)

Lemma discard_returned {A : Type} (o : outcome A) u :
  discard o = Returned u -> exists v, o = Returned v.
Proof. destruct o; simpl; try discriminate. eauto. Qed.

Lemma depends_on_same ds name key d :
  lookup key ds = Some d ->
  depends_on ds name key = existsb (String.eqb name) (deps d).
Proof. intros H. unfold depends_on. now rewrite H. Qed.





(** *** Object.keys *)

Lemma In_insert_index k l x : In x (insert_index k l) <-> x = k \/ In x l.
Proof.
  induction l as [|k' l IH]; simpl; [intuition|].
  destruct (fst k <=? fst k')%N; simpl; [intuition|].
  rewrite IH. intuition.
Qed.

Lemma In_index_keys {A : Type} (o : list (string * A)) i k :
  In (i, k) (index_keys o) <-> array_index k = Some i /\ In k (map fst o).
Proof.
  induction o as [|[k' v] o IH]; simpl; [intuition|].
  destruct (array_index k') as [i'|] eqn:E.
  - rewrite In_insert_index, IH. split.
    + intros [[= -> ->]|[H1 H2]]; auto.
    + intros [H1 [->|H2]]; [left; congruence|auto].
  - rewrite IH. split; [intuition|].
    intros [H1 [->|H2]]; [congruence|auto].
Qed.

Lemma In_named_keys {A : Type} (o : list (string * A)) k :
  In k (named_keys o) <-> array_index k = None /\ In k (map fst o).
Proof.
  induction o as [|[k' v] o IH]; simpl; [intuition|].
  destruct (array_index k') as [i'|] eqn:E; simpl; rewrite IH.
  - split; [intuition|]. intros [H1 [->|H2]]; [congruence|auto].
  - split; [intros [->|[H1 H2]]; auto|]. intros [H1 [->|H2]]; auto.
Qed.

Lemma In_object_keys {A : Type} (o : list (string * A)) k :
  In k (object_keys o) <-> In k (map fst o).
Proof.
  unfold object_keys. rewrite in_app_iff, In_named_keys, in_map_iff. split.
  - intros [([i k'] & <- & H)|[_ H]]; [|exact H].
    now apply In_index_keys in H.
  - intros H. destruct (array_index k) as [i|] eqn:E; [left|now right].
    exists (i, k). split; [reflexivity|]. now apply In_index_keys.
Qed.

Lemma lookup_In_keys {A : Type} (o : list (string * A)) k :
  In k (map fst o) <-> exists v, lookup k o = Some v.
Proof.
  induction o as [|[k' v] o IH]; simpl.
  - split; [intros []|intros [v [=]]].
  - destruct (k' =? k) eqn:E.
    + apply String.eqb_eq in E. split; eauto.
    + rewrite <- IH. apply String.eqb_neq in E. intuition.
Qed.

Lemma object_keys_lookup {A : Type} (o : list (string * A)) k :
  In k (object_keys o) <-> exists v, lookup k o = Some v.
Proof. now rewrite In_object_keys, lookup_In_keys. Qed.

(** *** When set returns *)

Lemma next_state_data prevState v :
  is_function v = false -> next_state prevState v = Some (merge prevState v).
Proof. destruct v; simpl; try reflexivity; discriminate. Qed.

Lemma acyclic_same s s' height :
  same_registries s s' -> acyclic s height -> acyclic s' height.
Proof. intros [_ Hd] H. unfold acyclic. now rewrite Hd. Qed.

Lemma recomputable_same s s' :
  same_registries s s' -> recomputable s -> recomputable s'.
Proof. intros [Hl Hd] H. unfold recomputable. now rewrite Hd, Hl. Qed.

Lemma quiet_same s s' : same_registries s s' -> quiet s -> quiet s'.
Proof. intros [Hl _] H. unfold quiet. now rewrite Hl. Qed.

Lemma quiet_listeners_return s n l a b :
  quiet s -> lookup n (listeners s) = Some l -> listeners_return l a b.
Proof.
  intros Hq Hl. apply Forall_forall. intros x Hx. eapply Hq; eassumption.
Qed.

Lemma for_each_returns height bound f name keys : forall s,
  returns_below height bound f ->
  (forall n u sl, keeps_registries (f n u sl)) ->
  acyclic s height -> recomputable s -> quiet s ->
  height name <= bound ->
  (forall key, In key keys -> exists d, lookup key (derivedStates s) = Some d) ->
  exists s' tr, for_each (recompute f name) keys s = (s', tr, Returned tt).
Proof.
  induction keys as [|key keys IH]; intros s Hf Hk Hacyc Hrec Hq Hb Hkeys; simpl;
    [eauto|].
  destruct (Hkeys key (or_introl eq_refl)) as [d Hd].
  assert (exists s1 tr1,
    recompute f name key s = (s1, tr1, Returned tt) /\ same_registries s s1)
    as (s1 & tr1 & E1 & Hsame).
  { unfold recompute. rewrite Hd.
    destruct (existsb (String.eqb name) (deps d)) eqn:Edep;
      [|eexists _, _; split; [reflexivity|apply same_registries_refl]].
    apply existsb_eqb_In in Edep.
    destruct (Hrec key d Hd) as (Hst & Hl & Hcall).
    unfold update. destruct (Hcall (map (stores_get s) (deps d))) as (v & -> & Hv).
    rewrite Hst. unfold store_set.
    destruct (Hf key v false s (merge (copy (stores_get s key)) v))
      as (s1 & tr1 & E); auto.
    - now apply next_state_data.
    - pose proof (Hacyc key d name Hd Edep). lia.
    - rewrite E. simpl. eexists _, _. split; [reflexivity|].
      eapply Hk. exact E. }
  rewrite E1.
  destruct (IH s1) as (s2 & tr2 & E2); auto.
  - eapply acyclic_same; eassumption.
  - eapply recomputable_same; eassumption.
  - eapply quiet_same; eassumption.
  - intros k Hin. destruct Hsame as [_ ->]. apply Hkeys. now right.
  - rewrite E2. eauto.
Qed.

Lemma set_returns height fuel : returns_below height fuel (set fuel).
Proof.
  induction fuel as [|fuel IH];
    intros name updater silent s nextState Hacyc Hrec Hq Hnext [l Hl] Hh; [lia|].
  rewrite set_S. cbv zeta. rewrite Hnext.
  assert (exists ns, notify name silent nextState (copy (stores_get s name))
                       (with_store s name nextState) = (ns, Returned tt))
    as [ns ->].
  { unfold notify. destruct silent; [eauto|]. simpl. rewrite Hl.
    rewrite notifications_return; [eauto|].
    eapply quiet_listeners_return; eassumption. }
  destruct (for_each_returns height fuel (set fuel) name
              (object_keys (derivedStates (with_store s name nextState)))
              (with_store s name nextState)) as (s2 & tr2 & ->); auto.
  - apply set_keeps.
  - lia.
  - intros key Hin. now apply object_keys_lookup in Hin.
  - simpl. eauto.
Qed.

(** In a state whose dependencies have no cycle, whose derived specs can be
    recomputed and whose listeners do not throw, a [set] call on an existing
    store whose updater returns completes within a call depth of the height
    of the store, and returns [nextState]. *)
Theorem set_terminates (s : sys) (height : string -> nat) (name : string)
    (updater : value) (silent : bool) (nextState : value) (l : list fn_id)
    (fuel : nat) :
  acyclic s height ->
  recomputable s ->
  quiet s ->
  next_state (copy (stores_get s name)) updater = Some nextState ->
  lookup name (listeners s) = Some l ->
  height name < fuel ->
  exists s' tr, set fuel name updater silent s = (s', tr, Returned nextState).
Proof.
  intros Hacyc Hrec Hq Hnext Hl Hh. eapply set_returns; eauto.
Qed.

(** *** A set call that returns does not come back to its own store *)

Lemma written_app a b : written (a ++ b) = written a ++ written b.
Proof. apply flat_map_app. Qed.

Lemma written_write n v tr : written (EWrite n v :: tr) = n :: written tr.
Proof. reflexivity. Qed.

Lemma written_invocations name l a b : written (invocations name l a b) = [].
Proof. induction l; simpl; auto. Qed.

Lemma written_notify name silent a b s :
  written (fst (notify name silent a b s)) = [].
Proof.
  pose proof (notify_all name silent a b s) as H.
  induction H as [|e ns (x & p & ->) _ IH]; simpl; auto.
Qed.

Lemma for_each_walks d visit f name keys : forall s s' tr u,
  walks d visit f ->
  (forall n u sl, keeps_registries (f n u sl)) ->
  derivedStates s = d ->
  for_each (recompute f name) keys s = (s', tr, Returned u) ->
  walk_keys visit d name keys = Some (written tr).
Proof.
  induction keys as [|key keys IH]; intros s s' tr u Hf Hk Hd; simpl.
  - now intros [= _ <- _].
  - destruct (recompute f name key s) as [[s1 tr1] o1] eqn:E1.
    destruct o1 as [u1| |]; try discriminate.
    destruct (for_each _ keys s1) as [[s2 tr2] o2] eqn:E2.
    intros [= <- <- ->].
    assert (derivedStates s1 = d) as Hd1.
    { rewrite <- Hd. eapply recompute_keeps; eassumption. }
    rewrite (IH _ _ _ _ Hf Hk Hd1 E2), written_app.
    unfold recompute in E1. rewrite Hd in E1.
    destruct (lookup key d) as [spec|]; [|discriminate].
    destruct (existsb _ _); [|injection E1 as _ <- _; reflexivity].
    unfold update in E1. destruct (call _ _) as [newState|]; [|discriminate].
    destruct (store_set f (store spec) newState s) as [[s3 tr3] o3] eqn:E3.
    injection E1 as <- <- ->. unfold store_set in E3.
    destruct (store spec) as [n|raw].
    + destruct (f n newState false s) as [[s4 tr4] o4] eqn:E4.
      injection E3 as <- <- E3. apply discard_returned in E3 as [v ->].
      now rewrite (Hf _ _ _ _ _ _ _ Hd E4).
    + destruct (member raw "set"); injection E3 as _ <- _; reflexivity.
Qed.

Lemma set_walks fuel d : walks d (walk fuel d) (set fuel).
Proof.
  induction fuel as [|fuel IH]; intros name updater silent s s' tr v Hd E;
    destruct (set_cases _ _ _ _ _ _ _ _ E)
      as [(_ & _ & [[_ [=]]|[_ [=]]])
         |(fuel' & w & ns & Hf & Hnext &
           [(e & _ & _ & _ & [=])|(recs & o' & Hn & Hscan & -> & Ho)])];
    try discriminate.
  injection Hf as <-. destruct o' as [[]| |]; try discriminate.
  pose proof (written_notify name silent w (copy (stores_get s name))
                (with_store s name w)) as Hns.
  rewrite Hn in Hns. cbn [fst] in Hns.
  cbn [written flat_map]. fold (written (ns ++ recs ++ returning name w (Returned tt))).
  rewrite !written_app, Hns. simpl. rewrite app_nil_r.
  rewrite Hd in Hscan.
  erewrite for_each_walks; [reflexivity|exact IH|apply set_keeps| |exact Hscan].
  exact Hd.
Qed.

Lemma walk_keys_mono (v1 v2 : string -> option (list string)) d name keys w :
  (forall n w, v1 n = Some w -> v2 n = Some w) ->
  walk_keys v1 d name keys = Some w -> walk_keys v2 d name keys = Some w.
Proof.
  intros Hv. revert w. induction keys as [|key keys IH]; intros w; simpl; auto.
  destruct (lookup key d) as [spec|]; [|discriminate].
  destruct (walk_keys v1 d name keys) as [b|].
  - rewrite (IH b eq_refl).
    destruct (existsb _ _); auto. destruct (store spec) as [n|raw]; auto.
    destruct (v1 n) as [a|] eqn:E; [|discriminate].
    now rewrite (Hv _ _ E).
  - destruct (if existsb _ _ then _ else _); discriminate.
Qed.

Lemma walk_S fuel d : forall name w,
  walk fuel d name = Some w -> walk (S fuel) d name = Some w.
Proof.
  induction fuel as [|fuel IH]; intros name w; [discriminate|].
  intros H. change (walk (S fuel) d name) with
    (match walk_keys (walk fuel d) d name (object_keys d) with
     | Some w => Some (name :: w) | None => None end) in H.
  change (walk (S (S fuel)) d name) with
    (match walk_keys (walk (S fuel) d) d name (object_keys d) with
     | Some w => Some (name :: w) | None => None end).
  destruct (walk_keys (walk fuel d) d name (object_keys d)) as [w'|] eqn:E;
    [|discriminate].
  now rewrite (walk_keys_mono _ _ _ _ _ _ IH E).
Qed.

Lemma walk_le fuel fuel' d name w :
  fuel <= fuel' -> walk fuel d name = Some w -> walk fuel' d name = Some w.
Proof.
  induction 1 as [|fuel' _ IH]; auto. intros H. now apply walk_S, IH.
Qed.

(** Every store in a walk is the start of a walk of its own, no longer than
    what follows it. *)
Lemma walk_keys_sub visit d name keys : forall w m,
  walk_keys visit d name keys = Some w -> In m w ->
  exists k wk, visit k = Some wk /\ In m wk /\ length wk <= length w.
Proof.
  induction keys as [|key keys IH]; intros w m; simpl.
  - intros [= <-] [].
  - destruct (lookup key d) as [spec|]; [|discriminate].
    destruct (if existsb _ _ then _ else _) as [a|] eqn:Ea; [|discriminate].
    destruct (walk_keys visit d name keys) as [b|]; [|discriminate].
    intros [= <-] Hin. rewrite length_app. apply in_app_or in Hin as [Hin|Hin].
    + destruct (existsb _ _); [|injection Ea as <-; destruct Hin].
      destruct (store spec) as [n|raw]; [|injection Ea as <-; destruct Hin].
      exists n, a. repeat split; auto. lia.
    + destruct (IH b m eq_refl Hin) as (k & wk & ? & ? & ?).
      exists k, wk. repeat split; auto. lia.
Qed.

Lemma walk_sub fuel d : forall name w m,
  walk fuel d name = Some w -> In m w ->
  exists fuel' w', fuel' <= fuel /\ walk fuel' d m = Some w' /\
    length w' <= length w /\ (w' = w \/ length w' < length w).
Proof.
  induction fuel as [|fuel IH]; intros name w m; [discriminate|].
  simpl. destruct (walk_keys _ _ _ _) as [t|] eqn:E; [|discriminate].
  intros [= <-] [<-|Hin].
  - exists (S fuel), (name :: t). simpl. rewrite E. repeat split; auto.
  - destruct (walk_keys_sub _ _ _ _ _ _ E Hin) as (k & wk & Hk & Hm & Hlen).
    destruct (IH _ _ _ Hk Hm) as (fuel' & w' & ? & ? & ? & ?).
    exists fuel', w'. simpl. repeat split; auto; lia.
Qed.

Lemma walk_no_reentry fuel d name t :
  walk fuel d name = Some (name :: t) -> ~ In name t.
Proof.
  intros H Hin.
  destruct fuel as [|fuel]; [discriminate|].
  simpl in H. destruct (walk_keys _ _ _ _) as [t'|] eqn:E; [|discriminate].
  injection H as <-.
  destruct (walk_keys_sub _ _ _ _ _ _ E Hin) as (k & wk & Hk & Hm & Hlen).
  destruct (walk_sub _ _ _ _ _ Hk Hm) as (fuel' & w' & Hle & Hw & Hlen' & _).
  assert (walk (S fuel) d name = Some w') as H' by (eapply walk_le; [|exact Hw]; lia).
  simpl in H'. rewrite E in H'. injection H' as <-. simpl in Hlen'. lia.
Qed.

(** *** Notifications *)

(** A property of traces that holds of every trace of [set] as soon as it is
    closed under the ways a trace is put together. *)
Section TraceInduction.

Variable P : list event -> Prop.
Hypothesis P_nil : P [].
Hypothesis P_app : forall a b, P a -> P b -> P (a ++ b).
Hypothesis P_update : forall key inputs tr, P tr -> P (EUpdate key inputs :: tr).
Hypothesis P_set : forall name nextState ns tr o,
  Forall (fun e => exists x p, e = ENotify name x nextState p) ns ->
  P tr -> P (EWrite name nextState :: ns ++ tr ++ returning name nextState o).

Lemma for_each_traces body keys :
  (forall key, traces P (body key)) -> traces P (for_each body keys).
Proof.
  intros Hbody. induction keys as [|key keys IH]; intros s s' tr o; simpl.
  - now intros [= _ <- _].
  - destruct (body key s) as [[s1 tr1] o1] eqn:E1.
    pose proof (Hbody key _ _ _ _ E1) as H1.
    destruct o1 as [[]| |]; try (now intros [= _ <- _]).
    destruct (for_each body keys s1) as [[s2 tr2] o2] eqn:E2.
    intros [= _ <- _]. apply P_app; [exact H1|]. eapply IH. exact E2.
Qed.

Lemma recompute_traces f name key :
  (forall n u sl, traces P (f n u sl)) -> traces P (recompute f name key).
Proof.
  intros Hf s s' tr o. unfold recompute.
  destruct (lookup key (derivedStates s)) as [d|]; [|now intros [= _ <- _]].
  destruct (existsb _ _); [|now intros [= _ <- _]].
  unfold update. destruct (call _ _) as [newState|];
    [|intros [= _ <- _]; now apply P_update].
  destruct (store_set f (store d) newState s) as [[s1 tr1] o1] eqn:E.
  intros [= _ <- _]. apply P_update.
  unfold store_set in E. destruct (store d) as [n|raw].
  - destruct (f n newState false s) as [[s2 tr2] o2] eqn:E2.
    injection E as _ <- _. eapply Hf. exact E2.
  - destruct (member raw "set"); now injection E as _ <- _.
Qed.

Lemma set_traces fuel : forall name updater silent,
  traces P (set fuel name updater silent).
Proof.
  induction fuel as [|fuel IH]; intros name updater silent s s' tr o E;
    destruct (set_cases _ _ _ _ _ _ _ _ E)
      as [(_ & -> & _)
         |(fuel' & w & ns & Hf & Hnext &
           [(e & Hn & _ & -> & _)|(recs & o' & Hn & Hscan & -> & _)])];
    try exact P_nil; try discriminate; injection Hf as <-;
    pose proof (notify_all name silent w (copy (stores_get s name))
                  (with_store s name w)) as Hns;
    rewrite Hn in Hns; cbn [fst] in Hns.
  - replace ns with (ns ++ [] ++ returning name w (Thrown e))
      by (simpl; apply app_nil_r).
    now apply P_set.
  - apply P_set; [exact Hns|].
    eapply for_each_traces; [|exact Hscan].
    intros key. now apply recompute_traces.
Qed.

Lemma scan_traces fuel name keys :
  traces P (for_each (recompute (set fuel) name) keys).
Proof.
  apply for_each_traces. intros key. apply recompute_traces, set_traces.
Qed.

End TraceInduction.

Lemma In_returning e name nextState o :
  In e (returning name nextState o) -> e = EReturn name nextState.
Proof. destruct o; simpl; intuition. Qed.

Lemma notifies_within_set_closed :
  notifies_within_set [] /\
  (forall a b, notifies_within_set a -> notifies_within_set b ->
               notifies_within_set (a ++ b)) /\
  (forall key inputs tr, notifies_within_set tr ->
                         notifies_within_set (EUpdate key inputs :: tr)) /\
  (forall name nextState ns tr o,
      Forall (fun e => exists x p, e = ENotify name x nextState p) ns ->
      notifies_within_set tr ->
      notifies_within_set
        (EWrite name nextState :: ns ++ tr ++ returning name nextState o)).
Proof.
  unfold notifies_within_set. repeat split.
  - intros n x a b [].
  - intros a b Ha Hb n x a' b' Hin. rewrite written_app.
    apply in_or_app. apply in_app_or in Hin as [Hin|Hin]; eauto.
  - intros key inputs tr Htr n x a b [[=]|Hin]. simpl. eauto.
  - intros name nextState ns tr o Hns Htr n x a b [[=]|Hin]. simpl.
    apply in_app_or in Hin as [Hin|Hin].
    + rewrite Forall_forall in Hns. destruct (Hns _ Hin) as (? & ? & [= -> _ _ _]).
      now left.
    + right. rewrite !written_app. apply in_or_app. right. apply in_or_app.
      apply in_app_or in Hin as [Hin|Hin]; [left; eauto|].
      apply In_returning in Hin. discriminate.
Qed.

Lemma scan_notifies_within_set fuel name keys s s' tr o :
  for_each (recompute (set fuel) name) keys s = (s', tr, o) ->
  notifies_within_set tr.
Proof.
  destruct notifies_within_set_closed as (H1 & H2 & H3 & H4).
  now apply (scan_traces notifies_within_set H1 H2 H3 H4).
Qed.

(** The anatomy of a [set] call that returns. *)
Lemma set_returned fuel name updater silent s s' tr v :
  set fuel name updater silent s = (s', tr, Returned v) ->
  exists fuel' ns recs,
    fuel = S fuel' /\
    next_state (copy (stores_get s name)) updater = Some v /\
    notify name silent v (copy (stores_get s name)) (with_store s name v)
      = (ns, Returned tt) /\
    for_each (recompute (set fuel') name) (object_keys (derivedStates s))
      (with_store s name v) = (s', recs, Returned tt) /\
    tr = EWrite name v :: ns ++ recs ++ [EReturn name v] /\
    ~ In name (written recs) /\
    (forall x a b, ~ In (ENotify name x a b) recs).
Proof.
  intros H. pose proof (set_walks fuel _ _ _ _ _ _ _ _ eq_refl H) as Hw.
  destruct (set_cases _ _ _ _ _ _ _ _ H)
    as [(_ & _ & [[_ [=]]|[_ [=]]])
       |(fuel' & w & ns & -> & Hnext &
         [(e & _ & _ & _ & [=])|(recs & o' & Hn & Hscan & -> & Ho)])].
  destruct o' as [[]| |]; try discriminate. injection Ho as <-.
  assert (written (EWrite name v :: ns ++ recs
                     ++ returning name v (Returned tt))
          = name :: written recs) as Ew.
  { pose proof (written_notify name silent v (copy (stores_get s name))
                (with_store s name v)) as Hns.
    rewrite Hn in Hns. cbn [fst] in Hns.
    cbn [written flat_map].
    fold (written (ns ++ recs ++ returning name v (Returned tt))).
    rewrite !written_app, Hns. simpl. now rewrite app_nil_r. }
  rewrite Ew in Hw. apply walk_no_reentry in Hw.
  exists fuel', ns, recs. repeat split; auto.
  intros x a b Hin. apply Hw.
  eapply scan_notifies_within_set; eassumption.
Qed.

Lemma invocations_NoDup name l nextState prevState :
  NoDup l -> NoDup (invocations name l nextState prevState).
Proof.
  unfold invocations. induction 1 as [|x l Hx _ IH]; simpl; constructor; auto.
  rewrite in_map_iff. intros (y & [= ->] & Hy). contradiction.
Qed.

(** Every dependent is recomputed by a scan that completes. *)
Lemma scan_updates f name keys : forall s s' tr u,
  (forall n u sl, keeps_registries (f n u sl)) ->
  for_each (recompute f name) keys s = (s', tr, Returned u) ->
  forall key d,
    In key keys -> lookup key (derivedStates s) = Some d -> In name (deps d) ->
    exists inputs, In (EUpdate key inputs) tr.
Proof.
  induction keys as [|k keys IH]; intros s s' tr u Hf; simpl; [intros _ ? ? []|].
  destruct (recompute f name k s) as [[s1 tr1] o1] eqn:E1.
  destruct o1 as [u1| |]; try discriminate.
  destruct (for_each _ keys s1) as [[s2 tr2] o2] eqn:E2.
  intros [= <- <- ->] key d [->|Hin] Hd Hdep.
  - unfold recompute in E1. rewrite Hd in E1.
    apply existsb_eqb_In in Hdep. rewrite Hdep in E1.
    unfold update in E1. destruct (call _ _); [|discriminate].
    destruct (store_set _ _ _ _) as [[s3 tr3] o3].
    injection E1 as _ <- _. eexists. now left.
  - assert (derivedStates s1 = derivedStates s) as Hsame
        by (eapply recompute_keeps; eassumption).
    rewrite <- Hsame in Hd.
    destruct (IH _ _ _ _ Hf E2 key d Hin Hd Hdep) as [inputs Hi].
    exists inputs. apply in_or_app. now right.
Qed.

(** *** The scan of the derived specs *)

Lemma for_each_app (body : string -> sys -> result unit) keys1 :
  forall keys2 s s1 tr1,
    for_each body keys1 s = (s1, tr1, Returned tt) ->
    for_each body (keys1 ++ keys2) s
    = let '(s2, tr2, o) := for_each body keys2 s1 in (s2, tr1 ++ tr2, o).
Proof.
  induction keys1 as [|key keys1 IH]; intros keys2 s s1 tr1; simpl.
  - intros [= <- <-]. now destruct (for_each body keys2 s) as [[? ?] ?].
  - destruct (body key s) as [[s0 tr0] [[]| |]]; try discriminate.
    destruct (for_each body keys1 s0) as [[s2 tr2] o2] eqn:E.
    intros [= <- <- ->]. rewrite (IH keys2 _ _ _ E).
    destruct (for_each body keys2 s2) as [[? ?] ?].
    now rewrite app_assoc.
Qed.

(** A step of the loop that does not return ends the loop: the keys after
    it are not visited. *)
Lemma for_each_stops (body : string -> sys -> result unit) done key later
    s s2 tr2 s3 tr3 o :
  for_each body done s = (s2, tr2, Returned tt) ->
  body key s2 = (s3, tr3, o) ->
  (forall u, o <> Returned u) ->
  for_each body (done ++ key :: later) s = (s3, tr2 ++ tr3, o).
Proof.
  intros Hdone Hkey Ho. rewrite (for_each_app _ _ _ _ _ _ Hdone).
  simpl. rewrite Hkey. destruct o as [u| |]; [now destruct (Ho u)| |];
    reflexivity.
Qed.

(** The scan of lines 37-41 is the update of the dependents, in order. *)
Lemma scan_dependents f name keys : forall s,
  (forall n u sl, keeps_registries (f n u sl)) ->
  (forall key, In key keys -> exists d, lookup key (derivedStates s) = Some d) ->
  for_each (recompute f name) keys s
  = for_each (recompute f name)
      (filter (depends_on (derivedStates s) name) keys) s.
Proof.
  induction keys as [|key keys IH]; intros s Hk Hkeys; [reflexivity|].
  destruct (Hkeys key (or_introl eq_refl)) as [d Hd].
  cbn [filter]. rewrite (depends_on_same _ _ _ _ Hd).
  destruct (existsb (String.eqb name) (deps d)) eqn:Edep.
  - cbn [for_each].
    destruct (recompute f name key s) as [[s1 tr1] [[]| |]] eqn:E1; auto.
    destruct (recompute_keeps _ _ _ Hk _ _ _ _ E1) as [_ Hd1].
    rewrite IH; [now rewrite Hd1|exact Hk|].
    intros k Hin. rewrite Hd1. apply Hkeys. now right.
  - cbn [for_each]. unfold recompute at 1. rewrite Hd, Edep.
    rewrite IH; [|exact Hk|intros k Hin; apply Hkeys; now right].
    now destruct (for_each _ _ s) as [[? ?] ?].
Qed.

Lemma set_scan_dependents fuel name s v :
  for_each (recompute (set fuel) name) (object_keys (derivedStates s))
    (with_store s name v)
  = for_each (recompute (set fuel) name) (dependents (derivedStates s) name)
      (with_store s name v).
Proof.
  apply (scan_dependents (set fuel) name (object_keys (derivedStates s))
           (with_store s name v) (set_keeps fuel)).
  intros key Hin. now apply object_keys_lookup in Hin.
Qed.

(** C3 (as amended). A [set] call with [{silent: true}] whose updater
    returns is the write followed by the update of the derived specs whose
    [deps] contain the store's name, in the order of [Object.keys]: the
    notification step adds nothing.  When the call returns, no listener of
    the store has been invoked anywhere in it and every such spec has been
    recomputed.  When the update of one of them throws, the call throws that
    error and the specs after it are not visited.  The call without [silent]
    differs by the notification step alone: when the listeners of the store
    all return it has their invocations after the write and is otherwise the
    same; when one of them throws, it throws before any recomputation. *)
Theorem silent_set_skips_listeners (fuel : nat) (s : sys) (name : string)
    (updater : value) (v : value) :
  next_state (copy (stores_get s name)) updater = Some v ->
  let prevState := copy (stores_get s name) in
  let s1 := with_store s name v in
  let scan :=
    for_each (recompute (set fuel) name) (dependents (derivedStates s) name) s1 in
  set (S fuel) name updater true s
    = (fst (fst scan),
       EWrite name v :: snd (fst scan) ++ returning name v (snd scan),
       answer v (snd scan)) /\
  (forall s' tr v',
      set (S fuel) name updater true s = (s', tr, Returned v') ->
      v' = v /\
      (forall x a b, ~ In (ENotify name x a b) tr) /\
      (forall key d,
          lookup key (derivedStates s) = Some d -> In name (deps d) ->
          exists inputs, In (EUpdate key inputs) tr)) /\
  (forall done key later s2 tr2 s3 tr3 e,
      dependents (derivedStates s) name = done ++ key :: later ->
      for_each (recompute (set fuel) name) done s1 = (s2, tr2, Returned tt) ->
      recompute (set fuel) name key s2 = (s3, tr3, Thrown e) ->
      set (S fuel) name updater true s
      = (s3, EWrite name v :: tr2 ++ tr3, Thrown e)) /\
  (forall l,
      lookup name (listeners s) = Some l ->
      (listeners_return l v prevState ->
       set (S fuel) name updater false s
       = (fst (fst scan),
          EWrite name v :: invocations name l v prevState
            ++ snd (fst scan) ++ returning name v (snd scan),
          answer v (snd scan))) /\
      (~ listeners_return l v prevState ->
       exists ns,
         set (S fuel) name updater false s
         = (s1, EWrite name v :: ns, Thrown UserError))).
Proof.
  intros Hnext prevState s1 scan.
  assert (set (S fuel) name updater true s
          = (fst (fst scan),
             EWrite name v :: snd (fst scan) ++ returning name v (snd scan),
             answer v (snd scan))) as Hsilent.
  { rewrite set_S. cbv zeta. rewrite Hnext. cbn [notify].
    change (derivedStates (with_store s name v)) with (derivedStates s).
    rewrite set_scan_dependents. fold s1 scan.
    now destruct scan as [[s2 tr2] o2]. }
  split; [exact Hsilent|]. split; [|split].
  - intros s' tr v' H.
    destruct (set_returned _ _ _ _ _ _ _ _ H)
      as (fuel' & ns & recs & [= <-] & Hv & Hn & Hscan & -> & Hw & Hnot).
    injection Hn as <-. cbn [app]. split; [congruence|]. split.
    + intros x a b [[=]|Hin]. apply in_app_or in Hin as [Hin|[[=]|[]]].
      now apply Hnot in Hin.
    + intros key d Hd Hdep.
      destruct (scan_updates _ _ _ _ _ _ _ (set_keeps fuel) Hscan key d)
        as [inputs Hi]; auto.
      * apply object_keys_lookup. eauto.
      * exists inputs. right. apply in_or_app. now left.
  - intros done key later s2 tr2 s3 tr3 e Hdeps Hdone Hkey.
    rewrite Hsilent. unfold scan. rewrite Hdeps.
    rewrite (for_each_stops _ _ _ _ _ _ _ _ _ _ Hdone Hkey) by discriminate.
    cbn [fst snd returning answer]. now rewrite app_nil_r.
  - intros l Hl. split.
    + intros Hret. rewrite set_S. cbv zeta. rewrite Hnext.
      rewrite (notify_loud _ _ _ _ l) by exact Hl.
      fold prevState. rewrite (notifications_return _ _ _ _ Hret).
      change (derivedStates (with_store s name v)) with (derivedStates s).
      rewrite set_scan_dependents. fold s1 scan.
      now destruct scan as [[s2 tr2] o2].
    + intros Hthrows. rewrite set_S. cbv zeta. rewrite Hnext.
      rewrite (notify_loud _ _ _ _ l) by exact Hl. fold prevState.
      destruct (notifications_outcome name l v prevState)
        as [[Hret _]|(l1 & x & l2 & _ & _ & _ & ->)]; [contradiction|].
      eauto.
Qed.

(** C4 (as amended). In a reachable state, a [set] call without [silent]
    whose updater returns [v] calls the listeners subscribed to the store in
    the order of the listener set, which has no duplicates, with the pair
    [(v, prevState)] where [prevState] is the copy of the snapshot taken
    before the write, and before any recomputation, until one of them
    throws.  When every listener returns, each has been called once and the
    scan of the derived specs follows.  When a listener throws, the
    listeners after it are not called, nothing is recomputed, the write
    stays and the call throws that error.  A call that returns returns [v]
    and has called each listener exactly once.  The call does return, with
    enough call depth, when the recomputation it triggers does: no cycle
    among the dependencies, derived specs that can be recomputed, and
    listeners that do not throw. *)
Theorem set_notifies_listeners (s : sys) (name : string) (updater : value)
    (l : list fn_id) (v : value) :
  reachable s ->
  lookup name (listeners s) = Some l ->
  next_state (copy (stores_get s name)) updater = Some v ->
  let prevState := copy (stores_get s name) in
  NoDup l /\
  (listeners_return l v prevState ->
   forall fuel, exists s' recs o,
     for_each (recompute (set fuel) name) (object_keys (derivedStates s))
       (with_store s name v) = (s', recs, o) /\
     set (S fuel) name updater false s
     = (s',
        EWrite name v :: invocations name l v prevState
          ++ recs ++ returning name v o,
        answer v o)) /\
  (forall l1 x l2 fuel,
      l = l1 ++ x :: l2 ->
      listeners_return l1 v prevState ->
      call x [v; prevState] = None ->
      set (S fuel) name updater false s
      = (with_store s name v,
         EWrite name v :: invocations name (l1 ++ [x]) v prevState,
         Thrown UserError)) /\
  (forall fuel s' tr v',
      set fuel name updater false s = (s', tr, Returned v') ->
      v' = v /\
      listeners_return l v prevState /\
      exists recs,
        tr = EWrite name v :: invocations name l v prevState
               ++ recs ++ [EReturn name v] /\
        (forall x, In x l -> In (ENotify name x v prevState) tr) /\
        (forall x a b, ~ In (ENotify name x a b) recs)) /\
  (forall height fuel,
      acyclic s height -> recomputable s -> quiet s ->
      height name < fuel ->
      exists s' tr, set fuel name updater false s = (s', tr, Returned v)).
Proof.
  intros Hreach Hl Hnext prevState.
  pose proof (reachable_listeners_wf _ Hreach _ _ Hl) as Hnd.
  split; [exact Hnd|]. split; [|split; [|split]].
  - intros Hret fuel. rewrite set_S. cbv zeta. rewrite Hnext.
    rewrite (notify_loud _ _ _ _ l) by exact Hl. fold prevState.
    rewrite (notifications_return _ _ _ _ Hret).
    change (derivedStates (with_store s name v)) with (derivedStates s).
    destruct (for_each _ _ _) as [[s2 tr2] o2]. eauto.
  - intros l1 x l2 fuel -> Hret Hx. rewrite set_S. cbv zeta. rewrite Hnext.
    rewrite (notify_loud _ _ _ _ (l1 ++ x :: l2)) by exact Hl. fold prevState.
    now rewrite (notifications_throw _ _ _ _ _ _ Hret Hx).
  - intros fuel s' tr v' H.
    destruct (set_returned _ _ _ _ _ _ _ _ H)
      as (fuel' & ns & recs & -> & Hv & Hn & Hscan & -> & Hw & Hnot).
    assert (v' = v) as -> by congruence.
    rewrite (notify_loud _ _ _ _ l) in Hn by exact Hl.
    apply notifications_returned in Hn as [Hret ->].
    repeat split; auto. exists recs. repeat split; auto.
    intros x Hx. right. apply in_or_app. left.
    now apply In_invocations.
  - intros height fuel Hacyc Hrec Hq Hh.
    eapply set_returns; eauto.
Qed.

(** *** Who writes a derived store *)

Lemma by_update_nil d : by_update d [].
Proof. intros [|? ?] v post; discriminate. Qed.

Lemma by_update_app d a b : by_update d a -> by_update d b -> by_update d (a ++ b).
Proof.
  intros Ha Hb pre v post E.
  apply app_eq_app in E as [m [[-> E]|[-> E]]].
  - destruct m as [|e m].
    + simpl in E. destruct (Hb [] v post) as (pre' & inputs & Hp);
        [now rewrite <- E|]. now destruct pre'.
    + injection E as <- ->. apply (Ha pre v m). reflexivity.
  - destruct (Hb m v post E) as (pre' & inputs & ->).
    exists (a ++ pre'), inputs. now rewrite app_assoc.
Qed.

Lemma by_update_cons d e tr :
  (forall v, e <> EWrite d v) -> by_update d tr -> by_update d (e :: tr).
Proof.
  intros He Htr pre v post E.
  destruct pre as [|e' pre]; simpl in E; injection E as E1 E2.
  - now destruct (He v).
  - destruct (Htr pre v post E2) as (pre' & inputs & ->).
    exists (e' :: pre'), inputs. reflexivity.
Qed.

Lemma by_update_write d inputs v tr :
  by_update d tr -> by_update d (EUpdate d inputs :: EWrite d v :: tr).
Proof.
  intros Htr pre v' post E.
  destruct pre as [|e [|e' pre]]; simpl in E.
  - discriminate.
  - injection E as <- _ _. exists [], inputs. reflexivity.
  - injection E as _ _ E.
    destruct (Htr pre v' post E) as (pre' & inputs' & ->).
    exists (e :: e' :: pre'), inputs'. reflexivity.
Qed.

Lemma by_update_notify d name a ns :
  Forall (fun e => exists x p, e = ENotify name x a p) ns -> by_update d ns.
Proof.
  intros Hall pre v post E.
  rewrite Forall_forall in Hall.
  destruct (Hall (EWrite d v)) as (? & ? & [=]).
  rewrite E. apply in_or_app. right. now left.
Qed.

Lemma by_update_returning d name v o : by_update d (returning name v o).
Proof.
  destruct o; simpl; try apply by_update_nil.
  apply by_update_cons; [discriminate|apply by_update_nil].
Qed.

Lemma recompute_by_update d f name key s s' tr o :
  writes_first d f -> proper s ->
  recompute f name key s = (s', tr, o) -> by_update d tr.
Proof.
  intros Hf Hp. unfold recompute.
  destruct (lookup key (derivedStates s)) as [spec|] eqn:Hd;
    [|intros [= _ <- _]; apply by_update_nil].
  destruct (existsb _ _); [|intros [= _ <- _]; apply by_update_nil].
  unfold update. destruct (call _ _) as [newState|];
    [|intros [= _ <- _]; apply by_update_cons;
      [discriminate|apply by_update_nil]].
  destruct (store_set f (store spec) newState s) as [[s1 tr1] o1] eqn:E.
  intros [= _ <- _]. unfold store_set in E.
  destruct (store spec) as [n|raw] eqn:Hst.
  - destruct (f n newState false s) as [[s2 tr2] o2] eqn:E2.
    injection E as _ <- _. pose proof (Hp _ _ _ Hd Hst) as ->.
    destruct (Hf _ _ _ _ _ _ _ Hp E2) as [->|(v & rest & -> & Hrest)].
    + apply by_update_cons; [discriminate|apply by_update_nil].
    + destruct (String.eqb_spec key d) as [->|Hne].
      * now apply by_update_write.
      * apply by_update_cons; [discriminate|].
        apply by_update_cons; [congruence|exact Hrest].
  - apply by_update_cons; [discriminate|].
    destruct (member raw "set"); injection E as _ <- _; apply by_update_nil.
Qed.

Lemma for_each_by_update d f name keys : forall s s' tr o,
  writes_first d f -> (forall n u sl, keeps_registries (f n u sl)) ->
  proper s ->
  for_each (recompute f name) keys s = (s', tr, o) -> by_update d tr.
Proof.
  induction keys as [|key keys IH]; intros s s' tr o Hf Hk Hp; simpl.
  - intros [= _ <- _]. apply by_update_nil.
  - destruct (recompute f name key s) as [[s1 tr1] o1] eqn:E1.
    pose proof (recompute_by_update _ _ _ _ _ _ _ _ Hf Hp E1) as H1.
    destruct o1 as [[]| |]; try (now intros [= _ <- _]).
    destruct (for_each _ keys s1) as [[s2 tr2] o2] eqn:E2.
    intros [= _ <- _]. apply by_update_app; [exact H1|].
    eapply IH; [exact Hf|exact Hk| |exact E2].
    eapply proper_same; [|exact Hp]. eapply recompute_keeps; eassumption.
Qed.

Lemma set_writes_first d fuel : writes_first d (set fuel).
Proof.
  induction fuel as [|fuel IH]; intros name updater silent s s' tr o Hp E;
    destruct (set_cases _ _ _ _ _ _ _ _ E)
      as [(_ & -> & _)
         |(fuel' & w & ns & Hf & Hnext &
           [(e & Hn & _ & -> & _)|(recs & o' & Hn & Hscan & -> & _)])];
    try (now left); try discriminate; injection Hf as <-;
    pose proof (notify_all name silent w (copy (stores_get s name))
                  (with_store s name w)) as Hns;
    rewrite Hn in Hns; cbn [fst] in Hns;
    right; eexists _, _; (split; [reflexivity|]).
  - eapply by_update_notify; exact Hns.
  - apply by_update_app; [eapply by_update_notify; exact Hns|].
    apply by_update_app; [|apply by_update_returning].
    eapply for_each_by_update; [exact IH|apply set_keeps| |exact Hscan].
    exact Hp.
Qed.

(** A store that the trace does not write keeps its snapshot. *)
Lemma In_written m tr : In m (written tr) <-> exists v, In (EWrite m v) tr.
Proof.
  unfold written. rewrite in_flat_map. split.
  - intros (e & He & Hm). destruct e; simpl in Hm; try contradiction.
    destruct Hm as [<-|[]]. eauto.
  - intros [v Hv]. exists (EWrite m v). split; [exact Hv|now left].
Qed.

Lemma for_each_keeps_unwritten f name keys : forall s s' tr o m,
  (forall n u sl, keeps_unwritten (f n u sl)) ->
  for_each (recompute f name) keys s = (s', tr, o) ->
  ~ In m (written tr) -> stores_get s' m = stores_get s m.
Proof.
  induction keys as [|key keys IH]; intros s s' tr o m Hf; simpl.
  - now intros [= <- _ _].
  - destruct (recompute f name key s) as [[s1 tr1] o1] eqn:E1.
    assert (~ In m (written tr1) -> stores_get s1 m = stores_get s m) as H1.
    { unfold recompute in E1.
      destruct (lookup key (derivedStates s)) as [spec|];
        [|now injection E1 as <- _ _].
      destruct (existsb _ _); [|now injection E1 as <- _ _].
      unfold update in E1. destruct (call _ _) as [newState|];
        [|now injection E1 as <- _ _].
      destruct (store_set f (store spec) newState s) as [[s3 tr3] o3] eqn:E3.
      injection E1 as <- <- _. unfold store_set in E3.
      destruct (store spec) as [n|raw].
      - destruct (f n newState false s) as [[s4 tr4] o4] eqn:E4.
        injection E3 as <- <- _. intros Hm. eapply Hf; [exact E4|exact Hm].
      - destruct (member raw "set"); now injection E3 as <- _ _. }
    destruct o1 as [[]| |]; try (intros [= <- <- _]; exact H1).
    destruct (for_each _ keys s1) as [[s2 tr2] o2] eqn:E2.
    intros [= <- <- _]. rewrite written_app, in_app_iff. intros Hm.
    rewrite (IH _ _ _ _ m Hf E2) by tauto. apply H1. tauto.
Qed.

Lemma set_keeps_unwritten fuel : forall name updater silent,
  keeps_unwritten (set fuel name updater silent).
Proof.
  induction fuel as [|fuel IH]; intros name updater silent s s' tr o m E;
    destruct (set_cases _ _ _ _ _ _ _ _ E)
      as [(-> & _)
         |(fuel' & w & ns & Hf & Hnext &
           [(e & Hn & -> & -> & _)|(recs & o' & Hn & Hscan & -> & _)])];
    try reflexivity; try discriminate; injection Hf as <-;
    pose proof (written_notify name silent w (copy (stores_get s name))
                  (with_store s name w)) as Hns;
    rewrite Hn in Hns; cbn [fst] in Hns;
    rewrite written_write, ?written_app, ?Hns; intros Hm;
    (assert (m <> name) as Hne by (intros ->; apply Hm; now left)).
  - apply stores_get_with_store_other. congruence.
  - rewrite (for_each_keeps_unwritten _ _ _ _ _ _ _ m IH Hscan).
    + apply stores_get_with_store_other. congruence.
    + intros Hin. apply Hm. right. simpl. apply in_or_app. now left.
Qed.

(** C9 (as amended). In every reachable state, a [set] call on another
    store writes the derived store [d] only through the [update] of the
    derived spec [d], and leaves the content of [d] as it was when it ran no
    such update.  Nothing stops a caller from calling [set] on the handle of
    [d] itself: that call writes the content of [d] directly. *)
Theorem derived_written_by_update (s : sys) (d : string) :
  reachable s ->
  (forall fuel name updater silent s' tr o,
      name <> d ->
      set fuel name updater silent s = (s', tr, o) ->
      (forall pre v post,
          tr = pre ++ EWrite d v :: post ->
          exists pre' inputs, pre = pre' ++ [EUpdate d inputs]) /\
      ((forall inputs, ~ In (EUpdate d inputs) tr) ->
       stores_get s' d = stores_get s d)) /\
  (forall fuel updater silent nextState,
      next_state (copy (stores_get s d)) updater = Some nextState ->
      exists s' rest o,
        set (S fuel) d updater silent s = (s', EWrite d nextState :: rest, o)).
Proof.
  intros Hreach. apply reachable_proper in Hreach. split.
  - intros fuel name updater silent s' tr o Hne E.
    assert (by_update d tr) as Hby.
    { destruct (set_writes_first d fuel _ _ _ _ _ _ _ Hreach E)
        as [->|(v & rest & -> & Hrest)]; [apply by_update_nil|].
      apply by_update_cons; [congruence|exact Hrest]. }
    split; [exact Hby|]. intros Hno.
    eapply set_keeps_unwritten; [exact E|].
    rewrite In_written. intros [v Hv].
    apply in_split in Hv as (pre & post & ->).
    destruct (Hby pre v post eq_refl) as (pre' & inputs & ->).
    apply (Hno inputs). apply in_or_app. left. apply in_or_app. right. now left.
  - intros fuel updater silent nextState Hnext.
    rewrite set_S. cbv zeta. rewrite Hnext.
    destruct (notify _ _ _ _ _) as [ns [u|e|]]; [|eauto|eauto].
    destruct (for_each _ _ _) as [[s2 tr2] o2]. eauto.
Qed.

(** *** What recomputation leaves in a derived store *)

Lemma written_returning name v o : written (returning name v o) = [].
Proof. now destruct o. Qed.

Lemma replay_app a b s : replay (a ++ b) s = replay b (replay a s).
Proof. apply fold_left_app. Qed.

Lemma replay_unwritten tr : forall s, written tr = [] -> replay tr s = s.
Proof.
  induction tr as [|e tr IH]; intros s; [reflexivity|].
  destruct e; simpl; try discriminate; apply IH.
Qed.

Lemma replay_write pre key w post s :
  replay (pre ++ EWrite key w :: post) s
  = replay post (with_store (replay pre s) key w).
Proof. now rewrite replay_app. Qed.

Lemma replay_update pre key inputs s :
  replay (pre ++ [EUpdate key inputs]) s = replay pre s.
Proof. now rewrite replay_app. Qed.

Lemma stores_get_replay tr : forall s m,
  ~ In m (written tr) -> stores_get (replay tr s) m = stores_get s m.
Proof.
  induction tr as [|e tr IH]; intros s m Hm; [reflexivity|].
  destruct e as [n v| | |]; simpl in *; try (now apply IH).
  rewrite IH by tauto. apply stores_get_with_store_other. tauto.
Qed.

Lemma recompute_replays f name key s s' tr o :
  replays f -> recompute f name key s = (s', tr, o) -> s' = replay tr s.
Proof.
  intros Hf. unfold recompute.
  destruct (lookup key (derivedStates s)) as [d|]; [|now intros [= <- <- _]].
  destruct (existsb _ _); [|now intros [= <- <- _]].
  unfold update. destruct (call _ _) as [newState|]; [|now intros [= <- <- _]].
  destruct (store_set f (store d) newState s) as [[s1 tr1] o1] eqn:E.
  intros [= <- <- _]. unfold store_set in E. destruct (store d) as [n|raw].
  - destruct (f n newState false s) as [[s2 tr2] o2] eqn:E2.
    injection E as <- <- _. simpl. eapply Hf. exact E2.
  - destruct (member raw "set"); now injection E as <- <- _.
Qed.

Lemma for_each_replays f name keys : forall s s' tr o,
  replays f ->
  for_each (recompute f name) keys s = (s', tr, o) -> s' = replay tr s.
Proof.
  induction keys as [|key keys IH]; intros s s' tr o Hf; simpl.
  - now intros [= <- <- _].
  - destruct (recompute f name key s) as [[s1 tr1] o1] eqn:E1.
    pose proof (recompute_replays _ _ _ _ _ _ _ Hf E1) as H1.
    destruct o1 as [[]| |]; try (now intros [= <- <- _]).
    destruct (for_each _ keys s1) as [[s2 tr2] o2] eqn:E2.
    intros [= <- <- _]. rewrite replay_app, <- H1. eapply IH; eassumption.
Qed.

Lemma set_replays fuel : replays (set fuel).
Proof.
  induction fuel as [|fuel IH]; intros name updater silent s s' tr o E;
    destruct (set_cases _ _ _ _ _ _ _ _ E)
      as [(-> & -> & _)
         |(fuel' & w & ns & Hf & Hnext &
           [(e & Hn & -> & -> & _)|(recs & o' & Hn & Hscan & -> & _)])];
    try reflexivity; try discriminate; injection Hf as <-;
    pose proof (written_notify name silent w (copy (stores_get s name))
                  (with_store s name w)) as Hns;
    rewrite Hn in Hns; cbn [fst] in Hns;
    change (replay (EWrite name w :: ?tr) s)
      with (replay tr (with_store s name w)).
  - now rewrite replay_unwritten.
  - rewrite !replay_app, (replay_unwritten ns) by exact Hns.
    rewrite (replay_unwritten (returning name w o'))
      by apply written_returning.
    eapply for_each_replays; [exact IH|exact Hscan].
Qed.

(** **** Every later write is the write of an update *)

Lemma written_split pre m w post :
  written (pre ++ EWrite m w :: post) = written pre ++ m :: written post.
Proof. now rewrite written_app. Qed.

Lemma written_by_updates_nowrite ds s0 tr :
  written tr = [] -> written_by_updates ds s0 tr.
Proof.
  intros H pre key w post E. exfalso. subst tr.
  rewrite written_split in H. now destruct (written pre).
Qed.

Lemma written_by_updates_app ds s0 a b :
  written_by_updates ds s0 a ->
  written_by_updates ds (replay a s0) b ->
  written_by_updates ds s0 (a ++ b).
Proof.
  intros Ha Hb pre key w post E.
  apply app_eq_app in E as [m [[-> E]|[-> E]]].
  - destruct m as [|e m].
    + simpl in E. destruct (Hb [] key w post) as (pre' & ? & ? & Hp & _);
        [now rewrite <- E|]. now destruct pre'.
    + injection E as <- ->. apply (Ha pre key w m). reflexivity.
  - destruct (Hb m key w post E) as (pre' & d & newState & -> & Hd & Hc & Hn).
    exists (a ++ pre'), d, newState. rewrite replay_app.
    repeat split; auto. now rewrite app_assoc.
Qed.

Lemma written_by_updates_update ds s0 key d newState w rest :
  lookup key ds = Some d ->
  call (computeFn d) (map (stores_get s0) (deps d)) = Some newState ->
  next_state (copy (stores_get s0 key)) newState = Some w ->
  written_by_updates ds (with_store s0 key w) rest ->
  written_by_updates ds s0
    (EUpdate key (map (stores_get s0) (deps d)) :: EWrite key w :: rest).
Proof.
  intros Hd Hc Hn Hrest.
  apply (written_by_updates_app ds s0
           [EUpdate key (map (stores_get s0) (deps d)); EWrite key w] rest);
    [|exact Hrest].
  intros pre k w' post E.
  destruct pre as [|e [|e' pre]]; simpl in E; try discriminate.
  - injection E as <- <- <- <-. exists [], d, newState. auto.
  - injection E as _ _ E. now destruct pre.
Qed.

Lemma recompute_updates_valid f name key s s' tr o :
  updates_valid f -> proper s ->
  recompute f name key s = (s', tr, o) ->
  written_by_updates (derivedStates s) s tr.
Proof.
  intros Hf Hp. unfold recompute.
  destruct (lookup key (derivedStates s)) as [d|] eqn:Hd;
    [|intros [= _ <- _]; now apply written_by_updates_nowrite].
  destruct (existsb _ _);
    [|intros [= _ <- _]; now apply written_by_updates_nowrite].
  unfold update. destruct (call _ _) as [newState|] eqn:Hcall;
    [|intros [= _ <- _]; now apply written_by_updates_nowrite].
  destruct (store_set f (store d) newState s) as [[s1 tr1] o1] eqn:E.
  intros [= _ <- _]. unfold store_set in E.
  destruct (store d) as [n|raw] eqn:Hst.
  - destruct (f n newState false s) as [[s2 tr2] o2] eqn:E2.
    injection E as _ <- _. pose proof (Hp _ _ _ Hd Hst) as ->.
    destruct (Hf _ _ _ _ _ _ _ Hp E2) as [->|(v & rest & -> & Hn & Hrest)].
    + now apply written_by_updates_nowrite.
    + now apply (written_by_updates_update _ _ _ _ newState).
  - assert (tr1 = []) as ->
      by (destruct (member raw "set"); now injection E as _ <- _).
    now apply written_by_updates_nowrite.
Qed.

Lemma for_each_updates_valid f name keys : forall s s' tr o,
  updates_valid f -> replays f ->
  (forall n u sl, keeps_registries (f n u sl)) ->
  proper s ->
  for_each (recompute f name) keys s = (s', tr, o) ->
  written_by_updates (derivedStates s) s tr.
Proof.
  induction keys as [|key keys IH]; intros s s' tr o Hf Hr Hk Hp; simpl.
  - intros [= _ <- _]. now apply written_by_updates_nowrite.
  - destruct (recompute f name key s) as [[s1 tr1] o1] eqn:E1.
    pose proof (recompute_updates_valid _ _ _ _ _ _ _ Hf Hp E1) as H1.
    destruct o1 as [[]| |]; try (now intros [= _ <- _]).
    destruct (for_each _ keys s1) as [[s2 tr2] o2] eqn:E2.
    intros [= _ <- _]. apply written_by_updates_app; [exact H1|].
    rewrite <- (recompute_replays _ _ _ _ _ _ _ Hr E1).
    destruct (recompute_keeps _ _ _ Hk _ _ _ _ E1) as [Hl1 Hd1].
    rewrite <- Hd1. eapply IH; eauto.
    eapply proper_same; [|exact Hp]. now split.
Qed.

Lemma set_updates_valid fuel : updates_valid (set fuel).
Proof.
  induction fuel as [|fuel IH]; intros name updater silent s s' tr o Hp E;
    destruct (set_cases _ _ _ _ _ _ _ _ E)
      as [(_ & -> & _)
         |(fuel' & w & ns & Hf & Hnext &
           [(e & Hn & _ & -> & _)|(recs & o' & Hn & Hscan & -> & _)])];
    try (now left); try discriminate; injection Hf as <-;
    pose proof (written_notify name silent w (copy (stores_get s name))
                  (with_store s name w)) as Hns;
    rewrite Hn in Hns; cbn [fst] in Hns;
    right; exists w; eexists; (split; [reflexivity|]); (split; [exact Hnext|]).
  - now apply written_by_updates_nowrite.
  - apply written_by_updates_app; [now apply written_by_updates_nowrite|].
    rewrite (replay_unwritten ns) by exact Hns.
    apply written_by_updates_app;
      [|apply written_by_updates_nowrite, written_returning].
    apply (for_each_updates_valid (set fuel) name _ _ _ _ _ IH
             (set_replays fuel) (set_keeps fuel)
             (proper_same _ _ (with_store_keeps s name w) Hp) Hscan).
Qed.

(** **** Every write reaches the dependents *)

Lemma reaches_dependents_nowrite ds tr :
  written tr = [] -> reaches_dependents ds tr.
Proof.
  intros H pre m w post E. exfalso. subst tr.
  rewrite written_split in H. now destruct (written pre).
Qed.

Lemma reaches_dependents_app ds a b :
  reaches_dependents ds a -> reaches_dependents ds b ->
  reaches_dependents ds (a ++ b).
Proof.
  intros Ha Hb pre m w post E key d Hd Hst Hdep.
  apply app_eq_app in E as [mm [[-> E]|[-> E]]].
  - destruct mm as [|e mm].
    + simpl in E. apply (Hb [] m w post (eq_sym E) key d); auto.
    + injection E as <- ->. rewrite written_app. apply in_or_app. left.
      apply (Ha pre m w mm eq_refl key d); auto.
  - apply (Hb mm m w post E key d); auto.
Qed.

Lemma reaches_dependents_update ds key inputs tr :
  reaches_dependents ds tr -> reaches_dependents ds (EUpdate key inputs :: tr).
Proof.
  intros H. apply (reaches_dependents_app ds [EUpdate key inputs] tr);
    [now apply reaches_dependents_nowrite|exact H].
Qed.

Lemma reaches_dependents_write ds n v tr :
  (forall key d,
      lookup key ds = Some d -> store d = Handle key -> In n (deps d) ->
      In key (written tr)) ->
  reaches_dependents ds tr ->
  reaches_dependents ds (EWrite n v :: tr).
Proof.
  intros Hfirst Htr pre m w post E key d Hd Hst Hdep.
  destruct pre as [|e pre]; simpl in E.
  - injection E as <- _ <-. now apply (Hfirst key d).
  - injection E as _ E2. apply (Htr pre m w post E2 key d); auto.
Qed.

Lemma scan_writes_dependents fuel name keys : forall s s' tr u,
  proper s ->
  for_each (recompute (set fuel) name) keys s = (s', tr, Returned u) ->
  forall key d,
    In key keys -> lookup key (derivedStates s) = Some d ->
    store d = Handle key -> In name (deps d) ->
    In key (written tr).
Proof.
  induction keys as [|k keys IH]; intros s s' tr u Hp; simpl;
    [intros _ ? ? []|].
  destruct (recompute (set fuel) name k s) as [[s1 tr1] o1] eqn:E1.
  destruct o1 as [u1| |]; try discriminate.
  destruct (for_each _ keys s1) as [[s2 tr2] o2] eqn:E2.
  intros [= <- <- ->] key d [->|Hin] Hd Hst Hdep;
    rewrite written_app; apply in_or_app.
  - left. unfold recompute in E1. rewrite Hd in E1.
    apply existsb_eqb_In in Hdep. rewrite Hdep in E1.
    unfold update in E1. destruct (call _ _) as [newState|]; [|discriminate].
    rewrite Hst in E1. unfold store_set in E1.
    destruct (set fuel key newState false s) as [[s3 tr3] o3] eqn:E3.
    injection E1 as <- <- E1. apply discard_returned in E1 as [v ->].
    destruct (set_returned _ _ _ _ _ _ _ _ E3)
      as (fuel' & ns & recs & _ & _ & _ & _ & -> & _).
    simpl. now left.
  - right.
    assert (same_registries s s1) as [Hl1 Hd1]
      by (eapply recompute_keeps; [apply set_keeps|exact E1]).
    apply (IH _ _ _ _ (proper_same _ _ (conj Hl1 Hd1) Hp) E2 key d); auto.
    now rewrite Hd1.
Qed.

Lemma for_each_reaches f name keys : forall s s' tr u,
  reaching f ->
  (forall n u sl, keeps_registries (f n u sl)) ->
  proper s ->
  for_each (recompute f name) keys s = (s', tr, Returned u) ->
  reaches_dependents (derivedStates s) tr.
Proof.
  induction keys as [|key keys IH]; intros s s' tr u Hf Hk Hp; simpl.
  - intros [= _ <- _]. now apply reaches_dependents_nowrite.
  - destruct (recompute f name key s) as [[s1 tr1] o1] eqn:E1.
    destruct o1 as [u1| |]; try discriminate.
    destruct (for_each _ keys s1) as [[s2 tr2] o2] eqn:E2.
    intros [= _ <- ->].
    destruct (recompute_keeps _ _ _ Hk _ _ _ _ E1) as [Hl1 Hd1].
    apply reaches_dependents_app.
    + unfold recompute in E1.
      destruct (lookup key (derivedStates s)) as [d|]; [|discriminate].
      destruct (existsb _ _);
        [|injection E1 as _ <- _; now apply reaches_dependents_nowrite].
      unfold update in E1.
      destruct (call _ _) as [newState|]; [|discriminate].
      destruct (store_set f (store d) newState s) as [[s3 tr3] o3] eqn:E3.
      injection E1 as _ <- E1. apply reaches_dependents_update.
      unfold store_set in E3. destruct (store d) as [n|raw].
      * destruct (f n newState false s) as [[s4 tr4] o4] eqn:E4.
        injection E3 as _ <- E3. subst o3.
        apply discard_returned in E1 as [v ->].
        eapply Hf; eassumption.
      * assert (tr3 = []) as ->
          by (destruct (member raw "set"); now injection E3 as _ <- _).
        now apply reaches_dependents_nowrite.
    + rewrite <- Hd1. eapply IH; eauto.
      eapply proper_same; [|exact Hp]. now split.
Qed.

Lemma set_reaches fuel : reaching (set fuel).
Proof.
  induction fuel as [|fuel IH]; intros name updater silent s s' tr v Hp E;
    [discriminate|].
  destruct (set_returned _ _ _ _ _ _ _ _ E)
    as (fuel' & ns & recs & [= <-] & _ & Hn & Hscan & -> & _).
  pose proof (written_notify name silent v (copy (stores_get s name))
                (with_store s name v)) as Hns.
  rewrite Hn in Hns. cbn [fst] in Hns.
  pose proof (proper_same _ _ (with_store_keeps s name v) Hp) as Hp1.
  apply reaches_dependents_write.
  - intros key d Hd Hst Hdep. rewrite !written_app, Hns. simpl.
    apply in_or_app. left.
    apply (scan_writes_dependents fuel name _ _ _ _ _ Hp1 Hscan key d); auto.
    apply object_keys_lookup. eauto.
  - apply reaches_dependents_app; [now apply reaches_dependents_nowrite|].
    apply reaches_dependents_app; [|now apply reaches_dependents_nowrite].
    apply (for_each_reaches (set fuel) name _ _ _ _ _ IH (set_keeps fuel)
             Hp1 Hscan).
Qed.

(** **** The last write of a derived store *)

Lemma last_write m tr :
  In m (written tr) ->
  exists pre w post, tr = pre ++ EWrite m w :: post /\ ~ In m (written post).
Proof.
  induction tr as [|e tr IH]; [intros []|]. intros H.
  destruct (in_dec string_dec m (written tr)) as [Hin|Hnin].
  - destruct (IH Hin) as (pre & w & post & -> & Hp).
    exists (e :: pre), w, post. auto.
  - destruct e as [n v| | |]; simpl in H; try contradiction.
    destruct H as [->|H]; [|contradiction]. now exists [], v, tr.
Qed.

(** A derived store other than the store that was set, written in a call
    that returns, holds what its last recomputation in the call wrote, and
    none of its dependencies has been written since. *)
Lemma written_derived_computed fuel s s' name updater silent tr v key d :
  proper s ->
  set fuel name updater silent s = (s', tr, Returned v) ->
  lookup key (derivedStates s) = Some d -> store d = Handle key ->
  key <> "__proto__" -> key <> name -> In key (written tr) ->
  computed_state s tr s' key d.
Proof.
  intros Hp E Hd Hst Hkey Hne Hin.
  pose proof (set_replays fuel _ _ _ _ _ _ _ E) as Hs'.
  pose proof (set_reaches fuel _ _ _ _ _ _ _ Hp E) as Hrd.
  destruct (set_updates_valid fuel _ _ _ _ _ _ _ Hp E)
    as [->|(v0 & rest & Etr & Hnext & Hwbu)]; [destruct Hin|].
  destruct (last_write _ _ Hin) as (pre & w & post & Esplit & Hlast).
  rewrite Esplit in Etr.
  destruct pre as [|e pre]; simpl in Etr; injection Etr as He Erest;
    [congruence|]. subst e.
  destruct (Hwbu pre key w post (eq_sym Erest))
    as (pre' & d' & newState & -> & Hd' & Hcall & Hn).
  assert (d' = d) as -> by congruence.
  set (s1 := with_store s name v0) in *.
  set (inputs := map (stores_get (replay pre' s1)) (deps d)) in *.
  assert (replay (EWrite name v0 :: pre' ++ [EUpdate key inputs]) s
          = replay pre' s1) as Hpre.
  { change (replay (EWrite name v0 :: ?x) s) with (replay x s1).
    apply replay_update. }
  assert (forall m, ~ In m (written post) -> m <> key ->
            stores_get s' m = stores_get (replay pre' s1) m) as Hframe.
  { intros m Hm Hmk. rewrite Hs', Esplit, replay_write, Hpre.
    rewrite stores_get_replay by exact Hm.
    apply stores_get_with_store_other. congruence. }
  assert (stores_get s' key = w) as Hw.
  { rewrite Hs', Esplit, replay_write.
    rewrite stores_get_replay by exact Hlast.
    now apply stores_get_with_store_same. }
  assert (map (stores_get s') (deps d) = inputs) as Hinputs.
  { apply map_ext_in. intros dep Hdep. apply Hframe.
    - intros Hin'. apply In_written in Hin' as [w2 Hin'].
      apply in_split in Hin' as (p1 & p2 & Epost). apply Hlast.
      rewrite Epost, written_split. apply in_or_app. right. right.
      apply (Hrd ((EWrite name v0 :: pre' ++ [EUpdate key inputs])
                    ++ EWrite key w :: p1) dep w2 p2) with (d := d); auto.
      rewrite Esplit, Epost, <- app_assoc. reflexivity.
    - intros ->. apply Hlast.
      apply (Hrd (EWrite name v0 :: pre' ++ [EUpdate key inputs]) key w post)
        with (d := d); auto. }
  exists newState, (EWrite name v0 :: pre' ++ [EUpdate key inputs]), post.
  rewrite Hw, Hinputs, Hpre. auto.
Qed.

(** What the code does where C2 fails.  In a reachable state, when a [set]
    call on a store that the derived spec [key] lists in its [deps] returns,
    the call has written [key], and the snapshot of [key] is what the last
    of these writes wrote: the compute function's result for the states the
    dependencies have on return, in [deps] order, taken as an updater over a
    copy of the snapshot that [key] held just before that write (the one
    from before the call, or one written earlier in the call): merged over
    it when the result is not a function, so that the properties the result
    lacks survive. *)
Theorem derived_state_after_set (fuel : nat) (s s' : sys) (name : string)
    (updater : value) (silent : bool) (tr : list event) (v : value)
    (key : string) (d : dspec) :
  reachable s ->
  set fuel name updater silent s = (s', tr, Returned v) ->
  lookup key (derivedStates s) = Some d ->
  store d = Handle key ->
  key <> "__proto__" ->
  In name (deps d) ->
  exists newState pre post,
    tr = pre ++ EWrite key (stores_get s' key) :: post /\
    ~ In key (written post) /\
    call (computeFn d) (map (stores_get s') (deps d)) = Some newState /\
    next_state (copy (stores_get (replay pre s) key)) newState
      = Some (stores_get s' key) /\
    (is_function newState = false ->
     stores_get s' key = merge (copy (stores_get (replay pre s) key)) newState).
Proof.
  intros Hreach E Hd Hst Hkey Hin.
  pose proof (reachable_proper _ Hreach) as Hp.
  destruct (set_returned _ _ _ _ _ _ _ _ E)
    as (fuel' & ns & recs & _ & _ & Hn & Hscan & Etr & Hw & _).
  pose proof (written_notify name silent v (copy (stores_get s name))
                (with_store s name v)) as Hns.
  rewrite Hn in Hns. cbn [fst] in Hns.
  assert (In key (written recs)) as Hrecs.
  { apply (scan_writes_dependents fuel' name _ _ _ _ _
             (proper_same _ _ (with_store_keeps s name v) Hp) Hscan key d);
      auto.
    apply object_keys_lookup. eauto. }
  assert (key <> name) as Hne by (intros ->; contradiction).
  assert (In key (written tr)) as Hwritten.
  { rewrite Etr, written_write, !written_app, Hns. right. simpl.
    apply in_or_app. now left. }
  destruct (written_derived_computed _ _ _ _ _ _ _ _ _ _ Hp E Hd Hst Hkey Hne
              Hwritten)
    as (newState & pre & post & Hsplit & Hlast & Hc & Hnext).
  exists newState, pre, post. repeat split; auto.
  intros Hf. rewrite next_state_data in Hnext by exact Hf. congruence.
Qed.

(** *** Snapshot isolation *)

Lemma nth_update_nth_other {A : Type} (f : A -> A) (d : A) l : forall i j,
  i <> j -> nth j (update_nth i f l) d = nth j l d.
Proof.
  induction l as [|x l IH]; intros [|i] [|j] Hij; simpl; auto; try contradiction.
Qed.

Lemma length_update_nth {A : Type} (f : A -> A) l : forall i,
  length (update_nth i f l) = length l.
Proof. induction l as [|x l IH]; intros [|i]; simpl; auto. Qed.

Lemma mutations_frame l ms : forall s,
  let s' := fold_left (fun h m => mutate (RObj l) m h) ms s in
  hstores s' = hstores s /\
  length (heap s') = length (heap s) /\
  forall j, j <> l -> nth j (heap s') [] = nth j (heap s) [].
Proof.
  induction ms as [|m ms IH]; intros s; simpl; [auto|].
  destruct (IH (mutate (RObj l) m s)) as (H1 & H2 & H3).
  simpl in *. rewrite H1, H2, length_update_nth.
  repeat split. intros j Hj. rewrite H3 by assumption.
  now apply nth_update_nth_other.
Qed.

Lemma lookup_In {A : Type} (o : list (string * A)) k v :
  lookup k o = Some v -> In (k, v) o.
Proof.
  induction o as [|[k' v'] o IH]; simpl; [discriminate|].
  destruct (String.eqb_spec k' k) as [->|_]; [intros [= ->]; now left|].
  intros H. right. now apply IH.
Qed.

Lemma heap_wf_lookup s name r :
  heap_wf s -> lookup name (hstores s) = Some r -> allocated (heap s) r.
Proof.
  intros Hwf E. unfold heap_wf in Hwf. rewrite Forall_forall in Hwf.
  exact (Hwf _ (lookup_In _ _ _ E)).
Qed.

Lemma deref_stores_frame s s' name :
  heap_wf s ->
  hstores s' = hstores s ->
  (forall j, j < length (heap s) -> nth j (heap s') [] = nth j (heap s) []) ->
  deref (heap s') (hstores_get s' name) = deref (heap s) (hstores_get s name).
Proof.
  intros Hwf Hst Hheap. unfold hstores_get. rewrite Hst.
  destruct (lookup name (hstores s)) as [[l|v]|] eqn:E; simpl; auto.
  rewrite Hheap; [reflexivity|]. exact (heap_wf_lookup _ _ _ Hwf E).
Qed.

Lemma hget_eq name s :
  hget name s =
  (mk_hsys (heap s ++ [spread [] (deref (heap s) (hstores_get s name))])
     (hstores s),
   RObj (length (heap s))).
Proof. reflexivity. Qed.

Lemma hget_copy name s :
  deref (heap (fst (hget name s))) (snd (hget name s))
  = copy (deref (heap s) (hstores_get s name)).
Proof.
  rewrite hget_eq. simpl. rewrite app_nth2, Nat.sub_diag by lia. reflexivity.
Qed.

(** [hget] is [get] without a path on the value-level view of the heap. *)
Lemma lookup_abs_stores s name :
  lookup name (abs_stores s)
  = option_map (deref (heap s)) (lookup name (hstores s)).
Proof.
  unfold abs_stores. induction (hstores s) as [|[k r] l IH]; simpl; auto.
  destruct (k =? name); auto.
Qed.

Lemma stores_get_abs s name ls ds :
  stores_get (mk_sys (abs_stores s) ls ds) name
  = deref (heap s) (hstores_get s name).
Proof.
  unfold stores_get, get_prop, hstores_get. simpl.
  rewrite lookup_abs_stores. now destruct (lookup name (hstores s)).
Qed.

Lemma hget_refines_get name s ls ds :
  get name None (mk_sys (abs_stores s) ls ds)
  = Returned (deref (heap (fst (hget name s))) (snd (hget name s))).
Proof.
  rewrite hget_copy. unfold get. now rewrite stores_get_abs.
Qed.

(** [hcreateStore] is [createStore] on the value-level view, and it keeps
    the heap well formed. *)
Lemma map_assign {A B : Type} (g : A -> B) (o : list (string * A)) k v :
  map (fun kv => (fst kv, g (snd kv))) (assign o k v)
  = assign (map (fun kv => (fst kv, g (snd kv))) o) k (g v).
Proof.
  induction o as [|[k' v'] o IH]; simpl; [reflexivity|].
  destruct (k' =? k); simpl; [reflexivity|]. now rewrite IH.
Qed.

Lemma Forall_assign {A : Type} (P : string * A -> Prop) o k v :
  Forall P o -> P (k, v) -> Forall P (assign o k v).
Proof.
  intros Ho Hv. induction Ho as [|[k' v'] o Hx Ho IH]; simpl.
  - now repeat constructor.
  - destruct (k' =? k); constructor; auto.
Qed.

Lemma deref_allocated h o r : allocated h r -> deref (h ++ [o]) r = deref h r.
Proof.
  destruct r as [l|v]; simpl; [|reflexivity]. intros Hl. now rewrite app_nth1.
Qed.

Lemma abs_stores_alloc s o :
  heap_wf s -> abs_stores (mk_hsys (heap s ++ [o]) (hstores s)) = abs_stores s.
Proof.
  intros Hwf. unfold abs_stores; simpl. apply map_ext_in.
  intros [k r] Hin. simpl. f_equal. apply deref_allocated.
  unfold heap_wf in Hwf. rewrite Forall_forall in Hwf. exact (Hwf _ Hin).
Qed.

Lemma hcreateStore_refines_createStore name initialState s ls ds :
  heap_wf s ->
  let r := hcreateStore name initialState s in
  let a := createStore name initialState (mk_sys (abs_stores s) ls ds) in
  heap_wf (fst r) /\
  stores (fst a) = abs_stores (fst r) /\
  match snd r, snd a with
  | HHandle n, Handle m => n = m
  | HRaw x, Raw v => deref (heap (fst r)) x = v
  | _, _ => False
  end.
Proof.
  intros Hwf. unfold hcreateStore, createStore. rewrite stores_get_abs.
  destruct (truthy _); cbn [fst snd alloc heap hstores].
  - auto.
  - repeat split.
    + unfold heap_wf, reg_assign; simpl.
      assert (Forall (fun kr => allocated
                (heap s ++ [spread [] (or_empty initialState)]) (snd kr))
                (hstores s)) as Hold.
      { unfold heap_wf in Hwf. rewrite Forall_forall in *. intros [k x] Hin.
        specialize (Hwf _ Hin). destruct x as [l|v]; simpl in *; auto.
        rewrite length_app. simpl. lia. }
      destruct (name =? "__proto__"); [exact Hold|].
      apply Forall_assign; [exact Hold|].
      simpl. rewrite length_app. simpl. lia.
    + unfold with_listeners, with_store, abs_stores, reg_assign; simpl.
      destruct (name =? "__proto__").
      * symmetry. now apply abs_stores_alloc.
      * rewrite map_assign. f_equal.
        -- symmetry. now apply (abs_stores_alloc s).
        -- simpl. rewrite app_nth2, Nat.sub_diag by lia. reflexivity.
Qed.

Lemma hget_wf name s : heap_wf s -> heap_wf (fst (hget name s)).
Proof.
  intros Hwf. rewrite hget_eq. unfold heap_wf in *; simpl.
  rewrite Forall_forall in *. intros [k x] Hin. specialize (Hwf _ Hin).
  destruct x as [l|v]; simpl in *; auto. rewrite length_app. simpl. lia.
Qed.

Lemma mutate_wf r m s : heap_wf s -> heap_wf (mutate r m s).
Proof.
  intros Hwf. destruct r as [l|v]; [|exact Hwf].
  unfold heap_wf in *; simpl. rewrite Forall_forall in *.
  intros [k x] Hin. specialize (Hwf _ Hin).
  destruct x as [l'|v]; simpl in *; auto. now rewrite length_update_nth.
Qed.

(** C6. [get()] returns a new object that holds a shallow copy of the
    current snapshot: whatever the caller then does to the top level of that
    object (assigning or deleting properties, any number of times), a later
    [get()] on the same store returns the contents the first one returned. *)
Theorem get_copy_isolated (s : hsys) (name : string) (ms : list mutation) :
  heap_wf s ->
  let s1 := fst (hget name s) in
  let r := snd (hget name s) in
  let s2 := fold_left (fun h m => mutate r m h) ms s1 in
  deref (heap s1) r = copy (deref (heap s) (hstores_get s name)) /\
  deref (heap (fst (hget name s2))) (snd (hget name s2)) = deref (heap s1) r.
Proof.
  intros Hwf s1 r s2. split; [apply hget_copy|].
  subst s1 r s2. rewrite !hget_copy. f_equal.
  rewrite hget_eq. cbn [fst snd].
  set (s1 := mk_hsys _ _).
  destruct (mutations_frame (length (heap s)) ms s1) as (H1 & H2 & H3).
  cbv zeta in H1, H2, H3.
  apply deref_stores_frame.
  - exact Hwf.
  - rewrite H1. reflexivity.
  - intros j Hj. rewrite H3 by lia. subst s1. simpl.
    now rewrite app_nth1.
Qed.

End Properties.

(** ** Further properties of the operations *)

Section Coverage.

Context {host : Host}.

(** *** Spread *)

Lemma lookup_assign {A : Type} (o : list (string * A)) k k' v :
  lookup k (assign o k' v) = if k' =? k then Some v else lookup k o.
Proof.
  destruct (String.eqb_spec k' k) as [->|Hne].
  - apply lookup_assign_same.
  - now apply lookup_assign_other.
Qed.

Lemma lookup_spread_over (l : props) : forall t k,
  lookup k (fold_left (fun o kv => assign o (fst kv) (snd kv)) l t)
  = match lookup k (fold_left (fun o kv => assign o (fst kv) (snd kv)) l [])
    with
    | Some x => Some x
    | None => lookup k t
    end.
Proof.
  induction l as [|[k' v'] l IH] using rev_ind; intros t k; [reflexivity|].
  rewrite !fold_left_app. simpl. rewrite !lookup_assign.
  destruct (k' =? k); [reflexivity|apply IH].
Qed.

(** [{ ...a, ...b }] has, under every key, the property of [b] when [b]
    has one, and the property of [a] otherwise. *)
Lemma own_prop_merge a b k :
  own_prop (merge a b) k
  = match own_prop (copy b) k with
    | Some x => Some x
    | None => own_prop (copy a) k
    end.
Proof. unfold merge, copy, spread. simpl. apply lookup_spread_over. Qed.

Lemma In_keys_assign {A : Type} (o : list (string * A)) k v x :
  In x (map fst (assign o k v)) <-> x = k \/ In x (map fst o).
Proof.
  induction o as [|[k' v'] o IH]; simpl; [intuition|].
  destruct (String.eqb_spec k' k) as [->|Hne]; simpl; [intuition|].
  rewrite IH. intuition.
Qed.

Lemma NoDup_keys_assign {A : Type} (o : list (string * A)) k v :
  NoDup (map fst o) -> NoDup (map fst (assign o k v)).
Proof.
  induction o as [|[k' v'] o IH]; simpl; intros H.
  - repeat constructor. intros [].
  - inversion H as [|? ? Hk' Ho]; subst.
    destruct (String.eqb_spec k' k) as [->|Hne]; simpl; [now constructor|].
    constructor; [|now apply IH].
    rewrite In_keys_assign. intros [->|Hin]; contradiction.
Qed.

Lemma NoDup_keys_spread (l : props) : forall t,
  NoDup (map fst t) ->
  NoDup (map fst (fold_left (fun o kv => assign o (fst kv) (snd kv)) l t)).
Proof.
  induction l as [|[k v] l IH]; intros t Ht; simpl; [exact Ht|].
  apply IH. now apply NoDup_keys_assign.
Qed.

Lemma assign_fresh {A : Type} (o : list (string * A)) k v :
  ~ In k (map fst o) -> assign o k v = o ++ [(k, v)].
Proof.
  induction o as [|[k' v'] o IH]; simpl; intros H; [reflexivity|].
  destruct (String.eqb_spec k' k) as [->|Hne]; [tauto|].
  rewrite IH; [reflexivity|tauto].
Qed.

Lemma spread_distinct_keys (l : props) : forall t,
  NoDup (map fst l) ->
  (forall k, In k (map fst l) -> ~ In k (map fst t)) ->
  fold_left (fun o kv => assign o (fst kv) (snd kv)) l t = t ++ l.
Proof.
  induction l as [|[k v] l IH]; intros t Hl Ht; simpl.
  - now rewrite app_nil_r.
  - inversion Hl as [|? ? Hk Hl']; subst. simpl in Ht.
    rewrite assign_fresh by (apply Ht; now left).
    rewrite IH; [now rewrite <- app_assoc|exact Hl'|].
    intros k' Hk'. rewrite map_app, in_app_iff. simpl.
    intros [Hin|[->|[]]]; [|contradiction].
    apply (Ht k'); [now right|exact Hin].
Qed.

(** Copying a copy changes nothing. *)
Lemma copy_copy v : copy (copy v) = copy v.
Proof.
  unfold copy, spread. simpl. f_equal.
  rewrite spread_distinct_keys; [reflexivity| |intros k _ []].
  apply NoDup_keys_spread. constructor.
Qed.

(** *** createStore on a free name *)

(** On a free name [createStore] returns the handle of a new store whose
    [get()] is a copy of [initialState] ([{}] when it is omitted) and whose
    listener set is empty; every other store, every other listener set and
    the derived specs are as before. *)
Theorem createStore_creates (s : sys) (name : string) (initialState : value) :
  name <> "__proto__" ->
  truthy (stores_get s name) = false ->
  exists s',
    createStore name initialState s = (s', Handle name) /\
    get name None s' = Returned (copy (or_empty initialState)) /\
    lookup name (listeners s') = Some [] /\
    derivedStates s' = derivedStates s /\
    forall m, m <> name ->
      stores_get s' m = stores_get s m /\
      lookup m (listeners s') = lookup m (listeners s).
Proof.
  intros Hname Hfree.
  destruct (createStore_fresh s name initialState Hname Hfree) as [Hc Hg].
  rewrite Hc in Hg. cbn [fst] in Hg.
  eexists. split; [exact Hc|]. repeat split.
  - unfold get. rewrite Hg. now rewrite copy_copy.
  - change (lookup name (reg_assign (listeners s) name []) = Some []).
    now apply lookup_reg_assign_same.
  - rewrite stores_get_with_listeners.
    apply stores_get_with_store_other. congruence.
  - change (lookup m (reg_assign (listeners s) name []) = lookup m (listeners s)).
    apply lookup_reg_assign_other. congruence.
Qed.

(** *** What a store holds after set *)

Lemma set_returned_state fuel name updater silent s s' tr v :
  name <> "__proto__" ->
  set fuel name updater silent s = (s', tr, Returned v) ->
  stores_get s' name = v.
Proof.
  intros Hname H.
  destruct (set_returned _ _ _ _ _ _ _ _ H)
    as (fuel' & ns & recs & _ & _ & _ & Hscan & _ & Hw & _).
  rewrite (for_each_keeps_unwritten _ _ _ _ _ _ _ name
             (set_keeps_unwritten fuel') Hscan Hw).
  now apply stores_get_with_store_same.
Qed.

(** When [set] returns, the store holds the value that [set] returned,
    whatever recomputation the call went through: [get()] is a copy of it. *)
Theorem set_then_get (fuel : nat) (name : string) (updater : value)
    (silent : bool) (s s' : sys) (tr : list event) (v : value) :
  name <> "__proto__" ->
  set fuel name updater silent s = (s', tr, Returned v) ->
  stores_get s' name = v /\ get name None s' = Returned (copy v).
Proof.
  intros Hname H.
  pose proof (set_returned_state _ _ _ _ _ _ _ _ Hname H) as Hv.
  split; [exact Hv|]. unfold get. now rewrite Hv.
Qed.

(** An updater that is not a function is a partial update: the snapshot
    that [set] returns has, under every key, the updater's property when the
    updater has one, and the previous snapshot's property otherwise.  An
    updater that is a function decides the whole snapshot. *)
Theorem set_merges_partial_update (fuel : nat) (name : string)
    (updater : value) (silent : bool) (s s' : sys) (tr : list event)
    (v : value) :
  set fuel name updater silent s = (s', tr, Returned v) ->
  (is_function updater = false ->
   forall k,
     own_prop v k
     = match own_prop (copy updater) k with
       | Some x => Some x
       | None => own_prop (copy (stores_get s name)) k
       end) /\
  (forall f, updater = VFun f -> call f [copy (stores_get s name)] = Some v).
Proof.
  intros H.
  destruct (set_returned _ _ _ _ _ _ _ _ H) as (_ & _ & _ & _ & Hnext & _).
  split.
  - intros Hf k. rewrite next_state_data in Hnext by exact Hf.
    injection Hnext as <-. now rewrite own_prop_merge, copy_copy.
  - intros f ->. exact Hnext.
Qed.

(** *** A store that nothing depends on *)

Lemma for_each_no_dependents f name keys s :
  (forall key, In key keys ->
     exists d, lookup key (derivedStates s) = Some d /\ ~ In name (deps d)) ->
  for_each (recompute f name) keys s = (s, [], Returned tt).
Proof.
  induction keys as [|key keys IH]; intros Hkeys; simpl; [reflexivity|].
  destruct (Hkeys key (or_introl eq_refl)) as (d & Hd & Hdep).
  unfold recompute at 1. rewrite Hd.
  apply existsb_eqb_not_In in Hdep. rewrite Hdep.
  rewrite IH; [reflexivity|]. intros k Hk. apply Hkeys. now right.
Qed.

(** When no derived spec lists the store in its [deps], a [set] call is the
    write, the notifications and the return: it changes [stores[name]] and
    nothing else, and it ends at call depth one, whatever the derived specs
    of other stores are.  Without [silent] it returns when the listeners of
    the store all return, and throws the error of the first listener that
    throws, after the write; with [silent] it returns. *)
Theorem set_without_dependents (fuel : nat) (s : sys) (name : string)
    (updater : value) (l : list fn_id) (nextState : value) :
  (forall key d, lookup key (derivedStates s) = Some d -> ~ In name (deps d)) ->
  lookup name (listeners s) = Some l ->
  next_state (copy (stores_get s name)) updater = Some nextState ->
  let prevState := copy (stores_get s name) in
  (listeners_return l nextState prevState ->
   set (S fuel) name updater false s
   = (with_store s name nextState,
      EWrite name nextState
        :: invocations name l nextState prevState
        ++ [EReturn name nextState],
      Returned nextState)) /\
  (forall l1 x l2,
      l = l1 ++ x :: l2 ->
      listeners_return l1 nextState prevState ->
      call x [nextState; prevState] = None ->
      set (S fuel) name updater false s
      = (with_store s name nextState,
         EWrite name nextState
           :: invocations name (l1 ++ [x]) nextState prevState,
         Thrown UserError)) /\
  set (S fuel) name updater true s
  = (with_store s name nextState,
     [EWrite name nextState; EReturn name nextState],
     Returned nextState).
Proof.
  intros Hdeps Hl Hnext prevState.
  assert (for_each (recompute (set fuel) name)
            (object_keys (derivedStates (with_store s name nextState)))
            (with_store s name nextState)
          = (with_store s name nextState, [], Returned tt)) as Hscan.
  { apply for_each_no_dependents. intros key Hkey.
    apply object_keys_lookup in Hkey as [d Hd]. exists d. split; [exact Hd|].
    exact (Hdeps key d Hd). }
  split; [|split].
  - intros Hret. rewrite set_S. cbv zeta. rewrite Hnext.
    rewrite (notify_loud _ _ _ _ l) by exact Hl. fold prevState.
    rewrite (notifications_return _ _ _ _ Hret). now rewrite Hscan.
  - intros l1 x l2 -> Hret Hx. rewrite set_S. cbv zeta. rewrite Hnext.
    rewrite (notify_loud _ _ _ _ (l1 ++ x :: l2)) by exact Hl. fold prevState.
    now rewrite (notifications_throw _ _ _ _ _ _ Hret Hx).
  - rewrite set_S. cbv zeta. rewrite Hnext. unfold notify. now rewrite Hscan.
Qed.

(** *** Subscribing twice *)

Lemma set_add_present x l : In x l -> set_add x l = l.
Proof.
  intros H. unfold set_add. apply existsb_eqb_In in H. now rewrite H.
Qed.

Lemma set_add_In x l : In x (set_add x l).
Proof.
  unfold set_add. destruct (existsb (String.eqb x) l) eqn:E.
  - now apply existsb_eqb_In.
  - apply in_or_app. right. now left.
Qed.

(** [subscribe] adds a listener once: a new listener goes after the ones
    that are there, a listener that is already subscribed changes nothing,
    and so subscribing the same listener twice is subscribing it once. *)
Theorem subscribe_twice (s : sys) (name : string) (callback : fn_id)
    (l : list fn_id) :
  lookup name (listeners s) = Some l ->
  let s1 := fst (subscribe name callback s) in
  subscribe name callback s1 = (s1, Returned (name, callback)) /\
  (In callback l -> s1 = s) /\
  (~ In callback l -> lookup name (listeners s1) = Some (l ++ [callback])).
Proof.
  intros Hl s1.
  assert (s1 = with_listener_set s name (set_add callback l)) as ->
    by (subst s1; unfold subscribe; now rewrite Hl).
  assert (lookup name (listeners (with_listener_set s name (set_add callback l)))
          = Some (set_add callback l)) as Hl1 by apply lookup_assign_same.
  repeat split.
  - unfold subscribe. rewrite Hl1. unfold with_listener_set.
    cbn [listeners stores derivedStates]. rewrite assign_assign.
    now rewrite (set_add_present _ _ (set_add_In callback l)).
  - intros Hin. unfold with_listener_set.
    rewrite set_add_present by exact Hin.
    rewrite assign_unchanged by exact Hl. apply sys_eta.
  - intros Hnot. rewrite Hl1.
    unfold set_add. apply existsb_eqb_not_In in Hnot. now rewrite Hnot.
Qed.

(** *** Paths *)

Lemma string_app_nil_r (a : string) : (a ++ "")%string = a.
Proof. induction a as [|c a IH]; simpl; [reflexivity|now rewrite IH]. Qed.

Lemma string_app_assoc (a b c : string) :
  ((a ++ b) ++ c)%string = (a ++ (b ++ c))%string.
Proof. induction a as [|x a IH]; simpl; [reflexivity|now rewrite IH]. Qed.

Lemma split_dots_aux_key k : forall acc rest,
  dot_free k = true ->
  split_dots_aux acc (k ++ rest) = split_dots_aux (acc ++ k) rest.
Proof.
  induction k as [|c k IH]; intros acc rest Hk; simpl.
  - now rewrite string_app_nil_r.
  - unfold dot_free in Hk. simpl in Hk. apply andb_prop in Hk as [Hc Hk].
    apply negb_true_iff in Hc. rewrite Hc.
    rewrite (IH _ _ Hk), string_app_assoc. reflexivity.
Qed.

(** Splitting at the dots what was joined with dots gives the keys back. *)
Lemma split_dots_join keys :
  keys <> [] -> forallb dot_free keys = true ->
  split_dots (join_dots keys) = keys.
Proof.
  unfold split_dots. induction keys as [|k keys IH]; intros Hne Hfree;
    [contradiction|].
  simpl in Hfree. apply andb_prop in Hfree as [Hk Hfree].
  destruct keys as [|k' keys].
  - simpl. rewrite <- (string_app_nil_r k) at 1.
    now rewrite split_dots_aux_key.
  - change (join_dots (k :: k' :: keys))
      with (k ++ String "."%char (join_dots (k' :: keys)))%string.
    rewrite split_dots_aux_key by exact Hk. simpl split_dots_aux.
    f_equal. apply IH; [discriminate|exact Hfree].
Qed.

(** [get] with the path [k1.k2...kn], where no key holds a dot, looks the
    keys up one after the other from the snapshot, each lookup guarded
    against undefined and null; in particular a single key reads that
    property of the snapshot, and a key that the snapshot holds as an own
    property reads its value. *)
Theorem get_path_follows_keys (s : sys) (name : string) (keys : list string) :
  forallb dot_free keys = true ->
  join_dots keys <> "" ->
  get name (Some (join_dots keys)) s = reduce_path (stores_get s name) keys /\
  (forall k, keys = [k] -> nullish (stores_get s name) = false ->
     get name (Some (join_dots keys)) s = get_prop (stores_get s name) k) /\
  (forall k ps v, keys = [k] -> stores_get s name = VObj ps ->
     lookup k ps = Some v ->
     get name (Some (join_dots keys)) s = Returned v).
Proof.
  intros Hfree Hne.
  assert (get name (Some (join_dots keys)) s
          = reduce_path (stores_get s name) keys) as Hget.
  { unfold get. destruct (String.eqb_spec (join_dots keys) "") as [E|_];
      [contradiction|].
    unfold getNestedValue. rewrite split_dots_join; [reflexivity| |exact Hfree].
    intros ->. now apply Hne. }
  rewrite Hget. repeat split.
  - intros k -> Hn. simpl. rewrite opt_member_read by exact Hn.
    now destruct (get_prop (stores_get s name) k).
  - intros k ps v -> Hs Hk. simpl. rewrite Hs.
    unfold opt_member, member, get_prop. simpl. now rewrite Hk.
Qed.

(** *** derive on a free name *)

Lemma copy_empty : copy (VObj []) = VObj [].
Proof. reflexivity. Qed.

Lemma merge_empty v : merge (VObj []) v = copy v.
Proof. reflexivity. Qed.

Lemma derive_fresh_unfold fuel name dl f s :
  name <> "__proto__" ->
  truthy (stores_get s name) = false ->
  let s1 := fst (createStore name VUndefined s) in
  let d := mk_dspec dl f (Handle name) in
  let s2 := with_derived s1 name d in
  stores_get s2 name = VObj [] /\
  lookup name (listeners s2) = Some [] /\
  lookup name (derivedStates s2) = Some d /\
  derive fuel name dl f s =
    match call f (map (stores_get s1) dl) with
    | None => (s2, [EUpdate name (map (stores_get s1) dl)], Thrown UserError)
    | Some newState =>
        let '(s3, tr, o) := set fuel name newState false s2 in
        (s3, EUpdate name (map (stores_get s1) dl) :: tr,
         answer (Handle name) (discard o))
    end.
Proof.
  intros Hname Hfree s1 d s2.
  destruct (createStore_fresh s name VUndefined Hname Hfree) as [Hc Hg].
  repeat split.
  - subst s2. rewrite stores_get_with_derived. exact Hg.
  - subst s2 s1. rewrite Hc.
    change (lookup name (reg_assign (listeners s) name []) = Some []).
    now apply lookup_reg_assign_same.
  - subst s2. unfold with_derived. cbn [derivedStates].
    now apply lookup_reg_assign_same.
  - unfold derive. subst s2 d s1. rewrite Hc. cbn [fst].
    unfold update. cbn [deps computeFn store].
    replace (map (stores_get (with_derived _ name _)) dl)
      with (map (stores_get (with_listeners
                   (with_store s name (copy (or_empty VUndefined))) name [])) dl)
      by reflexivity.
    destruct (call f _) as [newState|]; [|reflexivity].
    unfold store_set. destruct (set fuel name newState false _) as [[s3 tr] o].
    reflexivity.
Qed.

(** On a free name, a [derive] call that returns hands back the handle of
    the new store: the derived spec is registered under the name, the
    listener set is empty, and the store holds the compute function's result
    for the states that the stores in [deps] have at that moment, so that
    [get()] is a copy of it.  The call does return, with enough call depth,
    when the dependencies have no cycle, the derived specs can be
    recomputed and no listener throws. *)
Theorem derive_creates (fuel : nat) (s : sys) (name : string)
    (dl : list string) (f : fn_id) :
  name <> "__proto__" ->
  truthy (stores_get s name) = false ->
  let s1 := fst (createStore name VUndefined s) in
  let d := mk_dspec dl f (Handle name) in
  (forall s' tr h,
      derive fuel name dl f s = (s', tr, Returned h) ->
      h = Handle name /\
      lookup name (derivedStates s') = Some d /\
      lookup name (listeners s') = Some [] /\
      exists newState,
        call f (map (stores_get s1) dl) = Some newState /\
        next_state (VObj []) newState = Some (stores_get s' name) /\
        (is_function newState = false ->
         get name None s' = Returned (copy newState))) /\
  (forall height,
      acyclic (with_derived s1 name d) height ->
      recomputable (with_derived s1 name d) ->
      quiet (with_derived s1 name d) ->
      height name < fuel ->
      exists s' tr, derive fuel name dl f s = (s', tr, Returned (Handle name))).
Proof.
  intros Hname Hfree s1 d.
  destruct (derive_fresh_unfold fuel name dl f s Hname Hfree)
    as (Hst & Hls & Hds & Hderive).
  fold s1 d in Hst, Hls, Hds, Hderive. split.
  - intros s' tr h H. rewrite Hderive in H.
    destruct (call f (map (stores_get s1) dl)) as [newState|]; [|discriminate].
    destruct (set fuel name newState false (with_derived s1 name d))
      as [[s3 tr3] o] eqn:E.
    destruct o as [v| |]; try discriminate. injection H as <- _ <-.
    destruct (set_keeps _ _ _ _ _ _ _ _ E) as [Hl Hd].
    destruct (set_returned _ _ _ _ _ _ _ _ E) as (_ & _ & _ & _ & Hnext & _).
    pose proof (set_returned_state _ _ _ _ _ _ _ _ Hname E) as Hv.
    rewrite Hst, copy_empty in Hnext.
    repeat split.
    + now rewrite Hd.
    + now rewrite Hl.
    + exists newState. repeat split.
      * now rewrite Hv.
      * intros Hf. unfold get. rewrite Hv.
        rewrite next_state_data in Hnext by exact Hf.
        injection Hnext as <-.
        change (merge (VObj []) newState) with (copy newState).
        now rewrite copy_copy.
  - intros height Hacyc Hrec Hq Hh. rewrite Hderive.
    destruct (Hrec name d Hds) as (_ & _ & Hcall).
    destruct (Hcall (map (stores_get s1) dl)) as (newState & Hc & Hf).
    subst d. cbn [computeFn] in Hc. rewrite Hc.
    set (d := mk_dspec dl f (Handle name)) in *.
    destruct (set_returns height fuel name newState false
                (with_derived s1 name d)
                (merge (copy (stores_get (with_derived s1 name d) name)) newState))
      as (s' & tr & ->); auto.
    + now apply next_state_data.
    + eauto.
    + simpl. eauto.
Qed.



(** *** Which stores a set call writes *)

Lemma recompute_updates_specs f name key s s' tr o ds :
  derivedStates s = ds ->
  (forall n u sl s0 s0' tr0 o0 k inputs,
      derivedStates s0 = ds -> f n u sl s0 = (s0', tr0, o0) ->
      In (EUpdate k inputs) tr0 -> exists d, lookup k ds = Some d) ->
  recompute f name key s = (s', tr, o) ->
  forall k inputs, In (EUpdate k inputs) tr -> exists d, lookup k ds = Some d.
Proof.
  intros Hds Hf. unfold recompute. rewrite Hds.
  destruct (lookup key ds) as [d|] eqn:Hd; [|intros [= _ <- _] k inputs []].
  destruct (existsb _ _); [|intros [= _ <- _] k inputs []].
  unfold update. destruct (call _ _) as [newState|].
  - destruct (store_set f (store d) newState s) as [[s1 tr1] o1] eqn:E.
    intros [= _ <- _] k inputs [[= <- _]|Hin]; [eauto|].
    unfold store_set in E. destruct (store d) as [n|raw].
    + destruct (f n newState false s) as [[s2 tr2] o2] eqn:E2.
      injection E as _ <- _. eapply Hf; eassumption.
    + destruct (member raw "set"); injection E as _ <- _; destruct Hin.
  - intros [= _ <- _] k inputs [[= <- _]|[]]. eauto.
Qed.

Lemma for_each_updates_specs f name keys ds : forall s s' tr o,
  derivedStates s = ds ->
  (forall n u sl, keeps_registries (f n u sl)) ->
  (forall n u sl s0 s0' tr0 o0 k inputs,
      derivedStates s0 = ds -> f n u sl s0 = (s0', tr0, o0) ->
      In (EUpdate k inputs) tr0 -> exists d, lookup k ds = Some d) ->
  for_each (recompute f name) keys s = (s', tr, o) ->
  forall k inputs, In (EUpdate k inputs) tr -> exists d, lookup k ds = Some d.
Proof.
  induction keys as [|key keys IH]; intros s s' tr o Hds Hk Hf; simpl.
  - intros [= _ <- _] k inputs [].
  - destruct (recompute f name key s) as [[s1 tr1] o1] eqn:E1.
    pose proof (recompute_updates_specs _ _ _ _ _ _ _ _ Hds Hf E1) as H1.
    destruct o1 as [[]| |]; try (intros [= _ <- _]; exact H1).
    destruct (for_each _ keys s1) as [[s2 tr2] o2] eqn:E2.
    intros [= _ <- _] k inputs Hin. apply in_app_or in Hin as [Hin|Hin].
    + eapply H1. exact Hin.
    + eapply (IH s1); [|exact Hk|exact Hf|exact E2|exact Hin].
      rewrite <- Hds. eapply recompute_keeps; eassumption.
Qed.

(** Only registered derived specs are recomputed. *)
Lemma set_updates_specs fuel ds : forall n u sl s s' tr o k inputs,
  derivedStates s = ds -> set fuel n u sl s = (s', tr, o) ->
  In (EUpdate k inputs) tr -> exists d, lookup k ds = Some d.
Proof.
  induction fuel as [|fuel IH]; intros n u sl s s' tr o k inputs Hds E;
    destruct (set_cases _ _ _ _ _ _ _ _ E)
      as [(_ & -> & _)
         |(fuel' & w & ns & Hf & Hnext &
           [(e & Hn & _ & -> & _)|(recs & o' & Hn & Hscan & -> & _)])];
    try (intros []; fail); try discriminate; injection Hf as <-;
    pose proof (notify_all n sl w (copy (stores_get s n))
                  (with_store s n w)) as Hns;
    rewrite Hn in Hns; cbn [fst] in Hns; rewrite Forall_forall in Hns.
  - intros [[=]|Hin]. destruct (Hns _ Hin) as (? & ? & [=]).
  - intros [[=]|Hin]. apply in_app_or in Hin as [Hin|Hin].
    + destruct (Hns _ Hin) as (? & ? & [=]).
    + apply in_app_or in Hin as [Hin|Hin].
      * eapply (for_each_updates_specs (set fuel) n _ ds);
          [|apply set_keeps|exact IH|exact Hscan|exact Hin].
        exact Hds.
      * apply In_returning in Hin. discriminate.
Qed.

(** In a reachable state a [set] call, however it ends, changes no listener
    set and no derived spec, and the only snapshots it changes are that of
    its own store and those of derived stores: every store that is neither
    is left as it was. *)
Theorem set_frame (fuel : nat) (s s' : sys) (name : string) (updater : value)
    (silent : bool) (tr : list event) (o : outcome value) :
  reachable s ->
  set fuel name updater silent s = (s', tr, o) ->
  listeners s' = listeners s /\
  derivedStates s' = derivedStates s /\
  forall m,
    m <> name -> lookup m (derivedStates s) = None ->
    stores_get s' m = stores_get s m.
Proof.
  intros Hreach E.
  destruct (set_keeps _ _ _ _ _ _ _ _ E) as [Hl Hd].
  repeat split; auto. intros m Hm Hnone.
  eapply set_keeps_unwritten; [exact E|].
  rewrite In_written. intros [v Hv].
  assert (by_update m tr) as Hby.
  { destruct (set_writes_first m fuel _ _ _ _ _ _ _
                (reachable_proper _ Hreach) E) as [->|(v' & rest & -> & Hrest)];
      [apply by_update_nil|].
    apply by_update_cons; [congruence|exact Hrest]. }
  apply in_split in Hv as (pre & post & ->).
  destruct (Hby pre v post eq_refl) as (pre' & inputs & ->).
  destruct (set_updates_specs fuel _ _ _ _ _ _ _ _ m inputs eq_refl E) as [d Hd'].
  - apply in_or_app. left. apply in_or_app. right. now left.
  - congruence.
Qed.

(** *** A falsy snapshot frees the name *)

(** When a [set] call has returned a falsy value (its updater is a function
    that returned undefined, null, false, 0 or the empty string), the name is
    free again: the next [createStore] on it returns a new handle, the store
    holds a copy of the new initial state, and its listener set is empty,
    whatever listeners were subscribed before. *)
Theorem createStore_after_falsy (fuel : nat) (s s' : sys) (name : string)
    (updater : value) (silent : bool) (tr : list event) (v : value)
    (initialState : value) :
  name <> "__proto__" ->
  set fuel name updater silent s = (s', tr, Returned v) ->
  truthy v = false ->
  is_function updater = true /\
  exists s'',
    createStore name initialState s' = (s'', Handle name) /\
    get name None s'' = Returned (copy (or_empty initialState)) /\
    lookup name (listeners s'') = Some [].
Proof.
  intros Hname E Hv.
  pose proof (set_returned_state _ _ _ _ _ _ _ _ Hname E) as Hst.
  split.
  - destruct (set_returned _ _ _ _ _ _ _ _ E) as (_ & _ & _ & _ & Hnext & _).
    destruct (is_function updater) eqn:Hf; [reflexivity|].
    rewrite next_state_data in Hnext by exact Hf.
    injection Hnext as <-. discriminate.
  - destruct (createStore_fresh s' name initialState Hname) as [Hc Hg];
      [now rewrite Hst|].
    rewrite Hc in Hg. cbn [fst] in Hg. eexists. split; [exact Hc|]. split.
    + unfold get. now rewrite Hg, copy_copy.
    + change (lookup name (reg_assign (listeners s') name []) = Some []).
      now apply lookup_reg_assign_same.
Qed.

(** *** The listeners of a derived store *)

Lemma scan_notifies_dependents fuel name keys : forall s s' tr u,
  proper s ->
  for_each (recompute (set fuel) name) keys s = (s', tr, Returned u) ->
  forall key d l x,
    In key keys -> lookup key (derivedStates s) = Some d ->
    store d = Handle key -> In name (deps d) ->
    lookup key (listeners s) = Some l -> In x l ->
    exists a b, In (ENotify key x a b) tr.
Proof.
  induction keys as [|k keys IH]; intros s s' tr u Hp; simpl;
    [intros _ ? ? ? ? []|].
  destruct (recompute (set fuel) name k s) as [[s1 tr1] o1] eqn:E1.
  destruct o1 as [u1| |]; try discriminate.
  destruct (for_each _ keys s1) as [[s2 tr2] o2] eqn:E2.
  intros [= <- <- ->] key d l x [->|Hin] Hd Hst Hdep Hl Hx.
  - unfold recompute in E1. rewrite Hd in E1.
    apply existsb_eqb_In in Hdep. rewrite Hdep in E1.
    unfold update in E1. destruct (call _ _) as [newState|]; [|discriminate].
    rewrite Hst in E1. unfold store_set in E1.
    destruct (set fuel key newState false s) as [[s3 tr3] o3] eqn:E3.
    injection E1 as <- <- E1. apply discard_returned in E1 as [v ->].
    destruct (set_returned _ _ _ _ _ _ _ _ E3)
      as (fuel' & ns & recs & _ & _ & Hn & _ & -> & _).
    rewrite (notify_loud _ _ _ _ l) in Hn by exact Hl.
    apply notifications_returned in Hn as [_ ->].
    eexists _, _. apply in_or_app. left. right. right.
    apply in_or_app. left. apply In_invocations. eauto.
  - assert (same_registries s s1) as [Hl1 Hd1]
      by (eapply recompute_keeps; [apply set_keeps|exact E1]).
    destruct (IH _ _ _ _ (proper_same _ _ (conj Hl1 Hd1) Hp) E2 key d l x)
      as (a & b & Hab); auto.
    + now rewrite Hd1.
    + now rewrite Hl1.
    + exists a, b. apply in_or_app. now right.
Qed.

(** [silent] reaches no further than the store that is set: when a [set]
    call returns, silent or not, every listener of every derived store that
    lists the store in its [deps] has been invoked, because line 83 sets
    the derived store with [{ silent: false }]. *)
Theorem dependents_are_notified (fuel : nat) (s s' : sys) (name : string)
    (updater : value) (silent : bool) (tr : list event) (v : value)
    (key : string) (d : dspec) (l : list fn_id) (x : fn_id) :
  reachable s ->
  set fuel name updater silent s = (s', tr, Returned v) ->
  lookup key (derivedStates s) = Some d ->
  store d = Handle key ->
  In name (deps d) ->
  lookup key (listeners s) = Some l ->
  In x l ->
  exists a b, In (ENotify key x a b) tr.
Proof.
  intros Hreach E Hd Hst Hdep Hl Hx.
  destruct (set_returned _ _ _ _ _ _ _ _ E)
    as (fuel' & ns & recs & _ & _ & _ & Hscan & -> & _).
  destruct (scan_notifies_dependents fuel' name _ _ _ _ _
              (proper_same _ _ (with_store_keeps s name v)
                 (reachable_proper _ Hreach)) Hscan key d l x)
    as (a & b & Hab); auto.
  - apply object_keys_lookup. eauto.
  - exists a, b. right. apply in_or_app. right. apply in_or_app. now left.
Qed.

(** *** Propagation through chains of derived stores *)

Lemma reachable_no_proto_key s :
  reachable s -> lookup "__proto__" (derivedStates s) = None.
Proof.
  induction 1 as [|s name init _ IH|s fuel name dl f s' tr o _ IH E
                  |s fuel name updater silent l s' tr o _ IH _ E
                  |s name callback _ IH|s [name callback] _ IH].
  - reflexivity.
  - now rewrite createStore_derived.
  - unfold derive in E.
    destruct (createStore name VUndefined s) as [s1 st] eqn:Ec.
    destruct (update _ _ _ _) as [[s3 tr3] o3] eqn:Eu.
    injection E as <- _ _.
    destruct (update_keeps _ _ _ (set_keeps fuel) _ _ _ _ Eu) as [_ ->].
    pose proof (createStore_derived name VUndefined s) as Hd.
    rewrite Ec in Hd. cbn [fst] in Hd.
    unfold with_derived. cbn [derivedStates]. rewrite Hd. unfold reg_assign.
    destruct (String.eqb_spec name "__proto__") as [->|Hne]; [exact IH|].
    now rewrite lookup_assign_other.
  - destruct (set_keeps _ _ _ _ _ _ _ _ E) as [_ ->]. exact IH.
  - unfold subscribe. destruct (lookup name (listeners s)); exact IH.
  - unfold unsubscribe. destruct (lookup name (listeners s)); exact IH.
Qed.

Lemma downstream_written fuel s s' name updater silent tr v key :
  proper s ->
  set fuel name updater silent s = (s', tr, Returned v) ->
  downstream s name key ->
  In key (written tr).
Proof.
  intros Hp E Hdown.
  induction Hdown as [|m k d Hdown IH Hd Hst Hdep].
  - destruct (set_returned _ _ _ _ _ _ _ _ E)
      as (fuel' & ns & recs & _ & _ & _ & _ & Htr & _).
    rewrite Htr. now left.
  - apply In_written in IH as [w Hw].
    apply in_split in Hw as (pre & post & Htr).
    pose proof (set_reaches fuel _ _ _ _ _ _ _ Hp E pre m w post Htr k d
                  Hd Hst Hdep) as Hin.
    rewrite Htr, written_split. apply in_or_app. right. now right.
Qed.

(** Propagation is transitive.  In a reachable state, when a [set] call
    returns, every store downstream of the store that was set has been
    written in the call, and every derived store among them holds what the
    last of its recomputations in the call wrote: the compute function's
    result for the states its dependencies have on return, taken as an
    updater (line 83) over a copy of the snapshot the store held just before
    that write. *)
Theorem propagation_reaches_downstream (fuel : nat) (s s' : sys)
    (name : string) (updater : value) (silent : bool) (tr : list event)
    (v : value) (key : string) :
  reachable s ->
  set fuel name updater silent s = (s', tr, Returned v) ->
  downstream s name key ->
  (exists w, In (EWrite key w) tr) /\
  (key <> name ->
   exists d, lookup key (derivedStates s) = Some d /\
             computed_state s tr s' key d).
Proof.
  intros Hreach E Hdown.
  pose proof (reachable_proper _ Hreach) as Hp.
  pose proof (downstream_written _ _ _ _ _ _ _ _ _ Hp E Hdown) as Hw.
  split; [now apply In_written|]. intros Hne.
  destruct Hdown as [|m k d Hdown Hd Hst Hdep]; [contradiction|].
  exists d. split; [exact Hd|].
  apply (written_derived_computed fuel s s' name updater silent tr v k d);
    auto.
  intros ->. rewrite (reachable_no_proto_key _ Hreach) in Hd. discriminate.
Qed.

End Coverage.

(** ** The properties at concrete inputs *)

Example sys_ad_value :
  sys_ad = mk_sys [("a", VObj [("x", VNum 1)]); ("d", VObj [("x", VNum 1)])]
                  [("a", ["L"]); ("d", [])]
                  [("d", mk_dspec ["a"] "first" (Handle "d"))].
Proof. reflexivity. Qed.

Lemma result_eta {A : Type} (r : result A) : r = (fst (fst r), snd (fst r), snd r).
Proof. now destruct r as [[? ?] ?]. Qed.

Example sys_ad_reachable : reachable (host := demo) sys_ad.
Proof.
  eapply reach_derive; [|apply result_eta].
  apply (reach_subscribe (host := demo) sys_a "a" "L").
  apply (reach_createStore (host := demo) empty_sys "a" state_x1).
  apply reach_empty.
Qed.

Example sys_aw_reachable : reachable (host := demo) sys_aw.
Proof.
  eapply reach_derive; [|apply result_eta].
  apply (reach_subscribe (host := demo) sys_a "a" "L").
  apply (reach_createStore (host := demo) empty_sys "a" state_x1).
  apply reach_empty.
Qed.

(** The state with [d] derived by [(a) => ({ value: a })] has no cycle and
    its derived spec can be recomputed. *)
Example sys_aw_recomputable :
  acyclic sys_aw (fun n => if n =? "d" then 0 else 1) /\
  recomputable (host := demo) sys_aw.
Proof.
  split.
  - intros key d dep. change (derivedStates sys_aw)
      with [("d", mk_dspec ["a"] "wrap" (Handle "d"))].
    cbn [lookup]. destruct (String.eqb_spec "d" key) as [<-|]; [|discriminate].
    intros [= <-] [<-|[]]. simpl. lia.
  - intros key d. change (derivedStates sys_aw)
      with [("d", mk_dspec ["a"] "wrap" (Handle "d"))].
    cbn [lookup]. destruct (String.eqb_spec "d" key) as [<-|]; [|discriminate].
    intros [= <-]. repeat split.
    + now exists [].
    + intros inputs. eexists. split; reflexivity.
Qed.

(** Its listeners do not throw. *)
Example sys_aw_quiet : quiet (host := demo) sys_aw.
Proof.
  intros n l x args. change (listeners sys_aw) with [("a", ["L"]); ("d", [])].
  cbn [lookup].
  destruct (String.eqb_spec "a" n) as [<-|_];
    [intros [= <-] [<-|[]]; discriminate|].
  destruct (String.eqb_spec "d" n) as [<-|_]; [intros [= <-] []|discriminate].
Qed.

(** C1, witness: [createStore("x", {a: 1})] then [createStore("x", {b: 2})]. *)
Lemma createStore_twice_witness :
  exists s1,
    createStore (host := demo) "x" (VObj [("a", VNum 1)]) empty_sys
      = (s1, Handle "x") /\
    stores_get (host := demo) s1 "x" = copy (or_empty (VObj [("a", VNum 1)])) /\
    createStore (host := demo) "x" (VObj [("b", VNum 2)]) s1
      = (s1, Raw (copy (or_empty (VObj [("a", VNum 1)])))).
Proof.
  apply (createStore_twice (host := demo)); [discriminate|reflexivity].
Defined.

(** The second call returns the snapshot, an object without [get], [set] or
    [subscribe]. *)
Example createStore_returns_snapshot :
  let s1 := fst (createStore (host := demo) "x" (VObj [("a", VNum 1)]) empty_sys) in
  createStore (host := demo) "x" (VObj [("b", VNum 2)]) s1
  = (s1, Raw (VObj [("a", VNum 1)])).
Proof. reflexivity. Qed.

(** A name that Object.prototype defines is never free. *)
Example createStore_toString :
  createStore (host := demo) "toString" state_x1 empty_sys
  = (empty_sys, Raw (VFun "toString")).
Proof. reflexivity. Qed.

(** C2, at a failing input.  [d] is derived from [a] by [(a) => a].  After
    [a.set(() => ({ y: 2 }))] has returned, [a] holds [{y: 2}] and the
    compute function applied to the live state of [a] gives [{y: 2}], but
    [d.get()] is [{x: 1, y: 2}]: line 83 hands the computed state to [set]
    as a partial update, which merges it over the previous state of [d]. *)
Theorem derived_keeps_stale_keys :
  exists s' tr,
    set (host := demo) 5 "a" (VFun "onlyY") false sys_ad
      = (s', tr, Returned (VObj [("y", VNum 2)])) /\
    stores_get (host := demo) s' "a" = VObj [("y", VNum 2)] /\
    call (Host := demo) "first" (map (stores_get (host := demo) s') ["a"])
      = Some (VObj [("y", VNum 2)]) /\
    get (host := demo) "d" None s'
      = Returned (VObj [("x", VNum 1); ("y", VNum 2)]).
Proof. eexists _, _. repeat split. Qed.

(** C3, counterexample.  [d1] and [d2] both list [a] in their [deps]; the
    compute function of [d1] throws once [a] has a property [z].  The silent
    call [a.set({z: 1}, {silent: true})] writes [a], the update of [d1]
    throws, and [d2] is not recomputed: it keeps the state of [a] from before
    the call. *)
Lemma silent_set_leaves_later_dependents :
  let r := set (host := demo) 5 "a" (VObj [("z", VNum 1)]) true sys_guarded in
  lookup "d2" (derivedStates sys_guarded)
    = Some (mk_dspec ["a"] "first" (Handle "d2")) /\
  snd r = Thrown UserError /\
  snd (fst r)
    = [EWrite "a" (VObj [("x", VNum 1); ("z", VNum 1)]);
       EUpdate "d1" [VObj [("x", VNum 1); ("z", VNum 1)]]] /\
  (forall inputs, ~ In (EUpdate "d2" inputs) (snd (fst r))) /\
  stores_get (host := demo) (fst (fst r)) "a"
    = VObj [("x", VNum 1); ("z", VNum 1)] /\
  stores_get (host := demo) (fst (fst r)) "d2" = VObj [("x", VNum 1)].
Proof.
  repeat split. intros inputs [[=]|[[=]|[]]].
Qed.

(** C3, witness: [a.set({z: 1}, {silent: true})] with the listener [L] on
    [a] and [d] derived from [a]; and the same call in the state where the
    update of [d1] throws. *)
Lemma silent_set_witness :
  let v := VObj [("x", VNum 1); ("z", VNum 1)] in
  let r := set (host := demo) 5 "a" (VObj [("z", VNum 1)]) true sys_ad in
  snd r = Returned v /\
  (forall x a b, ~ In (ENotify "a" x a b) (snd (fst r))) /\
  (exists inputs, In (EUpdate "d" inputs) (snd (fst r))) /\
  set (host := demo) 5 "a" (VObj [("z", VNum 1)]) false sys_ad
  = (fst (fst r),
     EWrite "a" v :: invocations "a" ["L"] v (VObj [("x", VNum 1)])
       ++ [EUpdate "d" [v]; EWrite "d" v; EReturn "d" v]
       ++ [EReturn "a" v],
     Returned v) /\
  set (host := demo) 5 "a" (VObj [("z", VNum 1)]) true sys_guarded
  = (with_store sys_guarded "a" v, [EWrite "a" v; EUpdate "d1" [v]],
     Thrown UserError).
Proof.
  destruct (silent_set_skips_listeners (host := demo) 4 sys_ad "a"
              (VObj [("z", VNum 1)])
              (VObj [("x", VNum 1); ("z", VNum 1)]) eq_refl)
    as (Hsilent & Hreturned & _ & Hloud).
  destruct (silent_set_skips_listeners (host := demo) 4 sys_guarded "a"
              (VObj [("z", VNum 1)])
              (VObj [("x", VNum 1); ("z", VNum 1)]) eq_refl)
    as (_ & _ & Hstops & _).
  destruct (Hreturned
              (fst (fst (set (host := demo) 5 "a" (VObj [("z", VNum 1)]) true
                           sys_ad)))
              (snd (fst (set (host := demo) 5 "a" (VObj [("z", VNum 1)]) true
                           sys_ad)))
              (VObj [("x", VNum 1); ("z", VNum 1)]) eq_refl)
    as (Hv & Hnot & Hupd).
  split; [reflexivity|]. split; [exact Hnot|]. split; [|split].
  - apply (Hupd "d" (mk_dspec ["a"] "first" (Handle "d")));
      [reflexivity|now left].
  - destruct (Hloud ["L"] eq_refl) as [Hall _]. rewrite Hall.
    + reflexivity.
    + repeat constructor. discriminate.
  - apply (Hstops [] "d1" ["d2"]
             (with_store sys_guarded "a" (VObj [("x", VNum 1); ("z", VNum 1)]))
             []
             (with_store sys_guarded "a" (VObj [("x", VNum 1); ("z", VNum 1)]))
             [EUpdate "d1" [VObj [("x", VNum 1); ("z", VNum 1)]]] UserError);
      reflexivity.
Defined.

(** C4, counterexample.  The listener [fail] throws and was subscribed to
    [a] before [L]; [d] is derived from [a].  The call [a.set({z: 1})]
    writes [a], calls [fail], and throws: [L] is not invoked, [d] is not
    recomputed, and [set] does not return [nextState]. *)
Lemma throwing_listener_ends_set :
  let v := VObj [("x", VNum 1); ("z", VNum 1)] in
  let r := set (host := demo) 5 "a" (VObj [("z", VNum 1)]) false sys_failing in
  lookup "a" (listeners sys_failing) = Some ["fail"; "L"] /\
  r = (with_store sys_failing "a" v,
       [EWrite "a" v; ENotify "a" "fail" v (VObj [("x", VNum 1)])],
       Thrown UserError) /\
  (forall a b, ~ In (ENotify "a" "L" a b) (snd (fst r))) /\
  (forall inputs, ~ In (EUpdate "d" inputs) (snd (fst r))) /\
  stores_get (host := demo) (fst (fst r)) "d" = VObj [("x", VNum 1)].
Proof.
  repeat split.
  - intros a b [[=]|[[=]|[]]].
  - intros inputs [[=]|[[=]|[]]].
Qed.

(** C4, witness: [a.set({z: 1})] with the listener [L] on [a] and [d]
    derived from [a] by [(a) => ({ value: a })]; and the same call in the
    state where the listener [fail] comes first. *)
Lemma set_notifies_witness :
  let prevState := VObj [("x", VNum 1)] in
  let v := VObj [("x", VNum 1); ("z", VNum 1)] in
  let r := set (host := demo) 5 "a" (VObj [("z", VNum 1)]) false sys_aw in
  NoDup ["L"] /\
  (exists recs,
     snd (fst r) = EWrite "a" v :: invocations "a" ["L"] v prevState
                     ++ recs ++ [EReturn "a" v] /\
     (forall x, In x ["L"] -> In (ENotify "a" x v prevState) (snd (fst r))) /\
     (forall x a b, ~ In (ENotify "a" x a b) recs)) /\
  (exists s' tr,
     set (host := demo) 2 "a" (VObj [("z", VNum 1)]) false sys_aw
     = (s', tr, Returned v)) /\
  set (host := demo) 5 "a" (VObj [("z", VNum 1)]) false sys_failing
  = (with_store sys_failing "a" v,
     EWrite "a" v :: invocations "a" ([] ++ ["fail"]) v prevState,
     Thrown UserError).
Proof.
  destruct (set_notifies_listeners (host := demo) sys_aw "a"
              (VObj [("z", VNum 1)]) ["L"]
              (VObj [("x", VNum 1); ("z", VNum 1)])
              sys_aw_reachable eq_refl eq_refl)
    as (Hnodup & _ & _ & Hreturned & Hreturns).
  assert (reachable (host := demo) sys_failing) as Hreach.
  { eapply reach_derive; [|apply result_eta].
    apply reach_subscribe, reach_subscribe.
    apply (reach_createStore (host := demo) empty_sys "a" state_x1).
    apply reach_empty. }
  destruct (set_notifies_listeners (host := demo) sys_failing "a"
              (VObj [("z", VNum 1)]) ["fail"; "L"]
              (VObj [("x", VNum 1); ("z", VNum 1)])
              Hreach eq_refl eq_refl)
    as (_ & _ & Hthrows & _).
  split; [exact Hnodup|]. split; [|split].
  - destruct (Hreturned 5
                (fst (fst (set (host := demo) 5 "a" (VObj [("z", VNum 1)])
                             false sys_aw)))
                (snd (fst (set (host := demo) 5 "a" (VObj [("z", VNum 1)])
                             false sys_aw)))
                (VObj [("x", VNum 1); ("z", VNum 1)]) eq_refl)
      as (_ & _ & recs & H).
    exists recs. exact H.
  - apply (Hreturns (fun n => if n =? "d" then 0 else 1)).
    + exact (proj1 sys_aw_recomputable).
    + exact (proj2 sys_aw_recomputable).
    + exact sys_aw_quiet.
    + simpl. lia.
  - apply (Hthrows [] "fail" ["L"] 4); [reflexivity|constructor|reflexivity].
Defined.

(** The trace of [a.set({z: 1})] when [d] is derived by [(a) => a]: the
    listener once, then the update of [d]. *)
Example set_notifies_trace :
  snd (fst (set (host := demo) 5 "a" (VObj [("z", VNum 1)]) false sys_ad))
  = [EWrite "a" (VObj [("x", VNum 1); ("z", VNum 1)]);
     ENotify "a" "L" (VObj [("x", VNum 1); ("z", VNum 1)]) (VObj [("x", VNum 1)]);
     EUpdate "d" [VObj [("x", VNum 1); ("z", VNum 1)]];
     EWrite "d" (VObj [("x", VNum 1); ("z", VNum 1)]);
     EReturn "d" (VObj [("x", VNum 1); ("z", VNum 1)]);
     EReturn "a" (VObj [("x", VNum 1); ("z", VNum 1)])].
Proof. reflexivity. Qed.


Lemma set_terminates_witness :
  exists s' tr,
    set (host := demo) 2 "a" (VObj [("z", VNum 1)]) false sys_aw
    = (s', tr, Returned (VObj [("x", VNum 1); ("z", VNum 1)])).
Proof.
  apply (set_terminates (host := demo) sys_aw
           (fun n => if n =? "d" then 0 else 1)
           "a" (VObj [("z", VNum 1)]) false
           (VObj [("x", VNum 1); ("z", VNum 1)]) ["L"] 2).
  - exact (proj1 sys_aw_recomputable).
  - exact (proj2 sys_aw_recomputable).
  - exact sys_aw_quiet.
  - reflexivity.
  - reflexivity.
  - simpl. lia.
Defined.

(** Two derived stores that depend on each other: whatever the call depth
    allowed, the recomputation does not come to an end. *)
Example cycle_exhausts :
  let s1 := fst (fst (derive (host := demo) 8 "p" ["q"] "wrap" empty_sys)) in
  snd (derive (host := demo) 8 "p" ["q"] "wrap" empty_sys) = Returned (Handle "p") /\
  snd (derive (host := demo) 8 "q" ["p"] "wrap" s1) = Exhausted /\
  snd (derive (host := demo) 20 "q" ["p"] "wrap" s1) = Exhausted.
Proof. repeat split. Qed.

(** The derived store after [a.set(() => ({ y: 2 }))], as the theorem on
    recomputation describes it: the result [{y: 2}] merged over the
    snapshot [{x: 1}] that [d] held before its write. *)
Lemma derived_state_after_set_witness :
  let r := set (host := demo) 5 "a" (VFun "onlyY") false sys_ad in
  let s' := fst (fst r) in
  exists newState pre post,
    snd (fst r) = pre ++ EWrite "d" (stores_get (host := demo) s' "d") :: post /\
    ~ In "d" (written post) /\
    call (Host := demo) "first" (map (stores_get (host := demo) s') ["a"])
      = Some newState /\
    next_state (host := demo)
      (copy (stores_get (host := demo) (replay pre sys_ad) "d")) newState
      = Some (stores_get (host := demo) s' "d") /\
    (is_function newState = false ->
     stores_get (host := demo) s' "d"
     = merge (copy (stores_get (host := demo) (replay pre sys_ad) "d"))
         newState).
Proof.
  apply (derived_state_after_set (host := demo) 5 sys_ad
           (fst (fst (set (host := demo) 5 "a" (VFun "onlyY") false sys_ad)))
           "a" (VFun "onlyY") false
           (snd (fst (set (host := demo) 5 "a" (VFun "onlyY") false sys_ad)))
           (VObj [("y", VNum 2)]) "d" (mk_dspec ["a"] "first" (Handle "d"))).
  - exact sys_ad_reachable.
  - reflexivity.
  - reflexivity.
  - reflexivity.
  - discriminate.
  - now left.
Defined.

(** C5, counterexample: the stored snapshot has a callable [set] property,
    and [derive] on the same name returns. *)
Lemma derive_on_created_name_returns :
  let s1 := fst (createStore (host := demo) "x"
                   (VObj [("set", VFun "noop")]) empty_sys) in
  exists s' tr,
    derive (host := demo) 1 "x" [] "first" s1
    = (s', tr, Returned (Raw (VObj [("set", VFun "noop")]))).
Proof. eexists _, _. reflexivity. Qed.

(** C5, witness: [createStore("x", {a: 1})] then [derive("x", ["x"], first)]
    throws a TypeError and returns no handle. *)
Lemma derive_on_created_name_witness :
  let s1 := fst (createStore (host := demo) "x" (VObj [("a", VNum 1)]) empty_sys) in
  truthy (stores_get (host := demo) s1 "x") = true /\
  snd (derive (host := demo) 3 "x" ["x"] "first" s1) = Thrown TypeError /\
  forall n, snd (derive (host := demo) 3 "x" ["x"] "first" s1)
            <> Returned (Handle n).
Proof.
  destruct (derive_on_created_name (host := demo) empty_sys "x" ["x"] "first" 3)
    as [Hcreated _].
  destruct (derive_on_created_name (host := demo)
              (fst (createStore (host := demo) "x" (VObj [("a", VNum 1)])
                      empty_sys))
              "x" ["x"] "first" 3) as [_ Htaken].
  assert ("x" <> "__proto__") as Hname by discriminate.
  pose proof (Hcreated (VObj [("a", VNum 1)]) Hname eq_refl) as Ht.
  destruct (Htaken Ht) as (o & Hd & Hno & _ & Hte & _).
  cbv zeta. rewrite Hd. cbn [snd]. split; [exact Ht|]. split; [|exact Hno].
  apply Hte; [discriminate|]. intros g. discriminate.
Defined.

(** The usual case: a TypeError, with the spec left in [derivedStates]; from
    then on every [set] on the store throws after its write and its
    notifications. *)
Example derive_on_created_name_throws :
  let s1 := fst (createStore (host := demo) "x" (VObj [("a", VNum 1)]) empty_sys) in
  let r := derive (host := demo) 3 "x" ["x"] "first" s1 in
  snd r = Thrown TypeError /\
  derivedStates (fst (fst r))
    = [("x", mk_dspec ["x"] "first" (Raw (VObj [("a", VNum 1)])))] /\
  snd (set (host := demo) 3 "x" (VObj [("b", VNum 2)]) false (fst (fst r)))
    = Thrown TypeError.
Proof. repeat split. Qed.

(** Once an updater has replaced the snapshot by a falsy value the name is
    free again, and [derive] creates the store anew. *)
Example derive_after_falsy_state :
  let s1 := fst (createStore (host := demo) "x" (VObj [("a", VNum 1)]) empty_sys) in
  let s2 := fst (fst (set (host := demo) 1 "x" (VFun "null") false s1)) in
  stores_get (host := demo) s2 "x" = VNull /\
  snd (derive (host := demo) 3 "x" [] "onlyY" s2) = Returned (Handle "x").
Proof. repeat split. Qed.

(** C7 at the inputs of the specification. *)
Example get_path_examples :
  let s1 := fst (createStore (host := demo) "u" (VObj []) empty_sys) in
  let s2 := fst (fst (set (host := demo) 1 "u"
                    (VObj [("preferences", VObj [("theme", VStr "light")])])
                    false s1)) in
  get (host := demo) "u" (Some "preferences.theme") s2 = Returned (VStr "light") /\
  get (host := demo) "u" (Some "missing.path") s2 = Returned VUndefined /\
  get (host := demo) "u" (Some "preferences.theme.length") s2 = Returned (VNum 5).
Proof. repeat split. Qed.

(** C7, counterexample: every plain object inherits [constructor], a
    function, and every function inherits the accessor [caller], which
    throws; so does [arguments], reached here through the method [toString]
    of the number under [x]. *)
Lemma get_path_throws_on_accessor :
  get (host := demo) "a" (Some "constructor.caller") sys_a = Thrown TypeError /\
  get (host := demo) "a" (Some "x.toString.arguments") sys_a
    = Thrown TypeError.
Proof. split; reflexivity. Qed.

(** C7, witness: [get("missing.path")] and [get("constructor.caller")] on the
    store [a]. *)
Lemma get_path_safe_witness :
  get (host := demo) "a" (Some "missing.path") sys_a = Returned VUndefined /\
  (exists v, get (host := demo) "a" (Some "missing.path") sys_a = Returned v) /\
  exists keys1 key keys2 obj,
    split_dots "constructor.caller" = keys1 ++ key :: keys2 /\
    reduce_path (host := demo) (stores_get (host := demo) sys_a "a") keys1
      = Returned obj /\
    throws (Host := demo) (class_of obj) key = true.
Proof.
  destruct (get_path_safe (host := demo) sys_a "a" "missing.path")
    as (Hmissing & _ & Hreturns).
  destruct (get_path_safe (host := demo) sys_a "a" "constructor.caller")
    as (_ & [[v Hv]|(keys1 & key & keys2 & obj & H1 & H2 & _ & _ & H3 & _)] & _);
    [discriminate|].
  split; [|split].
  - apply (Hmissing [] "missing" ["path"] VUndefined);
      [reflexivity|discriminate|reflexivity|reflexivity].
  - apply Hreturns. intros c key' [<-|[<-|[]]]; now destruct c.
  - exists keys1, key, keys2, obj. auto.
Defined.

(** C8, counterexample: [L] is subscribed; subscribing [L] again and calling
    the handle of that second subscription leaves the listener set empty,
    which is not its membership before the second subscription. *)
Lemma unsubscribe_removes_earlier_subscription :
  let s2 := fst (subscribe "a" "L" sys_a_listened) in
  let s3 := fst (unsubscribe ("a", "L") s2) in
  snd (subscribe "a" "L" sys_a_listened) = Returned ("a", "L") /\
  lookup "a" (listeners sys_a_listened) = Some ["L"] /\
  lookup "a" (listeners s3) = Some [] /\
  lookup "a" (listeners s3) <> lookup "a" (listeners sys_a_listened).
Proof. repeat split. discriminate. Qed.

(** C8, witness: a second listener [M] on the store [a]. *)
Lemma unsubscribe_after_subscribe_witness :
  exists h s1 s2 removed,
    subscribe "a" "M" sys_a_listened = (s1, Returned h) /\
    unsubscribe h s1 = (s2, Returned removed) /\
    lookup "a" (listeners s2) = Some (set_delete "M" ["L"]) /\
    (forall nextState prevState,
        ~ In (ENotify "a" "M" nextState prevState)
             (fst (notifications (host := demo) "a" (set_delete "M" ["L"])
                     nextState prevState))) /\
    (~ In "M" ["L"] -> s2 = sys_a_listened) /\
    unsubscribe h s2 = (s2, Returned false).
Proof.
  apply (unsubscribe_after_subscribe sys_a_listened "a" "M" ["L"]). reflexivity.
Defined.

(** C9, counterexample: the caller sets the derived store [d] through its
    handle; the write is not preceded by any update, and the content of [d]
    is no longer what its compute function gives. *)
Lemma derived_store_set_by_caller :
  let v := VObj [("x", VNum 1); ("z", VNum 9)] in
  exists s',
    set (host := demo) 5 "d" (VObj [("z", VNum 9)]) false sys_ad
      = (s', [EWrite "d" v; EReturn "d" v], Returned v) /\
    stores_get (host := demo) s' "d" = v /\
    call (Host := demo) "first" (map (stores_get (host := demo) s') ["a"])
      = Some (VObj [("x", VNum 1)]).
Proof. eexists. repeat split. Qed.

(** C9, witness: in the state with [d] derived from [a], the write of [d]
    during [a.set({z: 1})] follows the update of [d], and [d.set({z: 9})]
    writes [d] directly. *)
Lemma derived_written_by_update_witness :
  let r := set (host := demo) 5 "a" (VObj [("z", VNum 1)]) false sys_ad in
  ((forall pre v post,
       snd (fst r) = pre ++ EWrite "d" v :: post ->
       exists pre' inputs, pre = pre' ++ [EUpdate "d" inputs]) /\
   ((forall inputs, ~ In (EUpdate "d" inputs) (snd (fst r))) ->
    stores_get (host := demo) (fst (fst r)) "d"
    = stores_get (host := demo) sys_ad "d")) /\
  exists s' rest o,
    set (host := demo) 1 "d" (VObj [("z", VNum 9)]) false sys_ad
    = (s', EWrite "d" (VObj [("x", VNum 1); ("z", VNum 9)]) :: rest, o).
Proof.
  destruct (derived_written_by_update (host := demo) sys_ad "d" sys_ad_reachable)
    as [Hother Hown].
  split.
  - apply (Hother 5 "a" (VObj [("z", VNum 1)]) false _ _
             (Returned (VObj [("x", VNum 1); ("z", VNum 1)])));
      [discriminate|reflexivity].
  - apply (Hown 0 (VObj [("z", VNum 9)]) false). reflexivity.
Defined.


(** The dependents of [a] in that state, and the trace the theorem
    describes. *)
Example set_effects_complete_trace :
  let v := VObj [("x", VNum 1); ("z", VNum 1)] in
  dependents (derivedStates sys_ad) "a" = ["d"] /\
  snd (fst (set (host := demo) 5 "a" (VObj [("z", VNum 1)]) false sys_ad))
  = EWrite "a" v
      :: invocations "a" ["L"] v (VObj [("x", VNum 1)])
      ++ (EUpdate "d" [v]
            :: (EWrite "d" v :: invocations "d" [] v (VObj [("x", VNum 1)])
                  ++ [] ++ [EReturn "d" v])
            ++ [])
      ++ [EReturn "a" v].
Proof. split; reflexivity. Qed.

(** The heap of the examples: the store [a] holds the object at address 0. *)
Example heap_a_wf :
  heap_wf (mk_hsys [[("x", VNum 1)]] [("a", RObj 0)]).
Proof.
  repeat constructor.
Qed.

(** C6, witness: the caller overwrites [x], adds [y] and deletes [x] on the
    object that [get()] returned. *)
Lemma get_copy_isolated_witness :
  let s := mk_hsys [[("x", VNum 1)]] [("a", RObj 0)] in
  let ms := [MAssign "x" (VNum 5); MAssign "y" VNull; MDelete "x"] in
  let s1 := fst (hget (host := demo) "a" s) in
  let r := snd (hget (host := demo) "a" s) in
  let s2 := fold_left (fun h m => mutate r m h) ms s1 in
  deref (heap s1) r = copy (deref (heap s) (hstores_get (host := demo) s "a")) /\
  deref (heap (fst (hget (host := demo) "a" s2))) (snd (hget (host := demo) "a" s2))
  = deref (heap s1) r.
Proof.
  apply (get_copy_isolated (host := demo)
           (mk_hsys [[("x", VNum 1)]] [("a", RObj 0)]) "a"
           [MAssign "x" (VNum 5); MAssign "y" VNull; MDelete "x"]).
  exact heap_a_wf.
Defined.

(** By contrast the object that the second [createStore] returns is the
    stored snapshot itself: changing it changes what [get()] returns. *)
Example raw_snapshot_is_aliased :
  let s := mk_hsys [[("x", VNum 1)]] [("a", RObj 0)] in
  let '(s1, r) := hcreateStore (host := demo) "a" (VObj []) s in
  r = HRaw (RObj 0) /\
  let s2 := mutate (RObj 0) (MAssign "x" (VNum 5)) s1 in
  deref (heap (fst (hget (host := demo) "a" s2))) (snd (hget (host := demo) "a" s2))
  = VObj [("x", VNum 5)].
Proof. split; reflexivity. Qed.

(** ** The further properties at concrete inputs *)

Lemma createStore_creates_witness :
  exists s',
    createStore (host := demo) "x" (VObj [("a", VNum 1)]) sys_a
      = (s', Handle "x") /\
    get (host := demo) "x" None s'
      = Returned (copy (or_empty (VObj [("a", VNum 1)]))) /\
    lookup "x" (listeners s') = Some [] /\
    derivedStates s' = derivedStates sys_a /\
    forall m, m <> "x" ->
      stores_get (host := demo) s' m = stores_get (host := demo) sys_a m /\
      lookup m (listeners s') = lookup m (listeners sys_a).
Proof.
  apply (createStore_creates (host := demo) sys_a "x" (VObj [("a", VNum 1)]));
    [discriminate|reflexivity].
Defined.

Lemma set_then_get_witness :
  let r := set (host := demo) 5 "a" (VFun "onlyY") false sys_ad in
  stores_get (host := demo) (fst (fst r)) "a" = VObj [("y", VNum 2)] /\
  get (host := demo) "a" None (fst (fst r)) = Returned (copy (VObj [("y", VNum 2)])).
Proof.
  apply (set_then_get (host := demo) 5 "a" (VFun "onlyY") false sys_ad
           (fst (fst (set (host := demo) 5 "a" (VFun "onlyY") false sys_ad)))
           (snd (fst (set (host := demo) 5 "a" (VFun "onlyY") false sys_ad))));
    [discriminate|reflexivity].
Defined.

Lemma set_merges_partial_update_witness :
  let updater := VObj [("z", VNum 1)] in
  let v := VObj [("x", VNum 1); ("z", VNum 1)] in
  (is_function updater = false ->
   forall k,
     own_prop v k
     = match own_prop (copy updater) k with
       | Some x => Some x
       | None => own_prop (copy (stores_get (host := demo) sys_ad "a")) k
       end) /\
  (forall f,
     updater = VFun f ->
     call (Host := demo) f [copy (stores_get (host := demo) sys_ad "a")] = Some v).
Proof.
  apply (set_merges_partial_update (host := demo) 5 "a" (VObj [("z", VNum 1)])
           false sys_ad
           (fst (fst (set (host := demo) 5 "a" (VObj [("z", VNum 1)]) false
                        sys_ad)))
           (snd (fst (set (host := demo) 5 "a" (VObj [("z", VNum 1)]) false
                        sys_ad)))
           (VObj [("x", VNum 1); ("z", VNum 1)])).
  reflexivity.
Defined.

Lemma set_without_dependents_witness :
  let v := VObj [("x", VNum 1); ("z", VNum 1)] in
  let prevState := VObj [("x", VNum 1)] in
  set (host := demo) 1 "a" (VObj [("z", VNum 1)]) false sys_a_listened
  = (with_store sys_a_listened "a" v,
     EWrite "a" v :: invocations "a" ["L"] v prevState ++ [EReturn "a" v],
     Returned v) /\
  set (host := demo) 1 "a" (VObj [("z", VNum 1)]) true sys_a_listened
  = (with_store sys_a_listened "a" v, [EWrite "a" v; EReturn "a" v], Returned v).
Proof.
  destruct (set_without_dependents (host := demo) 0 sys_a_listened "a"
              (VObj [("z", VNum 1)]) ["L"]
              (VObj [("x", VNum 1); ("z", VNum 1)]))
    as (Hloud & _ & Hsilent);
    [discriminate|reflexivity|reflexivity|].
  split; [|exact Hsilent].
  apply Hloud. repeat constructor. discriminate.
Defined.

Lemma subscribe_twice_witness :
  let s1 := fst (subscribe "a" "L" sys_a) in
  subscribe "a" "L" s1 = (s1, Returned ("a", "L")) /\
  (In "L" [] -> s1 = sys_a) /\
  (~ In "L" [] -> lookup "a" (listeners s1) = Some ([] ++ ["L"])).
Proof.
  apply (subscribe_twice sys_a "a" "L" []). reflexivity.
Defined.

Lemma get_path_follows_keys_witness :
  get (host := demo) "u" (Some "preferences.theme") sys_u = Returned (VStr "light").
Proof.
  destruct (get_path_follows_keys (host := demo) sys_u "u"
              ["preferences"; "theme"] eq_refl) as [Hget _];
    [discriminate|].
  exact Hget.
Defined.

Lemma derive_creates_witness :
  let r := derive (host := demo) 3 "d" ["a"] "wrap" sys_a_listened in
  snd r = Returned (Handle "d") /\
  lookup "d" (derivedStates (fst (fst r)))
    = Some (mk_dspec ["a"] "wrap" (Handle "d")) /\
  get (host := demo) "d" None (fst (fst r))
    = Returned (copy (VObj [("value", VObj [("x", VNum 1)])])) /\
  exists s' tr,
    derive (host := demo) 1 "d" ["a"] "wrap" sys_a_listened
    = (s', tr, Returned (Handle "d")).
Proof.
  destruct (derive_creates (host := demo) 3 sys_a_listened "d" ["a"] "wrap")
    as [Hreturned _]; [discriminate|reflexivity|].
  destruct (derive_creates (host := demo) 1 sys_a_listened "d" ["a"] "wrap")
    as [_ Hreturns]; [discriminate|reflexivity|].
  destruct (Hreturned
              (fst (fst (derive (host := demo) 3 "d" ["a"] "wrap" sys_a_listened)))
              (snd (fst (derive (host := demo) 3 "d" ["a"] "wrap" sys_a_listened)))
              (Handle "d") eq_refl)
    as (_ & Hspec & _ & newState & Hcall & _ & Hget).
  injection Hcall as <-.
  split; [reflexivity|].
  split; [exact Hspec|].
  split; [exact (Hget eq_refl)|].
  apply (Hreturns (fun n => if n =? "d" then 0 else 1)).
  - exact (proj1 sys_aw_recomputable).
  - exact (proj2 sys_aw_recomputable).
  - exact sys_aw_quiet.
  - simpl. lia.
Defined.


Lemma set_frame_witness :
  let r := set (host := demo) 5 "d" (VObj [("z", VNum 9)]) false sys_ad in
  listeners (fst (fst r)) = listeners sys_ad /\
  derivedStates (fst (fst r)) = derivedStates sys_ad /\
  forall m,
    m <> "d" -> lookup m (derivedStates sys_ad) = None ->
    stores_get (host := demo) (fst (fst r)) m = stores_get (host := demo) sys_ad m.
Proof.
  apply (set_frame (host := demo) 5 sys_ad _ "d" (VObj [("z", VNum 9)]) false
           (snd (fst (set (host := demo) 5 "d" (VObj [("z", VNum 9)]) false sys_ad)))
           (snd (set (host := demo) 5 "d" (VObj [("z", VNum 9)]) false sys_ad)));
    [exact sys_ad_reachable|apply result_eta].
Defined.

Lemma createStore_after_falsy_witness :
  let s' := fst (fst (set (host := demo) 1 "a" (VFun "null") false sys_a_listened)) in
  is_function (VFun "null") = true /\
  exists s'',
    createStore (host := demo) "a" (VObj [("b", VNum 2)]) s' = (s'', Handle "a") /\
    get (host := demo) "a" None s''
      = Returned (copy (or_empty (VObj [("b", VNum 2)]))) /\
    lookup "a" (listeners s'') = Some [].
Proof.
  apply (createStore_after_falsy (host := demo) 1 sys_a_listened _ "a"
           (VFun "null") false
           (snd (fst (set (host := demo) 1 "a" (VFun "null") false sys_a_listened)))
           VNull);
    [discriminate|reflexivity|reflexivity].
Defined.

Example sys_ad_listened_reachable : reachable (host := demo) sys_ad_listened.
Proof. apply reach_subscribe, sys_ad_reachable. Qed.

Lemma dependents_are_notified_witness :
  exists a b,
    In (ENotify "d" "M" a b)
       (snd (fst (set (host := demo) 5 "a" (VObj [("z", VNum 1)]) true
                    sys_ad_listened))).
Proof.
  apply (dependents_are_notified (host := demo) 5 sys_ad_listened
           (fst (fst (set (host := demo) 5 "a" (VObj [("z", VNum 1)]) true
                        sys_ad_listened)))
           "a" (VObj [("z", VNum 1)]) true _
           (VObj [("x", VNum 1); ("z", VNum 1)])
           "d" (mk_dspec ["a"] "first" (Handle "d")) ["M"] "M").
  - exact sys_ad_listened_reachable.
  - reflexivity.
  - reflexivity.
  - reflexivity.
  - now left.
  - reflexivity.
  - now left.
Defined.

Example sys_chain_reachable : reachable (host := demo) sys_chain.
Proof. eapply reach_derive; [exact sys_aw_reachable|apply result_eta]. Qed.

Example sys_chain_downstream : downstream sys_chain "a" "e".
Proof.
  apply (downstream_step sys_chain "a" "d" "e" (mk_dspec ["d"] "wrap" (Handle "e")));
    [|reflexivity|reflexivity|now left].
  apply (downstream_step sys_chain "a" "a" "d" (mk_dspec ["a"] "wrap" (Handle "d")));
    [apply downstream_self|reflexivity|reflexivity|now left].
Qed.

Lemma propagation_reaches_downstream_witness :
  let r := set (host := demo) 5 "a" (VObj [("z", VNum 1)]) false sys_chain in
  (exists w, In (EWrite "e" w) (snd (fst r))) /\
  ("e" <> "a" ->
   exists d, lookup "e" (derivedStates sys_chain) = Some d /\
             computed_state (host := demo) sys_chain (snd (fst r))
               (fst (fst r)) "e" d).
Proof.
  apply (propagation_reaches_downstream (host := demo) 5 sys_chain _ "a"
           (VObj [("z", VNum 1)]) false _
           (VObj [("x", VNum 1); ("z", VNum 1)]) "e").
  - exact sys_chain_reachable.
  - reflexivity.
  - exact sys_chain_downstream.
Defined.

(** The chain at work: after [a.set({z: 1})], [e] wraps the state of [d],
    which wraps the new state of [a]. *)
Example chain_propagates :
  get (host := demo) "e" None
    (fst (fst (set (host := demo) 5 "a" (VObj [("z", VNum 1)]) false sys_chain)))
  = Returned
      (VObj [("value",
              VObj [("value", VObj [("x", VNum 1); ("z", VNum 1)])])]).
Proof. reflexivity. Qed.
